(** * gh-issue-sync: the reconciliation engine of [internal/app]

    A shallow embedding of the Go sources [diff.go], [helpers.go],
    [comment.go], [storage.go] and [pull.go], followed by the properties
    that the design document states about them.

    Go strings are byte sequences: they are [string] here (a list of
    8-bit [ascii]).  Slices are lists, a [nil] slice is [[]].  Lengths,
    loop indices and the cells of the LCS table are natural numbers: every
    one of them is bounded by the length of a slice held in memory, so the
    64-bit [int] of the source never wraps. *)

From Stdlib Require Import Arith Lia Bool Ascii.
From stdpp Require Import base option list sorting strings gmap.

(** ** Part I: the embedding *)

(** *** Go's [strings] helpers used by the sources *)

Definition newline : ascii := "010"%char.
Definition NL : string := String newline "".

(** [strings.HasPrefix] *)
Definition HasPrefix (s p : string) : bool := String.prefix p s.

(** [strings.TrimPrefix] *)
Definition TrimPrefix (s p : string) : string :=
  if HasPrefix s p then String.substring (String.length p) (String.length s - String.length p) s
  else s.

(** [strings.HasSuffix] *)
Definition HasSuffix (s suf : string) : bool :=
  bool_decide (String.length suf ≤ String.length s) &&
  String.eqb (String.substring (String.length s - String.length suf) (String.length suf) s) suf.

(** [strings.TrimSuffix] *)
Definition TrimSuffix (s suf : string) : string :=
  if HasSuffix s suf then String.substring 0 (String.length s - String.length suf) s else s.

(** [strings.Split(s, sep)] for a separator of one byte: the pieces of [s]
    between the occurrences of [sep]; a string without [sep], the empty
    string included, is a single piece. *)
Fixpoint Split1 (s : string) (sep : ascii) : list string :=
  match s with
  | EmptyString => [EmptyString]
  | String c rest =>
      if decide (c = sep) then EmptyString :: Split1 rest sep
      else match Split1 rest sep with
           | piece :: pieces => String c piece :: pieces
           | [] => [String c EmptyString]
           end
  end.

(** [strings.Join] *)
Definition Join (elems : list string) (sep : string) : string := String.concat sep elems.

(** *** The types of the [issue] and [ghcli] packages

    Their declarations are outside the sources at hand; the fields are the
    ones [internal/app] reads and writes, with the types it uses them at. *)

Module issue.
(** [type IssueNumber string] and [type IssueRef string] *)
Abbreviation IssueNumber := string.
Abbreviation IssueRef := string.

Record Issue := mkIssue {
  Number : IssueNumber;
  Title : string;
  Body : string;
  Labels : list string;
  Assignees : list string;
  Projects : list string;
  Milestone : string;
  IssueType : string;
  State : string;
  StateReason : option string;      (* [*string] *)
  Parent : option IssueRef;         (* [*IssueRef] *)
  BlockedBy : list IssueRef;
  Blocks : list IssueRef;
  SyncedAt : option Z               (* [*time.Time], as a clock reading *)
}.
End issue.

Module ghcli.
Record IssueChange := mkIssueChange {
  Title : option string;
  Body : option string;
  AddLabels : list string;
  RemoveLabels : list string;
  AddAssignees : list string;
  RemoveAssignees : list string;
  AddProjects : list string;
  RemoveProjects : list string;
  Milestone : option string;
  IssueType : option string;
  StateTransition : option string;
  StateReason : option string
}.
End ghcli.

(** *** diff.go *)

Inductive diffOpType := diffEqual | diffDelete | diffInsert.

Record diffOp := mkDiffOp { Type' : diffOpType; Text : string }.

Global Instance diffOpType_eq_dec : EqDecision diffOpType.
Proof. solve_decision. Defined.
Global Instance diffOp_eq_dec : EqDecision diffOp.
Proof. solve_decision. Defined.

Definition splitLines (text : string) : list string :=
  if decide (text = "") then []
  else Split1 (TrimSuffix text NL) newline.

(** [s[k]] for a slice of lines (always in range where the source indexes). *)
Definition lineAt (ls : list string) (k : nat) : string := nth k ls "".

(** [lcs[i][j]] and [lcs[i][j] = v] on the table, a slice of rows. *)
Definition cell (lcs : list (list nat)) (i j : nat) : nat := nth j (nth i lcs []) 0.
Definition setCell (lcs : list (list nat)) (i j v : nat) : list (list nat) :=
  <[i := <[j := v]> (nth i lcs [])]> lcs.

Section computeDiff.
Variables oldLines newLines : list string.

(** The body of the two nested [for] loops that fill the table. *)
Definition fillCell (lcs : list (list nat)) (i j : nat) : list (list nat) :=
  if String.eqb (lineAt oldLines (i - 1)) (lineAt newLines (j - 1)) then
    setCell lcs i j (cell lcs (i - 1) (j - 1) + 1)
  else if cell lcs i (j - 1) <=? cell lcs (i - 1) j then
    setCell lcs i j (cell lcs (i - 1) j)
  else
    setCell lcs i j (cell lcs i (j - 1)).

(** [for j := 1; j <= n; j++] *)
Definition fillRow (n : nat) (lcs : list (list nat)) (i : nat) : list (list nat) :=
  foldl (fun t j => fillCell t i j) lcs (seq 1 n).

(** [for i := 1; i <= m; i++], starting from the zeroed
    [(m+1) x (n+1)] table that [make] allocates. *)
Definition lcsTable : list (list nat) :=
  let m := length oldLines in
  let n := length newLines in
  foldl (fillRow n) (replicate (S m) (replicate (S n) 0)) (seq 1 m).

(** The backtracking loop [for i > 0 || j > 0].  Every turn decreases
    [i + j], so [i + j] turns of fuel are never exhausted (lemma
    [backtrack_fuel] below). *)
Fixpoint backtrack (lcs : list (list nat)) (fuel i j : nat) (ops : list diffOp)
  : list diffOp :=
  match fuel with
  | 0 => ops
  | S fuel' =>
      if negb ((0 <? i) || (0 <? j)) then ops
      else if (0 <? i) && (0 <? j) &&
              String.eqb (lineAt oldLines (i - 1)) (lineAt newLines (j - 1)) then
        backtrack lcs fuel' (i - 1) (j - 1)
          (ops ++ [mkDiffOp diffEqual (lineAt oldLines (i - 1))])
      else if (0 <? j) && ((i =? 0) || (cell lcs (i - 1) j <=? cell lcs i (j - 1))) then
        backtrack lcs fuel' i (j - 1)
          (ops ++ [mkDiffOp diffInsert (lineAt newLines (j - 1))])
      else
        backtrack lcs fuel' (i - 1) j
          (ops ++ [mkDiffOp diffDelete (lineAt oldLines (i - 1))])
  end.

(** [computeDiff]: fill the table, backtrack from [(m, n)], reverse. *)
Definition computeDiff : list diffOp :=
  let m := length oldLines in
  let n := length newLines in
  reverse (backtrack lcsTable (m + n) m n []).
End computeDiff.

(** The lines a script keeps from the old text, and those it gives the new. *)
Definition oldSide (ops : list diffOp) : list string :=
  Text <$> filter (fun op => Type' op ≠ diffInsert) ops.
Definition newSide (ops : list diffOp) : list string :=
  Text <$> filter (fun op => Type' op ≠ diffDelete) ops.

(** *** helpers.go: the set diff *)

(** [sort.Strings]: ascending in Go's byte-wise string order.  A list has
    one sorted arrangement under a total order, so the algorithm the
    runtime uses does not show; it is a merge sort here. *)
Definition sortStrings (l : list string) : list string := merge_sort String.le l.

(** [set := make(map[string]struct{}); for _, item := range items { set[item] = struct{}{} }] *)
Definition stringSet (items : list string) : gset string :=
  foldl (λ set item, {[item]} ∪ set) ∅ items.

(** [diffStringSet].  Go visits the keys of a map in an order it leaves
    open: [rangeKeys] is the order of the two [range] loops, any listing of
    the keys of the map. *)
Definition diffStringSetVia (rangeKeys : gset string → list string)
    (old new : list string) : list string * list string :=
  let oldSet := stringSet old in
  let newSet := stringSet new in
  let add := filter (λ item, item ∉ oldSet) (rangeKeys newSet) in
  let remove := filter (λ item, item ∉ newSet) (rangeKeys oldSet) in
  (sortStrings add, sortStrings remove).

(** The result does not depend on that order (lemma
    [diffStringSetVia_order]); callers are modelled with one of them. *)
Definition diffStringSet (old new : list string) : list string * list string :=
  diffStringSetVia elements old new.

(** *** helpers.go: the change-set of a record *)

Definition normalizeOptional (value : option string) : string :=
  match value with None => "" | Some v => v end.

(** [if a != b { v := b; field = &v }] *)
Definition setIfChanged (a b : string) : option string :=
  if decide (a ≠ b) then Some b else None.

Definition diffIssue (original local : issue.Issue) : ghcli.IssueChange :=
  let labels := diffStringSet (issue.Labels original) (issue.Labels local) in
  let assignees := diffStringSet (issue.Assignees original) (issue.Assignees local) in
  let projects := diffStringSet (issue.Projects original) (issue.Projects local) in
  {| ghcli.Title := setIfChanged (issue.Title original) (issue.Title local);
     ghcli.Body := setIfChanged (issue.Body original) (issue.Body local);
     ghcli.AddLabels := labels.1;
     ghcli.RemoveLabels := labels.2;
     ghcli.AddAssignees := assignees.1;
     ghcli.RemoveAssignees := assignees.2;
     ghcli.AddProjects := projects.1;
     ghcli.RemoveProjects := projects.2;
     ghcli.Milestone := setIfChanged (issue.Milestone original) (issue.Milestone local);
     ghcli.IssueType := setIfChanged (issue.IssueType original) (issue.IssueType local);
     ghcli.StateTransition :=
       if decide (issue.State original ≠ "" ∧ issue.State original ≠ issue.State local) then
         let transition :=
           if decide (issue.State local = "closed") then "close"
           else if decide (issue.State local = "open") then "reopen"
           else "" in
         if decide (transition ≠ "") then Some transition else None
       else None;
     ghcli.StateReason :=
       if decide (issue.StateReason original ≠ None ∨ issue.StateReason local ≠ None) then
         if decide (normalizeOptional (issue.StateReason original) ≠
                    normalizeOptional (issue.StateReason local)) then
           Some (normalizeOptional (issue.StateReason local))
         else None
       else None |}.

Definition hasEdits (change : ghcli.IssueChange) : bool :=
  bool_decide (ghcli.Title change ≠ None) ||
  bool_decide (ghcli.Body change ≠ None) ||
  bool_decide (ghcli.Milestone change ≠ None) ||
  (0 <? length (ghcli.AddLabels change)) ||
  (0 <? length (ghcli.RemoveLabels change)) ||
  (0 <? length (ghcli.AddAssignees change)) ||
  (0 <? length (ghcli.RemoveAssignees change)).

(** *** helpers.go: remapping temporary identifiers *)

Definition isDigit (c : ascii) : bool :=
  (48 <=? nat_of_ascii c) && (nat_of_ascii c <=? 57).
Definition isAlnum (c : ascii) : bool :=
  isDigit c ||
  ((65 <=? nat_of_ascii c) && (nat_of_ascii c <=? 90)) ||
  ((97 <=? nat_of_ascii c) && (nat_of_ascii c <=? 122)).

Fixpoint allChars (p : ascii → bool) (s : string) : bool :=
  match s with
  | EmptyString => true
  | String c rest => p c && allChars p rest
  end.

(** The longest prefix of [s] made of letters and digits: what
    [[a-zA-Z0-9]+] takes, being greedy. *)
Fixpoint alnumRun (s : string) : string :=
  match s with
  | String c rest => if isAlnum c then String c (alnumRun rest) else EmptyString
  | EmptyString => EmptyString
  end.

(** The first byte of a string is a letter or a digit. *)
Definition headAlnum (s : string) : bool :=
  match s with String c _ => isAlnum c | EmptyString => false end.

(** The string starts as a temporary identifier does: [T] and then a
    letter or a digit. *)
Definition startsLocalId (s : string) : bool :=
  match s with String "T" rest => headAlnum rest | _ => false end.

(** [localRefPattern = `#(T[a-zA-Z0-9]+)`], tried at the first byte of
    [s]: the text it matches there, if it does. *)
Definition matchLocalRef (s : string) : option string :=
  match s with
  | String "#" (String "T" rest) =>
      match alnumRun rest with
      | EmptyString => None
      | run => Some (String "#" (String "T" run))
      end
  | _ => None
  end.

(** [localRefPattern.ReplaceAllStringFunc(src, repl)]: the matches are
    found from left to right without overlap, each is replaced by what
    [repl] returns for it, the text between them is copied.  [repl] is the
    closure of the source, which also assigns the variable [changed] it
    captures: it takes and returns the value of that variable.  [skip]
    counts the bytes of the last match still to be passed over. *)
Fixpoint replaceAllFrom (repl : string → bool → string * bool) (skip : nat)
    (src : string) (changed : bool) : string * bool :=
  match src with
  | EmptyString => (EmptyString, changed)
  | String c rest =>
      match skip with
      | S k => replaceAllFrom repl k rest changed
      | 0 =>
          match matchLocalRef src with
          | Some m =>
              let '(out, changed) := repl m changed in
              let '(tail, changed) :=
                replaceAllFrom repl (String.length m - 1) rest changed in
              (out +:+ tail, changed)
          | None =>
              let '(tail, changed) := replaceAllFrom repl 0 rest changed in
              (String c tail, changed)
          end
      end
  end.

Definition ReplaceAllStringFunc (src : string) (repl : string → bool → string * bool)
    (changed : bool) : string * bool :=
  replaceAllFrom repl 0 src changed.

(** The closure [applyMapping] passes for the body and for the title. *)
Definition remapMatch (mapping : gmap string string) (match_ : string) (changed : bool)
  : string * bool :=
  let id := TrimPrefix match_ "#" in
  match mapping !! id with
  | Some real => ("#" +:+ real, true)
  | None => (match_, changed)
  end.

Definition applyMappingToRefs (refs : list issue.IssueRef) (mapping : gmap string string)
    (changed : bool) : list issue.IssueRef * bool :=
  if decide (length refs = 0) then (refs, changed)
  else
    foldl (λ '(updated, changed) ref,
             match mapping !! ref with
             | Some real => (updated ++ [real], true)
             | None => (updated ++ [ref], changed)
             end)
          ([], changed) refs.

Definition setBody (i : issue.Issue) (body : string) : issue.Issue :=
  issue.mkIssue (issue.Number i) (issue.Title i) body (issue.Labels i) (issue.Assignees i)
    (issue.Projects i) (issue.Milestone i) (issue.IssueType i) (issue.State i)
    (issue.StateReason i) (issue.Parent i) (issue.BlockedBy i) (issue.Blocks i)
    (issue.SyncedAt i).
Definition setTitle (i : issue.Issue) (title : string) : issue.Issue :=
  issue.mkIssue (issue.Number i) title (issue.Body i) (issue.Labels i) (issue.Assignees i)
    (issue.Projects i) (issue.Milestone i) (issue.IssueType i) (issue.State i)
    (issue.StateReason i) (issue.Parent i) (issue.BlockedBy i) (issue.Blocks i)
    (issue.SyncedAt i).
Definition setParent (i : issue.Issue) (parent : option issue.IssueRef) : issue.Issue :=
  issue.mkIssue (issue.Number i) (issue.Title i) (issue.Body i) (issue.Labels i)
    (issue.Assignees i) (issue.Projects i) (issue.Milestone i) (issue.IssueType i)
    (issue.State i) (issue.StateReason i) parent (issue.BlockedBy i) (issue.Blocks i)
    (issue.SyncedAt i).
Definition setBlockedBy (i : issue.Issue) (refs : list issue.IssueRef) : issue.Issue :=
  issue.mkIssue (issue.Number i) (issue.Title i) (issue.Body i) (issue.Labels i)
    (issue.Assignees i) (issue.Projects i) (issue.Milestone i) (issue.IssueType i)
    (issue.State i) (issue.StateReason i) (issue.Parent i) refs (issue.Blocks i)
    (issue.SyncedAt i).
Definition setBlocks (i : issue.Issue) (refs : list issue.IssueRef) : issue.Issue :=
  issue.mkIssue (issue.Number i) (issue.Title i) (issue.Body i) (issue.Labels i)
    (issue.Assignees i) (issue.Projects i) (issue.Milestone i) (issue.IssueType i)
    (issue.State i) (issue.StateReason i) (issue.Parent i) (issue.BlockedBy i) refs
    (issue.SyncedAt i).

(** [applyMapping] updates the record in place and returns [changed]: the
    updated record is returned with it here. *)
Definition applyMapping (issueItem : issue.Issue) (mapping : gmap string string)
  : issue.Issue * bool :=
  let changed := false in
  let '(body, changed) :=
    ReplaceAllStringFunc (issue.Body issueItem) (remapMatch mapping) changed in
  let '(issueItem, changed) :=
    if decide (body ≠ issue.Body issueItem) then (setBody issueItem body, true)
    else (issueItem, changed) in
  let '(title, changed) :=
    ReplaceAllStringFunc (issue.Title issueItem) (remapMatch mapping) changed in
  let '(issueItem, changed) :=
    if decide (title ≠ issue.Title issueItem) then (setTitle issueItem title, true)
    else (issueItem, changed) in
  let '(issueItem, changed) :=
    match issue.Parent issueItem with
    | Some parent =>
        match mapping !! parent with
        | Some real => (setParent issueItem (Some real), true)
        | None => (issueItem, changed)
        end
    | None => (issueItem, changed)
    end in
  let '(blockedBy, changed) :=
    applyMappingToRefs (issue.BlockedBy issueItem) mapping changed in
  let issueItem := setBlockedBy issueItem blockedBy in
  let '(blocks, changed) :=
    applyMappingToRefs (issue.Blocks issueItem) mapping changed in
  let issueItem := setBlocks issueItem blocks in
  (issueItem, changed).

(** Identifiers, as [commentFilePattern] and [localRefPattern] spell
    them: a canonical one is [\d+], a temporary one [T[a-zA-Z0-9]+]. *)
Definition isCanonicalId (s : string) : bool :=
  negb (String.eqb s "") && allChars isDigit s.
Definition isTempId (s : string) : bool :=
  match s with
  | String "T" rest => negb (String.eqb rest "") && allChars isAlnum rest
  | _ => false
  end.

(** A mapping from temporary to canonical identifiers. *)
Definition tempToCanonical (mapping : gmap string string) : Prop :=
  ∀ k v, mapping !! k = Some v → isTempId k = true ∧ isCanonicalId v = true.

(** What [applyMapping] makes of one reference. *)
Definition remapRef (mapping : gmap string string) (ref : issue.IssueRef) : issue.IssueRef :=
  match mapping !! ref with Some real => real | None => ref end.

(** *** Errors, and the files below the store root

    The core reads and writes three directories: [p.OpenDir],
    [p.ClosedDir] and [p.OriginalsDir].  A path below them is the
    directory and the file name ([filepath.Join(dir, name)]); the
    directory itself is the path with the empty name.

    A Go [error] is [ErrNotExist] (what [errors.Is(err, os.ErrNotExist)]
    tests for), a [ParseError] of storage.go with its path and cause, or
    another one with its message.  A fallible call returns [Ok v] or
    [Err e]. *)

Inductive Dir := OpenDir | ClosedDir | OriginalsDir.
Abbreviation FilePath := (Dir * string)%type.

Inductive error :=
  | ErrNotExist
  | ErrOther (msg : string)
  | ErrParse (path : FilePath) (cause : error).

Inductive result (A : Type) := Ok (v : A) | Err (e : error).
Arguments Ok {A} v.
Arguments Err {A} e.

Global Instance result_ret : MRet result := λ A v, Ok v.
Global Instance result_bind : MBind result :=
  λ A B f r, match r with Ok v => f v | Err e => Err e end.

Definition isOk {A} (r : result A) : bool :=
  match r with Ok _ => true | Err _ => false end.


Global Instance Dir_eq_dec : EqDecision Dir.
Proof. solve_decision. Defined.
Global Instance error_eq_dec : EqDecision error.
Proof. solve_decision. Defined.

(** A directory holds sub-directories and files; of a file the model
    keeps what reading it gives: the bytes for a comment side-file (read
    by [os.ReadFile]), the record for a record file (read by
    [issue.ParseFile], whose parser is outside the core), or the error. *)
Inductive Node (C : Type) := SubDirectory | RegularFile (content : result C).
Arguments SubDirectory {C}.
Arguments RegularFile {C} content.

Inductive DirState (C : Type) :=
  | DirMissing
  | DirUnreadable (msg : string)
  | DirOk (nodes : gmap string (Node C)).
Arguments DirMissing {C}.
Arguments DirUnreadable {C} msg.
Arguments DirOk {C} nodes.

Record Store (C : Type) := mkStore {
  openDir : DirState C;
  closedDir : DirState C;
  originalsDir : DirState C
}.
Arguments mkStore {C} _ _ _.
Arguments openDir {C} _.
Arguments closedDir {C} _.
Arguments originalsDir {C} _.

Definition dirState {C} (st : Store C) (d : Dir) : DirState C :=
  match d with
  | OpenDir => openDir st
  | ClosedDir => closedDir st
  | OriginalsDir => originalsDir st
  end.

Definition isSubDirectory {C} (n : Node C) : bool :=
  match n with SubDirectory => true | RegularFile _ => false end.

Record DirEntry := mkDirEntry { Name : string; IsDir : bool }.

(** [os.ReadDir]: the entries of the directory, sorted by file name. *)
Definition ReadDir {C} (st : Store C) (d : Dir) : result (list DirEntry) :=
  match dirState st d with
  | DirMissing => Err ErrNotExist
  | DirUnreadable msg => Err (ErrOther msg)
  | DirOk nodes =>
      Ok ((λ name, mkDirEntry name
                     (match nodes !! name with Some n => isSubDirectory n | None => false end))
            <$> sortStrings (elements (dom nodes)))
  end.

(** Reading the file at a path: [os.ReadFile] for bytes, [issue.ParseFile]
    for records. *)
Definition readPath {C} (st : Store C) (path : FilePath) : result C :=
  match dirState st path.1 with
  | DirMissing => Err ErrNotExist
  | DirUnreadable msg => Err (ErrOther msg)
  | DirOk nodes =>
      match nodes !! path.2 with
      | None => Err ErrNotExist
      | Some SubDirectory => Err (ErrOther "is a directory")
      | Some (RegularFile content) => content
      end
  end.

(** *** [strings.TrimSpace]

    Leading and trailing white space is cut, as [unicode.IsSpace] defines
    it: the six ASCII bytes, and the UTF-8 sequences of U+0085, U+00A0,
    U+1680, U+2000 to U+200A, U+2028, U+2029, U+202F, U+205F and U+3000. *)

Definition bytes (l : list nat) : string :=
  foldr (λ n s, String (ascii_of_nat n) s) EmptyString l.

Definition unicodeSpaces : list string :=
  bytes [194; 133] :: bytes [194; 160] :: bytes [225; 154; 128] ::
  ((λ k, bytes [226; 128; 128 + k]) <$> seq 0 11) ++
  [bytes [226; 128; 168]; bytes [226; 128; 169]; bytes [226; 128; 175];
   bytes [226; 129; 159]; bytes [227; 128; 128]].

Fixpoint dropBytes (k : nat) (s : string) : string :=
  match k, s with
  | S k', String _ rest => dropBytes k' rest
  | _, _ => s
  end.

(** One white-space rune at the start of [s], cut; [seqs] are the
    multi-byte ones. *)
Definition cutSpace (seqs : list string) (s : string) : option string :=
  match s with
  | EmptyString => None
  | String c rest =>
      if Ascii.is_space c then Some rest
      else match list_find (λ sp, String.prefix sp s = true) seqs with
           | Some (_, sp) => Some (dropBytes (String.length sp) s)
           | None => None
           end
  end.

Fixpoint trimLeft (seqs : list string) (fuel : nat) (s : string) : string :=
  match fuel with
  | 0 => s
  | S fuel' =>
      match cutSpace seqs s with
      | Some rest => trimLeft seqs fuel' rest
      | None => s
      end
  end.

Definition TrimSpace (s : string) : string :=
  let s1 := trimLeft unicodeSpaces (String.length s) s in
  String.rev (trimLeft (String.rev <$> unicodeSpaces) (String.length s1) (String.rev s1)).

(** *** comment.go *)

Module PendingComment.
Record t := mk { IssueNumber : issue.IssueNumber; Body : string; Path : FilePath }.
End PendingComment.

Fixpoint digitRun (s : string) : string :=
  match s with
  | String c rest => if isDigit c then String c (digitRun rest) else EmptyString
  | EmptyString => EmptyString
  end.

Fixpoint nonDotRun (s : string) : string :=
  match s with
  | String c rest =>
      if decide (c = "."%char) then EmptyString else String c (nonDotRun rest)
  | EmptyString => EmptyString
  end.

(** [commentFilePattern = `^(\d+|T[a-zA-Z0-9]+)(?:-[^.]+)?\.comment\.md$`]:
    the first group of [FindStringSubmatch(name)], when the name matches.
    The group takes every digit, or [T] and every letter and digit that
    follow; what comes next is a [-] or a [.], so it can take no less. *)
Definition commentFileNumber (name : string) : option string :=
  let number :=
    match digitRun name with
    | EmptyString =>
        match name with
        | String "T" rest =>
            match alnumRun rest with
            | EmptyString => None
            | run => Some (String "T" run)
            end
        | _ => None
        end
    | digits => Some digits
    end in
  match number with
  | None => None
  | Some num =>
      let rest := dropBytes (String.length num) name in
      if String.eqb rest ".comment.md" then Some num
      else
        match rest with
        | String "-" rest' =>
            let mid := nonDotRun rest' in
            if negb (String.eqb mid "") &&
               String.eqb (dropBytes (String.length mid) rest') ".comment.md"
            then Some num else None
        | _ => None
        end
  end.

(** [filepath.Glob(filepath.Join(dir, pre+"*"+suf))] for a prefix and a
    suffix without pattern characters: the names of the directory that
    start with the one and end with the other, in sorted order; none when
    the directory cannot be read. *)
Definition matchStar (pre suf name : string) : bool :=
  HasPrefix name pre && HasSuffix name suf &&
  (String.length pre + String.length suf <=? String.length name).

Definition Glob {C} (st : Store C) (dir : Dir) (pre suf : string) : list FilePath :=
  match ReadDir st dir with
  | Ok entries => (λ e, (dir, Name e)) <$> filter (λ e, matchStar pre suf (Name e) = true) entries
  | Err _ => []
  end.

(** [findPendingComment]; the pair [(comment, found)] is [Some comment]
    when [found], [None] otherwise. *)
Definition findPendingComment (st : Store string) (dir : Dir) (number : issue.IssueNumber)
  : option PendingComment.t :=
  let numStr := number in
  let preferredPath := (dir, numStr +:+ ".comment.md") in
  match readPath st preferredPath with
  | Ok content => Some (PendingComment.mk number (TrimSpace content) preferredPath)
  | Err _ =>
      match Glob st dir (numStr +:+ "-") ".comment.md" with
      | [] => None
      | first :: _ =>
          match readPath st first with
          | Err _ => None
          | Ok content => Some (PendingComment.mk number (TrimSpace content) first)
          end
      end
  end.

Definition findPendingCommentForIssue (st : Store string) (number : issue.IssueNumber)
    (state : string) : option PendingComment.t :=
  let dir := if decide (state = "closed") then ClosedDir else OpenDir in
  match findPendingComment st dir number with
  | Some comment => Some comment
  | None =>
      let otherDir := if decide (state = "closed") then OpenDir else ClosedDir in
      findPendingComment st otherDir number
  end.

(** The body of the inner loop of [loadAllPendingComments]. *)
Definition loadCommentEntry (st : Store string) (dir : Dir)
    (comments : gmap string PendingComment.t) (entry : DirEntry)
  : gmap string PendingComment.t :=
  if IsDir entry then comments
  else
    let name := Name entry in
    if negb (HasSuffix name ".comment.md") then comments
    else
      match commentFileNumber name with
      | None => comments
      | Some number =>
          let path := (dir, name) in
          match readPath st path with
          | Err _ => comments
          | Ok content =>
              let body := TrimSpace content in
              if String.eqb body "" then comments
              else
                match comments !! number with
                | Some _ => comments
                | None => <[number := PendingComment.mk number body path]> comments
                end
          end
      end.

Definition loadAllPendingComments (st : Store string) : gmap string PendingComment.t :=
  foldl (λ comments dir,
           match ReadDir st dir with
           | Err _ => comments
           | Ok entries => foldl (loadCommentEntry st dir) comments entries
           end)
        ∅ [OpenDir; ClosedDir].

(** *** What [internal/app] uses of the [issue] package

    The functions of the package are outside the sources at hand; the
    design document fixes what they compute. *)

Definition setState (i : issue.Issue) (state : string) : issue.Issue :=
  issue.mkIssue (issue.Number i) (issue.Title i) (issue.Body i) (issue.Labels i)
    (issue.Assignees i) (issue.Projects i) (issue.Milestone i) (issue.IssueType i)
    state (issue.StateReason i) (issue.Parent i) (issue.BlockedBy i) (issue.Blocks i)
    (issue.SyncedAt i).
Definition setSyncedAt (i : issue.Issue) (syncedAt : option Z) : issue.Issue :=
  issue.mkIssue (issue.Number i) (issue.Title i) (issue.Body i) (issue.Labels i)
    (issue.Assignees i) (issue.Projects i) (issue.Milestone i) (issue.IssueType i)
    (issue.State i) (issue.StateReason i) (issue.Parent i) (issue.BlockedBy i)
    (issue.Blocks i) syncedAt.

(** Two collections hold the same strings, in whatever order. *)
Definition sameSet (a b : list string) : bool :=
  bool_decide (list_to_set a =@{gset string} list_to_set b).

(** Modelled from the spec: [issue.EqualIgnoringSyncedAt].  "Equality
    between two Records must ignore SyncedAt only; every other field
    participates, including order-sensitive comparison of BlockedBy/Blocks
    sequences and set-style (order-insensitive) comparison of
    Labels/Assignees/Projects." *)
Definition EqualIgnoringSyncedAt (a b : issue.Issue) : bool :=
  bool_decide (issue.Number a = issue.Number b) &&
  bool_decide (issue.Title a = issue.Title b) &&
  bool_decide (issue.Body a = issue.Body b) &&
  sameSet (issue.Labels a) (issue.Labels b) &&
  sameSet (issue.Assignees a) (issue.Assignees b) &&
  sameSet (issue.Projects a) (issue.Projects b) &&
  bool_decide (issue.Milestone a = issue.Milestone b) &&
  bool_decide (issue.IssueType a = issue.IssueType b) &&
  bool_decide (issue.State a = issue.State b) &&
  bool_decide (issue.StateReason a = issue.StateReason b) &&
  bool_decide (issue.Parent a = issue.Parent b) &&
  bool_decide (issue.BlockedBy a = issue.BlockedBy b) &&
  bool_decide (issue.Blocks a = issue.Blocks b).

(** Modelled from the spec: [issue.PathFor].  A record file is
    [<dir>/<number-or-tempid>[-<slug>].md], the slug being the slugified
    title; how a title is slugified is left open ([slugify]). *)
Definition PathFor (slugify : string → string) (dir : Dir)
    (number : issue.IssueNumber) (title : string) : FilePath :=
  let slug := slugify title in
  (dir, if String.eqb slug "" then number +:+ ".md" else number +:+ "-" +:+ slug +:+ ".md").

(** Modelled from the spec: [IssueNumber.IsLocal].  A temporary local
    identifier is "a fixed single-letter prefix followed by a random
    alphanumeric suffix"; the prefix is the [T] that
    [restoreDeletedIssues] tests for. *)
Definition IsLocal (number : issue.IssueNumber) : bool := HasPrefix number "T".

(** Modelled from the spec: [issue.WriteFile].  The file at the path
    then holds the record, and [issue.ParseFile] reads it back; the
    directory has to be there, and no sub-directory in the way. *)
Definition setDir {C} (st : Store C) (d : Dir) (ds : DirState C) : Store C :=
  match d with
  | OpenDir => mkStore ds (closedDir st) (originalsDir st)
  | ClosedDir => mkStore (openDir st) ds (originalsDir st)
  | OriginalsDir => mkStore (openDir st) (closedDir st) ds
  end.

Definition WriteFile (st : Store issue.Issue) (path : FilePath) (item : issue.Issue)
  : result (Store issue.Issue) :=
  match dirState st path.1 with
  | DirMissing => Err ErrNotExist
  | DirUnreadable msg => Err (ErrOther msg)
  | DirOk nodes =>
      match nodes !! path.2 with
      | Some SubDirectory => Err (ErrOther "is a directory")
      | _ => Ok (setDir st path.1 (DirOk (<[path.2 := RegularFile (Ok item)]> nodes)))
      end
  end.

(** [os.Rename]: the node at [src] moves to [dst], replacing a file
    there. *)
Definition Rename {C} (st : Store C) (src dst : FilePath) : result (Store C) :=
  match dirState st src.1 with
  | DirMissing => Err ErrNotExist
  | DirUnreadable msg => Err (ErrOther msg)
  | DirOk nodes =>
      match nodes !! src.2 with
      | None => Err ErrNotExist
      | Some node =>
          let st1 := setDir st src.1 (DirOk (delete src.2 nodes)) in
          match dirState st1 dst.1 with
          | DirMissing => Err ErrNotExist
          | DirUnreadable msg => Err (ErrOther msg)
          | DirOk nodes' =>
              match nodes' !! dst.2 with
              | Some SubDirectory => Err (ErrOther "file exists")
              | _ => Ok (setDir st1 dst.1 (DirOk (<[dst.2 := node]> nodes')))
              end
          end
      end
  end.

(** [strings.ToLower], on the ASCII letters (the states the remote
    service sends are ASCII). *)
Definition lowerByte (c : ascii) : ascii :=
  if (65 <=? nat_of_ascii c) && (nat_of_ascii c <=? 90)
  then ascii_of_nat (nat_of_ascii c + 32) else c.
Fixpoint ToLower (s : string) : string :=
  match s with
  | EmptyString => EmptyString
  | String c rest => String (lowerByte c) (ToLower rest)
  end.

(** *** storage.go *)

Module IssueFile.
Record t := mk { Issue : issue.Issue; Path : FilePath; State : string }.
End IssueFile.

Module ParseError.
Record t := mk { Path : FilePath; Err : error }.
(** A [ParseError] returned as an [error]. *)
Definition asError (e : t) : error := ErrParse (Path e) (Err e).
End ParseError.

Module LoadResult.
Record t := mk { Issues : list IssueFile.t; Errors : list ParseError.t }.
End LoadResult.

(** The body of the inner loop of [loadLocalIssuesWithErrors].
    [filepath.Ext(name) != ".md"] says that the name does not end in
    [.md]. *)
Definition loadEntry (st : Store issue.Issue) (dir : Dir) (state : string)
    (result : LoadResult.t) (entry : DirEntry) : LoadResult.t :=
  if IsDir entry then result
  else if negb (HasSuffix (Name entry) ".md") then result
  else
    let path := (dir, Name entry) in
    match readPath st path with
    | Err err =>
        LoadResult.mk (LoadResult.Issues result)
          (LoadResult.Errors result ++ [ParseError.mk path err])
    | Ok parsed =>
        let parsed := setState parsed state in
        LoadResult.mk (LoadResult.Issues result ++ [IssueFile.mk parsed path state])
          (LoadResult.Errors result)
    end.

(** The outer loop, over the directories still to visit; a directory
    that cannot be read ends the load there. *)
Fixpoint loadDirs (st : Store issue.Issue) (dirs : list (Dir * string))
    (result : LoadResult.t) : LoadResult.t :=
  match dirs with
  | [] => result
  | (dir, state) :: rest =>
      match ReadDir st dir with
      | Err ErrNotExist => loadDirs st rest result
      | Err err =>
          LoadResult.mk (LoadResult.Issues result)
            (LoadResult.Errors result ++ [ParseError.mk (dir, "") err])
      | Ok entries => loadDirs st rest (foldl (loadEntry st dir state) result entries)
      end
  end.

Definition loadLocalIssuesWithErrors (st : Store issue.Issue) : LoadResult.t :=
  loadDirs st [(OpenDir, "open"); (ClosedDir, "closed")] (LoadResult.mk [] []).

Definition loadLocalIssues (st : Store issue.Issue) : result (list IssueFile.t) :=
  let result := loadLocalIssuesWithErrors st in
  match LoadResult.Errors result with
  | first :: _ => Err (ParseError.asError first)
  | [] => Ok (LoadResult.Issues result)
  end.

(** [readOriginalIssue]; [(issue, ok)] is [Some issue] when [ok]. *)
Definition readOriginalIssue (st : Store issue.Issue) (number : string)
  : option issue.Issue :=
  match readPath st (OriginalsDir, number +:+ ".md") with
  | Ok parsed => Some parsed
  | Err _ => None
  end.

Definition writeOriginalIssue (st : Store issue.Issue) (item : issue.Issue)
  : result (Store issue.Issue) :=
  WriteFile st (OriginalsDir, issue.Number item +:+ ".md") item.

(** *** pull.go

    [Pull] reads the clock, prints, and changes files; all of it is state
    here.  The world holds the store, how often the clock was read (the
    [n]-th reading is [Now a n]), the lines printed so far, the file
    operations done so far, and the last-full-pull time of the saved
    configuration. *)

Record PullOptions := mkPullOptions { All : bool; Force : bool; Label : list string }.

(** The remote client answers; the answers are what a run is given. *)
Record Client := mkClient {
  GetIssue : string → result issue.Issue;
  (** the slice after the call, and the error of the call *)
  EnrichWithRelationshipsBatch : list issue.Issue → list issue.Issue * option error;
  EnrichWithRelationships : issue.Issue → issue.Issue * option error;
  (** the records and the label colours *)
  ListIssuesWithRelationships :
    string → list string → result (list issue.Issue * gmap string string);
  (** the map from number to record, in the order [range] visits it *)
  GetIssuesBatch : list string → result (list (string * issue.Issue));
  ListLabels : result (list (string * string));
  ListMilestones : result (list string);
  ListIssueTypes : result (list string);
  ListProjects : result (list string)
}.

Record App := mkApp {
  Now : nat → Z;
  client : Client;
  (** outcome of [loadConfig] and of [lock.Acquire] *)
  configError : option error;
  lockError : option error;
  (** the change lines of an updated record, rendered elsewhere *)
  formatChangeLines : issue.Issue → issue.Issue → list string
}.

Inductive Event :=
  | WarningLine (what : string) (err : error)
  | IssueHeader (kind number title : string)
  | ChangeLine (line : string)
  | FileChange (old new : FilePath)
  | ConflictsLine (numbers : list string)
  | NothingToPull (unchanged : nat).

Inductive FsOp :=
  | OpRename (src dst : FilePath)
  | OpWriteFile (path : FilePath)
  | OpSaveConfig
  | OpSaveCache (name : string).

Record World := mkWorld {
  store : Store issue.Issue;
  calls : nat;
  out : list Event;
  fsops : list FsOp;
  lastFullPull : option Z
}.

(** A step of [Pull]: it may fail, and what it did before stays done. *)
Definition M (A : Type) : Type := World → result A * World.

Global Instance M_ret : MRet M := λ A v w, (Ok v, w).
Global Instance M_bind : MBind M :=
  λ A B f m w, match m w with (Ok v, w') => f v w' | (Err e, w') => (Err e, w') end.

Definition fail {A} (e : error) : M A := λ w, (Err e, w).

Definition getStore : M (Store issue.Issue) := λ w, (Ok (store w), w).

(** [a.Now().UTC()] *)
Definition now (a : App) : M Z :=
  λ w, (Ok (Now a (calls w)),
        mkWorld (store w) (S (calls w)) (out w) (fsops w) (lastFullPull w)).

Definition print (e : Event) : M unit :=
  λ w, (Ok (), mkWorld (store w) (calls w) (out w ++ [e]) (fsops w) (lastFullPull w)).

Definition printAll (es : list Event) : M unit :=
  λ w, (Ok (), mkWorld (store w) (calls w) (out w ++ es) (fsops w) (lastFullPull w)).

(** A file operation: done and recorded, or failed. *)
Definition fileOp (f : Store issue.Issue → result (Store issue.Issue)) (op : FsOp) : M unit :=
  λ w, match f (store w) with
       | Ok st => (Ok (), mkWorld st (calls w) (out w) (fsops w ++ [op]) (lastFullPull w))
       | Err e => (Err e, w)
       end.

(** [config.Save] with the new last-full-pull time, and the saving of a
    cache; both are taken to succeed. *)
Definition saveConfig (t : Z) : M unit :=
  λ w, (Ok (), mkWorld (store w) (calls w) (out w) (fsops w ++ [OpSaveConfig]) (Some t)).
Definition saveCache (name : string) : M unit :=
  λ w, (Ok (), mkWorld (store w) (calls w) (out w) (fsops w ++ [OpSaveCache name])
                 (lastFullPull w)).

(** A [for ... range] loop with a loop-carried value, left at the first
    error. *)
Fixpoint foldM {A B} (f : A → B → M A) (acc : A) (l : list B) : M A :=
  match l with
  | [] => mret acc
  | x :: rest => acc' ← f acc x; foldM f acc' rest
  end.

Definition loadLocalIssuesM : M (list IssueFile.t) :=
  λ w, (loadLocalIssues (store w), w).

Section Pull.
Variable slugify : string → string.
Variable a : App.
Variable opts : PullOptions.

Definition targetDirOf (remote : issue.Issue) : Dir :=
  if decide (issue.State remote = "closed") then ClosedDir else OpenDir.

(** The loop body of [Pull] from [targetDir := p.OpenDir] on: what happens
    to a fetched record that is not skipped as a conflict. *)
Definition applyRemote (local : option IssueFile.t) (original : option issue.Issue)
    (remote : issue.Issue) (acc : list string * nat) : M (list string * nat) :=
  let targetDir := targetDirOf remote in
  let newPath := PathFor slugify targetDir (issue.Number remote) (issue.Title remote) in
  let contentChanged :=
    match local with
    | None => true
    | Some l => negb (EqualIgnoringSyncedAt (IssueFile.Issue l) remote)
    end in
  let pathChanged :=
    match local with
    | Some l => bool_decide (IssueFile.Path l ≠ newPath)
    | None => false
    end in
  if bool_decide (is_Some original) && negb contentChanged && negb pathChanged then
    mret (acc.1, S acc.2)
  else
    match local with
    | Some l =>
        if bool_decide (IssueFile.Path l ≠ newPath)
        then fileOp (λ st, Rename st (IssueFile.Path l) newPath)
                    (OpRename (IssueFile.Path l) newPath)
        else mret ()
    | None => mret ()
    end;;
    fileOp (λ st, WriteFile st newPath remote) (OpWriteFile newPath);;
    fileOp (λ st, writeOriginalIssue st remote)
           (OpWriteFile (OriginalsDir, issue.Number remote +:+ ".md"));;
    match local with
    | None =>
        print (IssueHeader "A" (issue.Number remote) (issue.Title remote));;
        mret acc
    | Some l =>
        let lines := ChangeLine <$> formatChangeLines a (IssueFile.Issue l) remote in
        let lines :=
          if (length lines =? 0) && pathChanged
          then lines ++ [FileChange (IssueFile.Path l) newPath] else lines in
        print (IssueHeader "U" (issue.Number remote) (issue.Title remote));;
        printAll lines;;
        mret acc
    end.

(** [localChanged] of the loop body. *)
Definition localChangedOf (local : option IssueFile.t) (original : option issue.Issue) : bool :=
  match local with
  | Some l =>
      match original with
      | None => true
      | Some o => negb (EqualIgnoringSyncedAt (IssueFile.Issue l) o)
      end
  | None => false
  end.

(** The body of [for _, remote := range remoteIssues]; [acc] is
    [(conflicts, unchanged)]. *)
Definition reconcileRemote (localByNumber : gmap string IssueFile.t)
    (acc : list string * nat) (remote : issue.Issue) : M (list string * nat) :=
  let remote := setState remote (ToLower (issue.State remote)) in
  t ← now a;
  let remote := setSyncedAt remote (Some t) in
  let local := localByNumber !! issue.Number remote in
  st ← getStore;
  let original := readOriginalIssue st (issue.Number remote) in
  let localChanged := localChangedOf local original in
  if bool_decide (is_Some local) && localChanged && negb (Force opts) then
    mret (acc.1 ++ [issue.Number remote], acc.2)
  else
    applyRemote local original remote acc.

(** [localByNumber]: a later file with the same number replaces an
    earlier one. *)
Definition indexByNumber (localIssues : list IssueFile.t) : gmap string IssueFile.t :=
  foldl (λ m item, <[issue.Number (IssueFile.Issue item) := item]> m) ∅ localIssues.

(** [fetchLabelColors] *)
Definition fetchLabelColors : gmap string string :=
  match ListLabels (client a) with
  | Err _ => ∅
  | Ok labels => foldl (λ colors l, <[ToLower l.1 := l.2]> colors) ∅ labels
  end.

(** The branch [len(args) > 0] of the fetch. *)
Definition fetchByArgs (args : list string) : M (list issue.Issue * gmap string string) :=
  let labelColors := fetchLabelColors in
  remoteIssues ← foldM (λ (remoteIssues : list issue.Issue) arg,
                          let number := TrimSpace arg in
                          if String.eqb number "" then mret remoteIssues
                          else match GetIssue (client a) number with
                               | Err e => fail e
                               | Ok remote => mret (remoteIssues ++ [remote])
                               end) [] args;
  let enriched := EnrichWithRelationshipsBatch (client a) remoteIssues in
  match enriched.2 with
  | Some e => print (WarningLine "fetching relationships" e)
  | None => mret ()
  end;;
  mret (enriched.1, labelColors).

(** The other branch: the list query and the batch query (two goroutines
    joined before anything is used: the order they finish in does not
    show), and the merge of their answers. *)
Definition fetchListed (localIssues : list IssueFile.t)
  : M (list issue.Issue * gmap string string) :=
  let state := if All opts then "all" else "open" in
  let toFetch :=
    if All opts then []
    else issue.Number ∘ IssueFile.Issue <$>
           filter (λ l, IsLocal (issue.Number (IssueFile.Issue l)) = false) localIssues in
  let listRes := ListIssuesWithRelationships (client a) state (Label opts) in
  let batchRes := if 0 <? length toFetch then GetIssuesBatch (client a) toFetch else Ok [] in
  match listRes with
  | Err e => fail e
  | Ok (remoteIssues, labelColors) =>
      match batchRes with
      | Ok batch =>
          if 0 <? length batch then
            let fetched : gset string := list_to_set (issue.Number <$> remoteIssues) in
            mret (remoteIssues ++ (snd <$> filter (λ entry, entry.1 ∉ fetched) batch),
                  labelColors)
          else mret (remoteIssues, labelColors)
      | Err _ => mret (remoteIssues, labelColors)
      end
  end.

(** The block [if len(args) == 0] after the loop. *)
Definition refreshCaches (labelColors : gmap string string) : M unit :=
  t ← now a;
  saveConfig t;;
  (if 0 <? size labelColors then saveCache "labels" else mret ());;
  match ListMilestones (client a) with
  | Err e => print (WarningLine "fetching milestones" e)
  | Ok _ => saveCache "milestones"
  end;;
  match ListIssueTypes (client a) with
  | Err e => print (WarningLine "fetching issue types" e)
  | Ok issueTypes => if 0 <? length issueTypes then saveCache "issuetypes" else mret ()
  end;;
  match ListProjects (client a) with
  | Err _ => mret ()
  | Ok projects => if 0 <? length projects then saveCache "projects" else mret ()
  end.

Definition report (conflicts : list string) (unchanged : nat) : M unit :=
  (if 0 <? length conflicts then print (ConflictsLine (sortStrings conflicts)) else mret ());;
  (if 0 <? unchanged then print (NothingToPull unchanged) else mret ()).

(** The body of the last loop of [restoreDeletedIssues]. *)
Definition restoreOne (number : string) : M unit :=
  match GetIssue (client a) number with
  | Err e => print (WarningLine ("restoring #" +:+ number) e)
  | Ok remote =>
      let enriched := EnrichWithRelationships (client a) remote in
      match enriched.2 with
      | Some e => print (WarningLine ("fetching relationships for #" +:+ number) e)
      | None => mret ()
      end;;
      let remote := enriched.1 in
      let remote := setState remote (ToLower (issue.State remote)) in
      t ← now a;
      let remote := setSyncedAt remote (Some t) in
      let newPath :=
        PathFor slugify (targetDirOf remote) (issue.Number remote) (issue.Title remote) in
      fileOp (λ st, WriteFile st newPath remote) (OpWriteFile newPath);;
      fileOp (λ st, writeOriginalIssue st remote)
             (OpWriteFile (OriginalsDir, issue.Number remote +:+ ".md"));;
      print (IssueHeader "R" (issue.Number remote) (issue.Title remote))
  end.

(** The originals that have no local file: [orphaned]. *)
Definition orphanedOf (entries : list DirEntry) (localIssues : list IssueFile.t)
  : list string :=
  let localNumbers : gset string :=
    list_to_set (issue.Number ∘ IssueFile.Issue <$> localIssues) in
  filter (λ number, HasPrefix number "T" = false ∧ number ∉ localNumbers)
    ((λ entry, TrimSuffix (Name entry) ".md") <$>
       filter (λ entry, IsDir entry = false ∧ HasSuffix (Name entry) ".md" = true) entries).

Definition restoreDeletedIssues : M unit :=
  st ← getStore;
  match ReadDir st OriginalsDir with
  | Err ErrNotExist => mret ()
  | Err e => fail e
  | Ok entries =>
      localIssues ← loadLocalIssuesM;
      let orphaned := orphanedOf entries localIssues in
      if length orphaned =? 0 then mret ()
      else foldM (λ _ number, restoreOne number) () orphaned
  end.

(** The second load of the local records, [localByNumber], and the loop
    over the fetched records with its [conflicts] and [unchanged]. *)
Definition reconcileLoop (remoteIssues : list issue.Issue) : M (list string * nat) :=
  localIssues ← loadLocalIssuesM;
  let localByNumber := indexByNumber localIssues in
  foldM (reconcileRemote localByNumber) ([], 0) remoteIssues.

(** [Pull] *)
Definition Pull (args : list string) : M unit :=
  match configError a with Some e => fail e | None => mret () end;;
  match lockError a with Some e => fail e | None => mret () end;;
  localIssues ← loadLocalIssuesM;
  fetched ← (if 0 <? length args then fetchByArgs args else fetchListed localIssues);
  let remoteIssues := fetched.1 in
  let labelColors := fetched.2 in
  acc ← reconcileLoop remoteIssues;
  (if length args =? 0 then refreshCaches labelColors else mret ());;
  report acc.1 acc.2;;
  (if length args =? 0 then restoreDeletedIssues else mret ()).
End Pull.

(** *** A record, a store and a remote for the examples *)

Definition bug7 (body state : string) (reason : option string) : issue.Issue :=
  issue.mkIssue "7" "Bug" body ["bug"] [] [] "" "" state reason None [] [] None.

(** A remote service that knows one record, [remote], under number 7. *)
Definition remoteWith (remote : issue.Issue) : Client :=
  mkClient
    (λ number, if String.eqb number "7" then Ok remote else Err (ErrOther "not found"))
    (λ issues, (issues, None))
    (λ item, (item, None))
    (λ _ _, Ok ([remote], ∅))
    (λ _, Ok [])
    (Ok []) (Ok []) (Ok []) (Ok []).

Definition appWith (remote : issue.Issue) : App :=
  mkApp (λ n, Z.of_nat n) (remoteWith remote) None None (λ _ _, []).

(** A store with the local file [open/7-bug.md] and its snapshot. *)
Definition storeWith (local original : issue.Issue) : Store issue.Issue :=
  mkStore (DirOk {[ "7-bug.md" := RegularFile (Ok local) ]})
          (DirOk ∅)
          (DirOk {[ "7.md" := RegularFile (Ok original) ]}).

Definition worldOf (st : Store issue.Issue) : World := mkWorld st 0 [] [] None.

Definition slugBug (title : string) : string := "bug".

Definition withForce (opts : PullOptions) (force : bool) : PullOptions :=
  mkPullOptions (All opts) force (Label opts).

(** The world after a step that only read the clock. *)
Definition tick (w : World) : World :=
  mkWorld (store w) (S (calls w)) (out w) (fsops w) (lastFullPull w).

(** The record as the loop body sees it: state in lower case, synced at
    the [k]-th reading of the clock. *)
Definition stamped (a : App) (remote : issue.Issue) (k : nat) : issue.Issue :=
  setSyncedAt (setState remote (ToLower (issue.State remote))) (Some (Now a k)).

(** *** What the design document asks of the record store

    "A parse failure on one file must not abort loading the rest; each
    failure is collected with its path and underlying cause": the record
    files of a directory, those of them that parse, and the failures of
    the others. *)

Definition recordEntries (st : Store issue.Issue) (dir : Dir) : list DirEntry :=
  match ReadDir st dir with
  | Ok entries =>
      filter (λ e, IsDir e = false ∧ HasSuffix (Name e) ".md" = true) entries
  | Err _ => []
  end.

Definition parsedOf (st : Store issue.Issue) (dir : Dir) (state : string)
    (entries : list DirEntry) : list IssueFile.t :=
  omap (λ e, match readPath st (dir, Name e) with
             | Ok parsed => Some (IssueFile.mk (setState parsed state) (dir, Name e) state)
             | Err _ => None
             end) entries.

Definition failedOf (st : Store issue.Issue) (dir : Dir) (entries : list DirEntry)
  : list ParseError.t :=
  omap (λ e, match readPath st (dir, Name e) with
             | Ok _ => None
             | Err err => Some (ParseError.mk (dir, Name e) err)
             end) entries.

Definition parsedIn (st : Store issue.Issue) (dir : Dir) (state : string) : list IssueFile.t :=
  parsedOf st dir state (recordEntries st dir).
Definition failedIn (st : Store issue.Issue) (dir : Dir) : list ParseError.t :=
  failedOf st dir (recordEntries st dir).

(** *** Stores that name their record files after the record

    The layout of the design document, as a property of a store: a record
    file is a file of [open/] or [closed/] whose name ends in [.md] and
    that parses. *)

Definition nodeAt {C} (st : Store C) (path : FilePath) : option (Node C) :=
  match dirState st path.1 with
  | DirOk nodes => nodes !! path.2
  | _ => None
  end.

Definition recordDir (d : Dir) : Prop := d = OpenDir ∨ d = ClosedDir.

(** The lifecycle state [loadLocalIssuesWithErrors] gives the records of
    a directory. *)
Definition stateName (d : Dir) : string :=
  match d with ClosedDir => "closed" | _ => "open" end.

Definition recordAt (st : Store issue.Issue) (path : FilePath) (i : issue.Issue) : Prop :=
  recordDir path.1 ∧ HasSuffix path.2 ".md" = true ∧
  nodeAt st path = Some (RegularFile (Ok i)).

(** The record as [loadLocalIssuesWithErrors] returns it. *)
Definition loadedFrom (path : FilePath) (i : issue.Issue) : IssueFile.t :=
  IssueFile.mk (setState i (stateName path.1)) path (stateName path.1).

Record namedByNumber (st : Store issue.Issue) : Prop := {
  (** the two directories can be listed (or are missing) *)
  dirs_listable : ∀ d msg, recordDir d → dirState st d ≠ DirUnreadable msg;
  (** every file named [*.md] in them parses *)
  files_parse : ∀ path content,
    recordDir path.1 → HasSuffix path.2 ".md" = true →
    nodeAt st path = Some (RegularFile content) → isOk content = true;
  (** the name of a record file starts with the number of its record:
      [<number>.md] or [<number>-<slug>.md] *)
  name_has_number : ∀ path i, recordAt st path i → alnumRun path.2 = issue.Number i;
  (** and no two files hold records of the same number *)
  one_per_number : ∀ path i path' i',
    recordAt st path i → recordAt st path' i' →
    issue.Number i = issue.Number i' → path = path'
}.

(** What a run fetched: records of distinct numbers, the numbers made
    of letters and digits, the states [open] or [closed] in whatever
    case. *)
Definition fetchedOK (remoteIssues : list issue.Issue) : Prop :=
  NoDup (issue.Number <$> remoteIssues) ∧
  ∀ r, r ∈ remoteIssues →
    allChars isAlnum (issue.Number r) = true ∧
    (ToLower (issue.State r) = "open" ∨ ToLower (issue.State r) = "closed").

(** [localByNumber] tells the truth about the records of number [n] in
    the store. *)
Definition accurate (localByNumber : gmap string IssueFile.t) (st : Store issue.Issue)
    (n : string) : Prop :=
  (∀ f, localByNumber !! n = Some f →
        ∃ path i, recordAt st path i ∧ issue.Number i = n ∧ f = loadedFrom path i) ∧
  (localByNumber !! n = None → ∀ path i, recordAt st path i → issue.Number i ≠ n).

(** Two stores hold the same records and the same snapshot of number [n]. *)
Definition sameView (n : string) (st st' : Store issue.Issue) : Prop :=
  (∀ path i, issue.Number i = n → recordAt st path i ↔ recordAt st' path i) ∧
  readOriginalIssue st n = readOriginalIssue st' n.

(** The local copy and the snapshot are such that the loop body leaves
    the fetched record [remote] alone: it is skipped as a conflict, or
    counted as unchanged. *)
Definition quiet (slugify : string → string) (opts : PullOptions)
    (local : option IssueFile.t) (original : option issue.Issue)
    (remote : issue.Issue) : Prop :=
  let remote0 := setState remote (ToLower (issue.State remote)) in
  (bool_decide (is_Some local) && localChangedOf local original && negb (Force opts) = true) ∨
  (is_Some original ∧
   ∃ l, local = Some l ∧ EqualIgnoringSyncedAt (IssueFile.Issue l) remote0 = true ∧
        IssueFile.Path l =
          PathFor slugify (targetDirOf remote0) (issue.Number remote0) (issue.Title remote0)).

Definition quietAt (slugify : string → string) (opts : PullOptions)
    (st : Store issue.Issue) (remote : issue.Issue) : Prop :=
  ∀ localByNumber, accurate localByNumber st (issue.Number remote) →
    quiet slugify opts (localByNumber !! issue.Number remote)
      (readOriginalIssue st (issue.Number remote)) remote.

(** The world with its logs emptied: where a second run starts. *)
Definition freshLogs (w : World) : World :=
  mkWorld (store w) (calls w) [] [] (lastFullPull w).

(** The world after a step that only printed [es]. *)
Definition logged (es : list Event) (w : World) : World :=
  mkWorld (store w) (calls w) (out w ++ es) (fsops w) (lastFullPull w).

(** What [os.ReadDir] and [os.ReadFile] see of a directory before they
    look at a name: whether it is there and can be read. *)
Definition dirKind {C} (ds : DirState C) : DirState unit :=
  match ds with
  | DirMissing => DirMissing
  | DirUnreadable msg => DirUnreadable msg
  | DirOk _ => DirOk ∅
  end.

(** *** What the design document asks of the line diff *)

(** Length of a longest common subsequence of two line sequences, by the
    textbook recursion on their heads. *)
Fixpoint lcsLen (a : list string) : list string → nat :=
  fix inner (b : list string) : nat :=
    match a, b with
    | x :: a', y :: b' =>
        if decide (x = y) then S (lcsLen a' b')
        else Nat.max (lcsLen a' b) (inner b')
    | _, _ => 0
    end.

(** [k] is the length of a longest common subsequence of [a] and [b]. *)
Definition isLCS (a b : list string) (k : nat) : Prop :=
  (∃ c, c `sublist_of` a ∧ c `sublist_of` b ∧ length c = k) ∧
  (∀ c, c `sublist_of` a → c `sublist_of` b → length c ≤ k).

(** Number of operations of one kind in a script. *)
Definition countOps (t : diffOpType) (ops : list diffOp) : nat :=
  length (filter (fun op => Type' op = t) ops).

(** A script edits [a] into [b] when it replays to both. *)
Definition editScript (ops : list diffOp) (a b : list string) : Prop :=
  oldSide ops = a ∧ newSide ops = b.

Section tieBreak.
Variables oldLines newLines : list string.

(** LCS length of the first [i] old lines against the first [j] new lines. *)
Definition prefixLCS (i j : nat) : nat := lcsLen (take i oldLines) (take j newLines).

(** The script the design document singles out, for the first [i] old and
    the first [j] new lines: working back from the end, equal last lines
    are kept; otherwise the step that loses nothing of the common
    subsequence is taken, and when consuming the new line (an insert) and
    consuming the old line (a delete) do equally well, the insert is. *)
Fixpoint tieBreakFrom (i : nat) : nat → list diffOp :=
  fix inner (j : nat) : list diffOp :=
    match i, j with
    | 0, 0 => []
    | 0, S j' => inner j' ++ [mkDiffOp diffInsert (lineAt newLines j')]
    | S i', 0 => tieBreakFrom i' 0 ++ [mkDiffOp diffDelete (lineAt oldLines i')]
    | S i', S j' =>
        if decide (lineAt oldLines i' = lineAt newLines j') then
          tieBreakFrom i' j' ++ [mkDiffOp diffEqual (lineAt oldLines i')]
        else if decide (prefixLCS i' (S j') ≤ prefixLCS (S i') j') then
          inner j' ++ [mkDiffOp diffInsert (lineAt newLines j')]
        else
          tieBreakFrom i' (S j') ++ [mkDiffOp diffDelete (lineAt oldLines i')]
    end.

(** Invariant of the two loops that fill the table: the table keeps its
    [(m+1) x (n+1)] shape, and every cell of a row above [i], of row [i] up
    to column [j], and of column [0] holds the LCS length of its prefixes. *)
Definition tableFilled (lcs : list (list nat)) (i j : nat) : Prop :=
  length lcs = S (length oldLines) ∧
  (∀ r row, lcs !! r = Some row → length row = S (length newLines)) ∧
  ∀ i' j', i' ≤ length oldLines → j' ≤ length newLines →
    i' < i ∨ (i' = i ∧ j' ≤ j) ∨ j' = 0 →
    cell lcs i' j' = prefixLCS i' j'.

Definition tieBreakScript : list diffOp :=
  tieBreakFrom (length oldLines) (length newLines).
End tieBreak.

(** *** More of diff.go: [printUnifiedDiff] *)

(** [strings.Contains(s, string(c))] for one byte [c]. *)
Fixpoint ContainsByte (s : string) (c : ascii) : bool :=
  match s with
  | EmptyString => false
  | String x rest => bool_decide (x = c) || ContainsByte rest c
  end.

(** What [printUnifiedDiff] uses of the theme (package [theme], outside
    the sources at hand): how it mutes a text, how it colours one, and
    four of its colours. *)
Record Theme := mkTheme {
  Color : Type;
  MutedText : string → string;
  Fg : Color → string → string;
  Removed : Color;
  OldValue : Color;
  Added : Color;
  NewValue : Color
}.

(** The body of the loop over the operations: what one [Fprintf] writes. *)
Definition diffLine (t : Theme) (op : diffOp) : string :=
  match Type' op with
  | diffEqual => " " +:+ Text op +:+ NL
  | diffDelete => Fg t (Removed t) "-" +:+ Fg t (OldValue t) (Text op) +:+ NL
  | diffInsert => Fg t (Added t) "+" +:+ Fg t (NewValue t) (Text op) +:+ NL
  end.

(** [printUnifiedDiff]: what it writes to [a.Out], one string for each
    [Fprintf]. *)
Definition printUnifiedDiff (t : Theme) (oldText newText oldLabel newLabel : string)
  : list string :=
  let oldLines := splitLines oldText in
  let newLines := splitLines newText in
  let ops := computeDiff oldLines newLines in
  [MutedText t ("--- " +:+ oldLabel) +:+ NL; MutedText t ("+++ " +:+ newLabel) +:+ NL] ++
  (diffLine t <$> ops).

(** A theme that leaves every text as it is. *)
Definition plainTheme : Theme := mkTheme unit (λ s, s) (λ _ s, s) () () () ().

(** Reading a printed line back: the text of a line of the old side (a
    line that is not an insert), and of the new side (not a delete). *)
Definition lineOfSide (other : ascii) (printed : string) : option string :=
  match printed with
  | String c rest => if decide (c = other) then None else Some (TrimSuffix rest NL)
  | EmptyString => None
  end.

(** *** More of helpers.go *)

(** [stringSlicesEqual]: the lengths are compared first, then the
    elements index by index. *)
Definition stringSlicesEqual (a b : list string) : bool :=
  if negb (length a =? length b) then false
  else forallb (λ i, String.eqb (nth i a "") (nth i b "")) (seq 0 (length a)).

(** [relPath] and [filterIssuesByArgs] work on paths as strings, through
    [path/filepath]: [Clean], [IsAbs], [Join] (of two elements here),
    [Rel] and [ToSlash] are taken as they come, with the separator of
    the platform, and [pathName] spells the path of a record file as the
    string the source holds in [IssueFile.Path]. *)
Section filterIssuesByArgs.
Variable PathSeparator : ascii.
Variable Clean : string → string.
Variable IsAbs : string → bool.
Variable JoinPath : string → string → string.
Variable Rel : string → string → result string.
Variable ToSlash : string → string.
Variable pathName : FilePath → string.

Definition relPath (root path : string) : string :=
  if String.eqb root "" then ToSlash path
  else
    match Rel root path with
    | Err _ => ToSlash path
    | Ok rel => ToSlash rel
    end.

(** [strings.HasSuffix(arg, ".md") || strings.Contains(arg, string(os.PathSeparator))] *)
Definition isPathArg (arg : string) : bool :=
  HasSuffix arg ".md" || ContainsByte arg PathSeparator.

(** The first loop of [filterIssuesByArgs]: [(pathsWanted, idsWanted)]. *)
Definition wantedOf (root : string) (args : list string) : gset string * gset string :=
  foldl (λ '(pathsWanted, idsWanted) arg,
           let arg := TrimSpace arg in
           if String.eqb arg "" then (pathsWanted, idsWanted)
           else if isPathArg arg then
             let cleaned := Clean arg in
             let pathsWanted := {[cleaned]} ∪ pathsWanted in
             let pathsWanted :=
               if negb (IsAbs cleaned) then {[JoinPath root cleaned]} ∪ pathsWanted
               else pathsWanted in
             (pathsWanted, idsWanted)
           else (pathsWanted, {[arg]} ∪ idsWanted))
        (∅, ∅) args.

Definition filterIssuesByArgs (root : string) (issues : list IssueFile.t)
    (args : list string) : result (list IssueFile.t) :=
  if length args =? 0 then Ok issues
  else
    let '(pathsWanted, idsWanted) := wantedOf root args in
    let filtered :=
      foldl (λ filtered item,
               if decide (issue.Number (IssueFile.Issue item) ∈ idsWanted)
               then filtered ++ [item]
               else
                 let rel := Clean (relPath root (pathName (IssueFile.Path item))) in
                 let cleanPath := Clean (pathName (IssueFile.Path item)) in
                 if decide (cleanPath ∈ pathsWanted) then filtered ++ [item]
                 else if decide (rel ∈ pathsWanted) then filtered ++ [item]
                 else filtered)
            [] issues in
    if length filtered =? 0
    then Err (ErrOther ("no matching issues for arguments: " +:+ Join args ", "))
    else Ok filtered.

(** What the arguments ask for: a number (an argument that is not a
    path, trimmed), or a path (a path argument cleaned, also joined to
    the root when it is not absolute). *)
Definition asksNumber (args : list string) (number : string) : Prop :=
  ∃ arg, arg ∈ args ∧ TrimSpace arg ≠ "" ∧ isPathArg (TrimSpace arg) = false ∧
         number = TrimSpace arg.
Definition asksPath (root : string) (args : list string) (path : string) : Prop :=
  ∃ arg, arg ∈ args ∧ TrimSpace arg ≠ "" ∧ isPathArg (TrimSpace arg) = true ∧
         (path = Clean (TrimSpace arg) ∨
          (IsAbs (Clean (TrimSpace arg)) = false ∧
           path = JoinPath root (Clean (TrimSpace arg)))).
End filterIssuesByArgs.

(** *** More of storage.go *)


(** The caches of storage.go; a [time.Time] is a clock reading. *)
Module LabelEntry.
Record t := mk { Name : string; Color : string }.
End LabelEntry.

Global Instance LabelEntry_eq_dec : EqDecision LabelEntry.t.
Proof. solve_decision. Defined.

Module LabelCache.
Record t := mk { Labels : list LabelEntry.t; SyncedAt : Z }.
End LabelCache.

Module MilestoneEntry.
Record t := mk {
  Title : string;
  Description : string;
  DueOn : option string;
  State : string
}.
End MilestoneEntry.

Module MilestoneCache.
Record t := mk { Milestones : list MilestoneEntry.t; SyncedAt : Z }.
End MilestoneCache.

Module IssueTypeEntry.
Record t := mk { ID : string; Name : string; Description : string }.
End IssueTypeEntry.

Module IssueTypeCache.
Record t := mk { IssueTypes : list IssueTypeEntry.t; SyncedAt : Z }.
End IssueTypeCache.

Module ProjectEntry.
Record t := mk { ID : string; Title : string }.
End ProjectEntry.

Module ProjectCache.
Record t := mk { Projects : list ProjectEntry.t; SyncedAt : Z }.
End ProjectCache.

(** The look-up tables of the caches are keyed by [strings.ToLower] of a
    name, which lowers every Unicode letter: it is taken as it comes
    ([toLower]). *)
Section caches.
Variable toLower : string → string.

Definition labelCacheToColorMap (cache : LabelCache.t) : gmap string string :=
  foldl (λ m l, <[toLower (LabelEntry.Name l) := LabelEntry.Color l]> m) ∅
        (LabelCache.Labels cache).

(** [labelsFromColorMap].  [rangeMap] is the order in which [range]
    visits the entries of the map, and [sortSlice] is [sort.Slice], which
    is not a stable sort. *)
Definition labelsFromColorMapVia
    (rangeMap : gmap string string → list (string * string))
    (sortSlice : (LabelEntry.t → LabelEntry.t → bool) → list LabelEntry.t → list LabelEntry.t)
    (colors : gmap string string) (syncedAt : Z) : LabelCache.t :=
  let labels := (λ entry, LabelEntry.mk entry.1 entry.2) <$> rangeMap colors in
  let labels :=
    sortSlice (λ x y, String.ltb (toLower (LabelEntry.Name x)) (toLower (LabelEntry.Name y)))
              labels in
  LabelCache.mk labels syncedAt.

Definition milestoneNames (cache : MilestoneCache.t) : gset string :=
  foldl (λ m ms, {[toLower (MilestoneEntry.Title ms)]} ∪ m) ∅
        (MilestoneCache.Milestones cache).

Definition issueTypeByName (cache : IssueTypeCache.t) : gmap string IssueTypeEntry.t :=
  foldl (λ m it, <[toLower (IssueTypeEntry.Name it) := it]> m) ∅
        (IssueTypeCache.IssueTypes cache).

Definition projectByTitle (cache : ProjectCache.t) : gmap string ProjectEntry.t :=
  foldl (λ m p, <[toLower (ProjectEntry.Title p) := p]> m) ∅
        (ProjectCache.Projects cache).
End caches.

(** The last element of a list that has the key [k]. *)
Definition lastWithKey {A} (key : A → string) (k : string) (l : list A) (x : A) : Prop :=
  ∃ before after, l = before ++ x :: after ∧ key x = k ∧ Forall (λ y, key y ≠ k) after.

(** *** Counting what a pull printed and did *)

Definition isIssueHeader (e : Event) : bool :=
  match e with IssueHeader _ _ _ => true | _ => false end.
Definition isWriteOp (op : FsOp) : bool :=
  match op with OpWriteFile _ => true | _ => false end.
Definition isRenameOp (op : FsOp) : bool :=
  match op with OpRename _ _ => true | _ => false end.

(** The headers printed, the record and snapshot files written, the
    files renamed. *)
Definition countHeaders (es : list Event) : nat := length (filter (λ e, isIssueHeader e = true) es).
Definition countWrites (ops : list FsOp) : nat := length (filter (λ op, isWriteOp op = true) ops).
Definition countRenames (ops : list FsOp) : nat := length (filter (λ op, isRenameOp op = true) ops).

(** The rename of the loop body of [Pull], when the local file is not
    at the path of the fetched record: the store after it and the
    operation done. *)
Definition renameLocal (st : Store issue.Issue) (local : option IssueFile.t)
    (newPath : FilePath) : result (Store issue.Issue * list FsOp) :=
  match local with
  | Some l =>
      if bool_decide (IssueFile.Path l ≠ newPath) then
        match Rename st (IssueFile.Path l) newPath with
        | Ok st1 => Ok (st1, [OpRename (IssueFile.Path l) newPath])
        | Err e => Err e
        end
      else Ok (st, [])
  | None => Ok (st, [])
  end.

(** And what the loop body prints for a record it wrote. *)
Definition printedFor (a : App) (local : option IssueFile.t) (remote : issue.Issue)
    (newPath : FilePath) : list Event :=
  match local with
  | None => [IssueHeader "A" (issue.Number remote) (issue.Title remote)]
  | Some l =>
      let lines := ChangeLine <$> formatChangeLines a (IssueFile.Issue l) remote in
      let lines :=
        if (length lines =? 0) && bool_decide (IssueFile.Path l ≠ newPath)
        then lines ++ [FileChange (IssueFile.Path l) newPath] else lines in
      IssueHeader "U" (issue.Number remote) (issue.Title remote) :: lines
  end.

(** ** Part II: properties *)

Example computeDiff_ex1 :
  computeDiff ["a"; "b"; "c"] ["a"; "x"; "c"] =
  [mkDiffOp diffEqual "a"; mkDiffOp diffDelete "b"; mkDiffOp diffInsert "x"; mkDiffOp diffEqual "c"].
Proof. reflexivity. Qed.

Example splitLines_ex1 : splitLines (String "a" (String newline (String "b" NL))) = ["a"; "b"].
Proof. reflexivity. Qed.

(** *** The line diff replays to both texts *)

Lemma take_snoc_lineAt (ls : list string) (i : nat) :
  0 < i → i ≤ length ls → take i ls = take (i - 1) ls ++ [lineAt ls (i - 1)].
Proof.
  intros Hi Hlen. destruct i as [|k]; [lia|].
  replace (S k - 1) with k by lia.
  destruct (lookup_lt_is_Some_2 ls k) as [x Hx]; [lia|].
  unfold lineAt. rewrite (nth_lookup_Some _ _ _ _ Hx).
  by apply take_S_r.
Qed.

Lemma oldSide_snoc ops op :
  oldSide (reverse (ops ++ [op])) =
  (if decide (Type' op ≠ diffInsert) then [Text op] else []) ++ oldSide (reverse ops).
Proof.
  rewrite reverse_snoc. unfold oldSide. rewrite filter_cons.
  destruct (decide (Type' op ≠ diffInsert)); reflexivity.
Qed.

Lemma newSide_snoc ops op :
  newSide (reverse (ops ++ [op])) =
  (if decide (Type' op ≠ diffDelete) then [Text op] else []) ++ newSide (reverse ops).
Proof.
  rewrite reverse_snoc. unfold newSide. rewrite filter_cons.
  destruct (decide (Type' op ≠ diffDelete)); reflexivity.
Qed.

Section backtrack_facts.
Variables oldLines newLines : list string.
Variable lcs : list (list nat).

Lemma backtrack_fuel fuel fuel' i j ops :
  i + j ≤ fuel → i + j ≤ fuel' →
  backtrack oldLines newLines lcs fuel i j ops =
  backtrack oldLines newLines lcs fuel' i j ops.
Proof.
  revert fuel' i j ops.
  induction fuel as [|fuel IH]; intros [|fuel'] i j ops Hf Hf'; cbn [backtrack];
    try reflexivity.
  - assert (i = 0 ∧ j = 0) as [-> ->] by lia. reflexivity.
  - assert (i = 0 ∧ j = 0) as [-> ->] by lia. reflexivity.
  - destruct (negb ((0 <? i) || (0 <? j))) eqn:Hstop; [reflexivity|].
    apply negb_false_iff, orb_true_iff in Hstop.
    destruct ((0 <? i) && (0 <? j) && _) eqn:Heq.
    + apply andb_true_iff in Heq as [Heq _].
      apply andb_true_iff in Heq as [Hi%Nat.ltb_lt Hj%Nat.ltb_lt].
      apply IH; lia.
    + destruct ((0 <? j) && _) eqn:Hins.
      * apply andb_true_iff in Hins as [Hj%Nat.ltb_lt _]. apply IH; lia.
      * assert (0 < i) as Hi.
        { destruct (Nat.eq_dec i 0) as [->|]; [|lia].
          destruct Hstop as [H|H]; [discriminate|].
          rewrite H in Hins. discriminate. }
        apply IH; lia.
Qed.

Lemma backtrack_sides fuel i j ops :
  i ≤ length oldLines → j ≤ length newLines → i + j ≤ fuel →
  oldSide (reverse (backtrack oldLines newLines lcs fuel i j ops)) =
    take i oldLines ++ oldSide (reverse ops) ∧
  newSide (reverse (backtrack oldLines newLines lcs fuel i j ops)) =
    take j newLines ++ newSide (reverse ops).
Proof.
  revert i j ops. induction fuel as [|fuel IH]; intros i j ops Hi Hj Hf.
  - assert (i = 0 ∧ j = 0) as [-> ->] by lia. by rewrite !take_0.
  - cbn [backtrack].
    destruct (negb ((0 <? i) || (0 <? j))) eqn:Hstop.
    { apply negb_true_iff, orb_false_iff in Hstop as [Hi0%Nat.ltb_ge Hj0%Nat.ltb_ge].
      assert (i = 0 ∧ j = 0) as [-> ->] by lia. by rewrite !take_0. }
    apply negb_false_iff, orb_true_iff in Hstop.
    destruct ((0 <? i) && (0 <? j) && _) eqn:Heq.
    + apply andb_true_iff in Heq as [Hpos Hline%String.eqb_eq].
      apply andb_true_iff in Hpos as [Hi'%Nat.ltb_lt Hj'%Nat.ltb_lt].
      destruct (IH (i - 1) (j - 1)
                  (ops ++ [mkDiffOp diffEqual (lineAt oldLines (i - 1))])) as [Ho Hn];
        [lia..|].
      rewrite Ho, Hn, oldSide_snoc, newSide_snoc. cbn.
      rewrite (take_snoc_lineAt oldLines i), (take_snoc_lineAt newLines j) by lia.
      rewrite <- !app_assoc, Hline. done.
    + destruct ((0 <? j) && _) eqn:Hins.
      * apply andb_true_iff in Hins as [Hj'%Nat.ltb_lt _].
        destruct (IH i (j - 1)
                    (ops ++ [mkDiffOp diffInsert (lineAt newLines (j - 1))])) as [Ho Hn];
          [lia..|].
        rewrite Ho, Hn, oldSide_snoc, newSide_snoc. cbn.
        rewrite (take_snoc_lineAt newLines j) by lia.
        rewrite <- !app_assoc. done.
      * assert (0 < i) as Hi'.
        { destruct (Nat.eq_dec i 0) as [->|]; [|lia].
          destruct Hstop as [H|H]; [discriminate|].
          rewrite H in Hins. discriminate. }
        destruct (IH (i - 1) j
                    (ops ++ [mkDiffOp diffDelete (lineAt oldLines (i - 1))])) as [Ho Hn];
          [lia..|].
        rewrite Ho, Hn, oldSide_snoc, newSide_snoc. cbn.
        rewrite (take_snoc_lineAt oldLines i) by lia.
        rewrite <- !app_assoc. done.
Qed.
End backtrack_facts.

Lemma computeDiff_sides (oldLines newLines : list string) :
  oldSide (computeDiff oldLines newLines) = oldLines ∧
  newSide (computeDiff oldLines newLines) = newLines.
Proof.
  unfold computeDiff.
  destruct (backtrack_sides oldLines newLines (lcsTable oldLines newLines)
              (length oldLines + length newLines) (length oldLines) (length newLines) [])
    as [Ho Hn]; [lia..|].
  rewrite Ho, Hn, !firstn_all. cbn. by rewrite !app_nil_r.
Qed.

(** *** Splitting into lines and joining again *)

Lemma Split1_not_nil s sep : Split1 s sep ≠ [].
Proof.
  destruct s as [|c rest]; cbn; [done|].
  destruct (decide (c = sep)); [done|].
  by destruct (Split1 rest sep).
Qed.

Lemma Join_Split1 s : Join (Split1 s newline) NL = s.
Proof.
  unfold Join. induction s as [|c rest IH]; cbn; [done|].
  destruct (decide (c = newline)) as [->|Hc].
  - pose proof (Split1_not_nil rest newline) as Hne.
    destruct (Split1 rest newline) as [|piece pieces]; [done|].
    by rewrite <- IH.
  - pose proof (Split1_not_nil rest newline) as Hne.
    destruct (Split1 rest newline) as [|piece pieces]; [done|].
    rewrite <- IH. by destruct pieces.
Qed.

Lemma substring_all (s : string) : String.substring 0 (String.length s) s = s.
Proof. induction s as [|c rest IH]; cbn; [done|]. by rewrite IH. Qed.

Lemma substring_split (s : string) (k : nat) :
  k ≤ String.length s →
  String.substring 0 k s +:+ String.substring k (String.length s - k) s = s.
Proof.
  revert k. induction s as [|c rest IH]; intros [|k] Hk; cbn in Hk; try lia.
  - done.
  - rewrite Nat.sub_0_r, substring_all. reflexivity.
  - cbn [String.length String.substring]. rewrite Nat.sub_succ.
    change (String c (String.substring 0 k rest +:+
                      String.substring k (String.length rest - k) rest) = String c rest).
    f_equal. apply IH. lia.
Qed.

(** [TrimSuffix] removes the suffix when it is there and nothing otherwise. *)
Lemma TrimSuffix_spec s suf :
  (HasSuffix s suf = true ∧ s = TrimSuffix s suf +:+ suf) ∨
  (HasSuffix s suf = false ∧ TrimSuffix s suf = s).
Proof.
  unfold TrimSuffix. destruct (HasSuffix s suf) eqn:Hsuf; [left|by right].
  split; [done|]. unfold HasSuffix in Hsuf.
  apply andb_true_iff in Hsuf as [Hlen%bool_decide_eq_true Heq%String.eqb_eq].
  pose proof (substring_split s (String.length s - String.length suf)) as Hsplit.
  replace (String.length s - (String.length s - String.length suf))
    with (String.length suf) in Hsplit by lia.
  rewrite Heq in Hsplit. symmetry. apply Hsplit. lia.
Qed.

(** C4: for all texts [X] and [Y], the script [computeDiff] returns on
    their line splits replays to both of them: the lines of its equal and
    delete operations, in order, are the lines of [X] and join to [X]
    without its one trailing newline, and the lines of its equal and insert
    operations are the lines of [Y] and join to [Y] likewise. *)
Theorem computeDiff_reconstructs (X Y : string) :
  let ops := computeDiff (splitLines X) (splitLines Y) in
  oldSide ops = splitLines X ∧ newSide ops = splitLines Y ∧
  Join (oldSide ops) NL = TrimSuffix X NL ∧
  Join (newSide ops) NL = TrimSuffix Y NL ∧
  (X = Join (oldSide ops) NL ∨ X = Join (oldSide ops) NL +:+ NL) ∧
  (Y = Join (newSide ops) NL ∨ Y = Join (newSide ops) NL +:+ NL).
Proof.
  intros ops.
  destruct (computeDiff_sides (splitLines X) (splitLines Y)) as [Ho Hn].
  assert (∀ T, Join (splitLines T) NL = TrimSuffix T NL) as Hjoin.
  { intros T. unfold splitLines. destruct (decide (T = "")) as [->|_]; [done|].
    apply Join_Split1. }
  subst ops. rewrite Ho, Hn, !Hjoin. repeat split; try done.
  - destruct (TrimSuffix_spec X NL) as [[_ H]|[_ H]]; [by right|by left].
  - destruct (TrimSuffix_spec Y NL) as [[_ H]|[_ H]]; [by right|by left].
Qed.

(** *** Longest common subsequences *)

Lemma lcsLen_nil_r a : lcsLen a [] = 0.
Proof. by destruct a. Qed.

Lemma lcsLen_nil_l b : lcsLen [] b = 0.
Proof. by destruct b. Qed.

Lemma lcsLen_cons x y a b :
  lcsLen (x :: a) (y :: b) =
  if decide (x = y) then S (lcsLen a b) else Nat.max (lcsLen a (y :: b)) (lcsLen (x :: a) b).
Proof. reflexivity. Qed.

Lemma lcsLen_common_exists a b :
  ∃ c, c `sublist_of` a ∧ c `sublist_of` b ∧ length c = lcsLen a b.
Proof.
  revert b. induction a as [|x a IHa]; intros b.
  { exists []. rewrite lcsLen_nil_l. split_and!; [done|apply sublist_nil_l|done]. }
  induction b as [|y b IHb].
  { exists []. split_and!; [apply sublist_nil_l|done|done]. }
  rewrite lcsLen_cons. destruct (decide (x = y)) as [->|Hxy].
  - destruct (IHa b) as (c & Ha & Hb & Hlen).
    exists (y :: c). split_and!; [by constructor..|cbn; lia].
  - destruct (Nat.max_spec (lcsLen a (y :: b)) (lcsLen (x :: a) b)) as [[_ ->]|[_ ->]].
    + destruct IHb as (c & Ha & Hb & Hlen).
      exists c. split_and!; [done|by constructor|done].
    + destruct (IHa (y :: b)) as (c & Ha & Hb & Hlen).
      exists c. split_and!; [by constructor|done|done].
Qed.

Lemma lcsLen_common_max a b c :
  c `sublist_of` a → c `sublist_of` b → length c ≤ lcsLen a b.
Proof.
  revert b c. induction a as [|x a IHa]; intros b c Ha Hb.
  { apply sublist_nil_r in Ha as ->. cbn. lia. }
  revert c Ha Hb. induction b as [|y b IHb]; intros c Ha Hb.
  { apply sublist_nil_r in Hb as ->. cbn. lia. }
  rewrite lcsLen_cons.
  apply sublist_cons_r in Ha as [Ha|(c' & -> & Ha)].
  - destruct (decide (x = y)) as [->|Hxy].
    + apply sublist_cons_r in Hb as [Hb|(c' & -> & Hb)].
      * specialize (IHa b c Ha Hb). lia.
      * assert (c' `sublist_of` a) as Ha' by (etrans; [|exact Ha]; by constructor).
        specialize (IHa b c' Ha' Hb). cbn. lia.
    + specialize (IHa (y :: b) c Ha Hb). lia.
  - destruct (decide (x = y)) as [->|Hxy].
    + assert (c' `sublist_of` b) as Hb'.
      { apply sublist_cons_r in Hb as [Hb|(c'' & [= ->] & Hb)]; [|done].
        etrans; [|exact Hb]. by constructor. }
      specialize (IHa b c' Ha Hb'). cbn. lia.
    + apply sublist_cons_r in Hb as [Hb|(c'' & [= -> _] & _)]; [|done].
      assert (x :: c' `sublist_of` x :: a) as Ha' by by constructor.
      specialize (IHb (x :: c') Ha' Hb). lia.
Qed.

Lemma lcsLen_isLCS a b : isLCS a b (lcsLen a b).
Proof. split; [apply lcsLen_common_exists|apply lcsLen_common_max]. Qed.

Lemma isLCS_unique a b k k' : isLCS a b k → isLCS a b k' → k = k'.
Proof.
  intros [(c & Ha & Hb & <-) Hmax] [(c' & Ha' & Hb' & <-) Hmax'].
  apply Nat.le_antisymm; auto.
Qed.

Lemma sublist_snoc_r (c l : list string) x :
  c `sublist_of` l ++ [x] ↔
  c `sublist_of` l ∨ ∃ c', c = c' ++ [x] ∧ c' `sublist_of` l.
Proof.
  rewrite sublist_app_r. split.
  - intros (c1 & c2 & -> & H1 & H2).
    apply sublist_cons_r in H2 as [H2|(c'' & -> & H2)].
    + apply sublist_nil_r in H2 as ->. left. by rewrite app_nil_r.
    + apply sublist_nil_r in H2 as ->. right. eauto.
  - intros [H|(c' & -> & H)].
    + exists c, []. rewrite app_nil_r. split_and!; [done|done|apply sublist_nil_l].
    + exists c', [x]. done.
Qed.

Lemma lcsLen_snoc_same a b x : lcsLen (a ++ [x]) (b ++ [x]) = S (lcsLen a b).
Proof.
  apply (isLCS_unique (a ++ [x]) (b ++ [x])); [apply lcsLen_isLCS|].
  destruct (lcsLen_isLCS a b) as [(c & Ha & Hb & Hlen) Hmax]. split.
  - exists (c ++ [x]). split_and!; [by apply sublist_app..|].
    rewrite length_app. cbn. lia.
  - intros d Hda Hdb.
    apply sublist_snoc_r in Hda as [Hda|(d1 & -> & Hda)].
    + apply sublist_snoc_r in Hdb as [Hdb|(d2 & -> & Hdb)].
      * specialize (Hmax d Hda Hdb). lia.
      * assert (d2 `sublist_of` a) as Hd2 by (etrans; [|exact Hda]; by apply sublist_inserts_r).
        specialize (Hmax d2 Hd2 Hdb). rewrite length_app. cbn. lia.
    + assert (d1 `sublist_of` b) as Hd1.
      { apply sublist_snoc_r in Hdb as [Hdb|(d2 & Heq & Hdb)].
        - etrans; [|exact Hdb]. by apply sublist_inserts_r.
        - by apply app_inj_tail in Heq as [-> _]. }
      specialize (Hmax d1 Hda Hd1). rewrite length_app. cbn. lia.
Qed.

Lemma lcsLen_snoc_diff a b x y :
  x ≠ y →
  lcsLen (a ++ [x]) (b ++ [y]) = Nat.max (lcsLen a (b ++ [y])) (lcsLen (a ++ [x]) b).
Proof.
  intros Hxy. apply Nat.le_antisymm.
  - destruct (lcsLen_common_exists (a ++ [x]) (b ++ [y])) as (c & Ha & Hb & <-).
    apply sublist_snoc_r in Ha as [Ha|(c1 & -> & Ha)].
    + pose proof (lcsLen_common_max a (b ++ [y]) c Ha Hb). lia.
    + apply sublist_snoc_r in Hb as [Hb|(c2 & Heq & Hb)].
      * assert (c1 ++ [x] `sublist_of` a ++ [x]) as Ha' by by apply sublist_app.
        pose proof (lcsLen_common_max (a ++ [x]) b _ Ha' Hb). lia.
      * apply app_inj_tail in Heq as [_ ?]. done.
  - apply Nat.max_lub.
    + destruct (lcsLen_common_exists a (b ++ [y])) as (c & Ha & Hb & <-).
      apply lcsLen_common_max; [by apply sublist_inserts_r|done].
    + destruct (lcsLen_common_exists (a ++ [x]) b) as (c & Ha & Hb & <-).
      apply lcsLen_common_max; [done|by apply sublist_inserts_r].
Qed.

(** *** The table holds LCS lengths *)

Lemma cell_setCell_eq lcs i j v row :
  lcs !! i = Some row → j < length row → cell (setCell lcs i j v) i j = v.
Proof.
  intros Hrow Hj. unfold cell, setCell.
  rewrite (nth_lookup_Some lcs i [] row Hrow).
  assert (i < length lcs) as Hi by (by eapply lookup_lt_Some).
  rewrite (nth_lookup_Some _ i [] (<[j:=v]> row)) by (by apply list_lookup_insert_eq).
  apply nth_lookup_Some. by apply list_lookup_insert_eq.
Qed.

Lemma cell_setCell_ne lcs i j v i' j' :
  (i', j') ≠ (i, j) → cell (setCell lcs i j v) i' j' = cell lcs i' j'.
Proof.
  intros Hne. unfold cell, setCell.
  destruct (decide (i' = i)) as [->|Hi].
  - destruct (lcs !! i) as [row|] eqn:Hrow.
    + rewrite (nth_lookup_Some lcs i [] row Hrow).
      rewrite (nth_lookup_Some _ i [] (<[j:=v]> row))
        by (apply list_lookup_insert_eq; by eapply lookup_lt_Some).
      rewrite !(nth_lookup _ j'), list_lookup_insert_ne by congruence. done.
    + rewrite list_insert_ge by (by apply lookup_ge_None). done.
  - rewrite !(nth_lookup _ i'), list_lookup_insert_ne by done. done.
Qed.

Lemma setCell_shape lcs i j v (n : nat) :
  (∀ r row, lcs !! r = Some row → length row = n) →
  length (setCell lcs i j v) = length lcs ∧
  (∀ r row, setCell lcs i j v !! r = Some row → length row = n).
Proof.
  intros Hrows. unfold setCell. split; [apply length_insert|].
  intros r row Hr. destruct (decide (r = i)) as [->|Hne].
  - destruct (lcs !! i) as [row0|] eqn:Hrow0.
    + rewrite list_lookup_insert_eq in Hr by (by eapply lookup_lt_Some).
      injection Hr as <-. rewrite length_insert.
      rewrite (nth_lookup_Some lcs i [] row0 Hrow0). eauto.
    + rewrite list_insert_ge in Hr by (by apply lookup_ge_None). congruence.
  - rewrite list_lookup_insert_ne in Hr by done. eauto.
Qed.

Section table_facts.
Variables oldLines newLines : list string.
Local Abbreviation m := (length oldLines).
Local Abbreviation n := (length newLines).
Local Abbreviation LCS := (prefixLCS oldLines newLines).
Local Abbreviation filled := (tableFilled oldLines newLines).

Lemma prefixLCS_0_l j : LCS 0 j = 0.
Proof. unfold prefixLCS. by rewrite take_0, lcsLen_nil_l. Qed.

Lemma prefixLCS_0_r i : LCS i 0 = 0.
Proof. unfold prefixLCS. by rewrite take_0, lcsLen_nil_r. Qed.

Lemma prefixLCS_same i j :
  i < m → j < n → lineAt oldLines i = lineAt newLines j →
  LCS (S i) (S j) = S (LCS i j).
Proof.
  intros Hi Hj Heq. unfold prefixLCS.
  rewrite (take_snoc_lineAt oldLines (S i)), (take_snoc_lineAt newLines (S j)) by lia.
  replace (S i - 1) with i by lia. replace (S j - 1) with j by lia.
  rewrite Heq. apply lcsLen_snoc_same.
Qed.

Lemma prefixLCS_diff i j :
  i < m → j < n → lineAt oldLines i ≠ lineAt newLines j →
  LCS (S i) (S j) = Nat.max (LCS i (S j)) (LCS (S i) j).
Proof.
  intros Hi Hj Hne. unfold prefixLCS.
  rewrite (take_snoc_lineAt oldLines (S i)), (take_snoc_lineAt newLines (S j)) by lia.
  replace (S i - 1) with i by lia. replace (S j - 1) with j by lia.
  by apply lcsLen_snoc_diff.
Qed.

Lemma tableFilled_init : filled (replicate (S m) (replicate (S n) 0)) 0 n.
Proof.
  split_and!.
  - by rewrite length_replicate.
  - intros r row [-> _]%lookup_replicate. by rewrite length_replicate.
  - intros i' j' Hi Hj Hcov. unfold cell.
    rewrite (nth_lookup_Some _ i' [] (replicate (S n) 0))
      by (apply lookup_replicate; split; [done|lia]).
    rewrite (nth_lookup_Some _ j' 0 0) by (apply lookup_replicate; split; [done|lia]).
    destruct Hcov as [?|[[-> _]| ->]]; [lia| |].
    + by rewrite prefixLCS_0_l.
    + by rewrite prefixLCS_0_r.
Qed.

Lemma fillCell_filled lcs i j :
  0 < i → i ≤ m → 0 < j → j ≤ n →
  filled lcs i (j - 1) → filled (fillCell oldLines newLines lcs i j) i j.
Proof.
  intros Hi Him Hj Hjn (Hlen & Hrows & Hcells).
  destruct (lookup_lt_is_Some_2 lcs i) as [row Hrow]; [lia|].
  pose proof (Hrows _ _ Hrow) as Hrowlen.
  assert (∃ v, fillCell oldLines newLines lcs i j = setCell lcs i j v ∧ v = LCS i j)
    as (v & -> & Hv).
  { unfold fillCell.
    pose proof (Hcells (i - 1) (j - 1)) as Hdiag.
    pose proof (Hcells (i - 1) j) as Hup.
    pose proof (Hcells i (j - 1)) as Hleft.
    rewrite Hdiag, Hup, Hleft by lia.
    destruct i as [|i0]; [lia|]. destruct j as [|j0]; [lia|].
    replace (S i0 - 1) with i0 by lia. replace (S j0 - 1) with j0 by lia.
    destruct (String.eqb_spec (lineAt oldLines i0) (lineAt newLines j0)) as [Heq|Hne].
    - eexists. split; [done|]. rewrite prefixLCS_same by (done || lia). lia.
    - rewrite prefixLCS_diff by (done || lia).
      destruct (Nat.leb_spec (LCS (S i0) j0) (LCS i0 (S j0))).
      + eexists. split; [done|]. lia.
      + eexists. split; [done|]. lia. }
  destruct (setCell_shape lcs i j v (S n) Hrows) as [Hlen' Hrows'].
  split_and!; [congruence|done|].
  intros i' j' Hi' Hj' Hcov.
  destruct (decide ((i', j') = (i, j))) as [[= -> ->]|Hne].
  - rewrite (cell_setCell_eq lcs i j v row) by (done || lia). done.
  - rewrite cell_setCell_ne by done. apply Hcells; [done..|].
    destruct Hcov as [?|[[-> ?]| ->]]; [by left| |by right; right].
    right; left. split; [done|]. destruct (decide (j' = j)) as [->|]; [done|lia].
Qed.

Lemma fillRow_filled lcs i :
  0 < i → i ≤ m → filled lcs i 0 → filled (fillRow oldLines newLines n lcs i) i n.
Proof.
  intros Hi Him H0. unfold fillRow.
  assert (∀ k, k ≤ n →
            filled (foldl (λ t j, fillCell oldLines newLines t i j) lcs (seq 1 k)) i k)
    as Hloop; [|by apply Hloop].
  induction k as [|k IH]; intros Hk; [done|].
  rewrite seq_S, foldl_app. cbn [foldl Nat.add].
  apply fillCell_filled; [lia..|].
  replace (S k - 1) with k by lia. apply IH. lia.
Qed.

Lemma tableFilled_next_row lcs i : filled lcs i n → filled lcs (S i) 0.
Proof.
  intros (Hlen & Hrows & Hcells). split_and!; [done..|].
  intros i' j' Hi' Hj' Hcov. apply Hcells; [done..|].
  destruct Hcov as [?|[[-> ?]| ->]]; [|right; right; lia|by right; right].
  destruct (decide (i' = i)) as [->|]; [right; left; done|left; lia].
Qed.

Lemma lcsTable_filled : filled (lcsTable oldLines newLines) m n.
Proof.
  unfold lcsTable. cbv zeta.
  assert (∀ k, k ≤ m →
            filled (foldl (fillRow oldLines newLines n)
                      (replicate (S m) (replicate (S n) 0)) (seq 1 k)) k n)
    as Hloop; [|by apply Hloop].
  induction k as [|k IH]; intros Hk; [apply tableFilled_init|].
  rewrite seq_S, foldl_app. cbn [foldl Nat.add].
  apply fillRow_filled; [lia..|]. apply tableFilled_next_row, IH. lia.
Qed.

Lemma lcsTable_cell i j :
  i ≤ m → j ≤ n → cell (lcsTable oldLines newLines) i j = LCS i j.
Proof.
  intros Hi Hj. destruct lcsTable_filled as (_ & _ & Hcells).
  apply Hcells; [done..|].
  destruct (decide (i = m)) as [->|]; [right; left; done|left; lia].
Qed.
End table_facts.

(** *** The backtracking loop follows the tie-break of the design *)

Section tieBreak_facts.
Variables oldLines newLines : list string.
Local Abbreviation m := (length oldLines).
Local Abbreviation n := (length newLines).
Local Abbreviation LCS := (prefixLCS oldLines newLines).
Local Abbreviation script := (tieBreakFrom oldLines newLines).

Lemma tieBreakFrom_0_S j :
  script 0 (S j) = script 0 j ++ [mkDiffOp diffInsert (lineAt newLines j)].
Proof. reflexivity. Qed.

Lemma tieBreakFrom_S_0 i :
  script (S i) 0 = script i 0 ++ [mkDiffOp diffDelete (lineAt oldLines i)].
Proof. reflexivity. Qed.

Lemma tieBreakFrom_S_S i j :
  script (S i) (S j) =
  if decide (lineAt oldLines i = lineAt newLines j) then
    script i j ++ [mkDiffOp diffEqual (lineAt oldLines i)]
  else if decide (LCS i (S j) ≤ LCS (S i) j) then
    script (S i) j ++ [mkDiffOp diffInsert (lineAt newLines j)]
  else
    script i (S j) ++ [mkDiffOp diffDelete (lineAt oldLines i)].
Proof. reflexivity. Qed.

Lemma backtrack_tieBreak fuel i j ops :
  i ≤ m → j ≤ n → i + j ≤ fuel →
  reverse (backtrack oldLines newLines (lcsTable oldLines newLines) fuel i j ops) =
  script i j ++ reverse ops.
Proof.
  revert i j ops. induction fuel as [|fuel IH]; intros i j ops Hi Hj Hf.
  { assert (i = 0 ∧ j = 0) as [-> ->] by lia. reflexivity. }
  destruct i as [|i], j as [|j]; cbn [backtrack].
  - reflexivity.
  - cbn [Nat.ltb Nat.leb Nat.eqb orb andb negb].
    replace (S j - 1) with j by lia.
    rewrite IH by lia. rewrite reverse_snoc, tieBreakFrom_0_S, <- app_assoc. done.
  - cbn [Nat.ltb Nat.leb Nat.eqb orb andb negb].
    replace (S i - 1) with i by lia.
    rewrite IH by lia. rewrite reverse_snoc, tieBreakFrom_S_0, <- app_assoc. done.
  - cbn [Nat.ltb Nat.leb Nat.eqb orb andb negb].
    replace (S i - 1) with i by lia. replace (S j - 1) with j by lia.
    rewrite tieBreakFrom_S_S, !lcsTable_cell by lia.
    destruct (String.eqb_spec (lineAt oldLines i) (lineAt newLines j)) as [Heq|Hne].
    + rewrite decide_True by done.
      rewrite IH by lia. by rewrite reverse_snoc, <- app_assoc.
    + rewrite decide_False by done.
      destruct (Nat.leb_spec (LCS i (S j)) (LCS (S i) j)).
      * rewrite decide_True by done.
        rewrite IH by lia. by rewrite reverse_snoc, <- app_assoc.
      * rewrite decide_False by lia.
        rewrite IH by lia. by rewrite reverse_snoc, <- app_assoc.
Qed.

Lemma computeDiff_tieBreak :
  computeDiff oldLines newLines = tieBreakScript oldLines newLines.
Proof.
  unfold computeDiff, tieBreakScript. cbv zeta.
  rewrite backtrack_tieBreak by lia. cbn. by rewrite app_nil_r.
Qed.

Lemma countOps_snoc t ops op :
  countOps t (ops ++ [op]) = countOps t ops + (if decide (Type' op = t) then 1 else 0).
Proof.
  unfold countOps. rewrite filter_app, length_app, filter_cons, filter_nil.
  by destruct (decide (Type' op = t)).
Qed.

(** The equal operations of the script are as many as the LCS is long. *)
Lemma tieBreakFrom_equal_count i j :
  i ≤ m → j ≤ n → countOps diffEqual (script i j) = LCS i j.
Proof.
  revert j. induction i as [|i IHi]; induction j as [|j IHj]; intros Hi Hj.
  - by rewrite prefixLCS_0_l.
  - rewrite tieBreakFrom_0_S, countOps_snoc, IHj by lia.
    rewrite decide_False by done. rewrite !prefixLCS_0_l. lia.
  - rewrite tieBreakFrom_S_0, countOps_snoc, IHi by lia.
    rewrite decide_False by done. rewrite !prefixLCS_0_r. lia.
  - rewrite tieBreakFrom_S_S.
    destruct (decide (lineAt oldLines i = lineAt newLines j)) as [Heq|Hne].
    + rewrite countOps_snoc, IHi by lia. rewrite decide_True by done.
      rewrite prefixLCS_same by (done || lia). lia.
    + rewrite prefixLCS_diff by (done || lia).
      destruct (decide (LCS i (S j) ≤ LCS (S i) j)).
      * rewrite countOps_snoc, IHj by lia. rewrite decide_False by done. lia.
      * rewrite countOps_snoc, IHi by lia. rewrite decide_False by done. lia.
Qed.
End tieBreak_facts.

(** *** Counting the operations of a script *)

Ltac script_cases IH :=
  rewrite !filter_cons; cbn [Type']; repeat case_decide; try done;
  cbn [fmap list_fmap length]; try (rewrite IH; clear IH); try lia.

Lemma oldSide_length ops :
  length (oldSide ops) = countOps diffEqual ops + countOps diffDelete ops.
Proof.
  unfold oldSide, countOps. rewrite length_fmap.
  induction ops as [|[[] txt] ops IH]; [done|..]; script_cases IH.
Qed.

Lemma newSide_length ops :
  length (newSide ops) = countOps diffEqual ops + countOps diffInsert ops.
Proof.
  unfold newSide, countOps. rewrite length_fmap.
  induction ops as [|[[] txt] ops IH]; [done|..]; script_cases IH.
Qed.

(** The lines a script keeps are a common subsequence of both its sides. *)
Lemma equal_lines_common ops :
  let kept := Text <$> filter (λ op, Type' op = diffEqual) ops in
  kept `sublist_of` oldSide ops ∧ kept `sublist_of` newSide ops ∧
  length kept = countOps diffEqual ops.
Proof.
  cbv zeta. unfold oldSide, newSide, countOps. rewrite length_fmap.
  split_and!; [| |done].
  - induction ops as [|[[] txt] ops IH]; [done|..];
      rewrite !filter_cons; cbn [Type']; repeat case_decide; try done;
      cbn; by constructor.
  - induction ops as [|[[] txt] ops IH]; [done|..];
      rewrite !filter_cons; cbn [Type']; repeat case_decide; try done;
      cbn; by constructor.
Qed.

Lemma editScript_cost ops a b :
  editScript ops a b →
  countOps diffEqual ops ≤ lcsLen a b ∧
  countOps diffInsert ops + countOps diffDelete ops + 2 * countOps diffEqual ops =
    length a + length b.
Proof.
  intros [Ha Hb].
  pose proof (oldSide_length ops) as Ho. pose proof (newSide_length ops) as Hn.
  destruct (equal_lines_common ops) as (Hca & Hcb & Hlen).
  rewrite Ha in Ho, Hca. rewrite Hb in Hn, Hcb. split; [|lia].
  rewrite <- Hlen. by apply lcsLen_common_max.
Qed.

(** C5: the script of [computeDiff] is optimal.  With [L] the length of a
    longest common subsequence of the two line sequences, its inserts plus
    deletes number [(len(old) - L) + (len(new) - L)]; no script that edits
    old into new has fewer; and it is the script picked by the tie-break
    that, where consuming the new line and consuming the old line do
    equally well in the backtracking, consumes the new line (insert). *)
Theorem computeDiff_optimal (oldLines newLines : list string) :
  let ops := computeDiff oldLines newLines in
  let L := lcsLen oldLines newLines in
  isLCS oldLines newLines L ∧
  editScript ops oldLines newLines ∧
  countOps diffInsert ops + countOps diffDelete ops =
    (length oldLines - L) + (length newLines - L) ∧
  (∀ other, editScript other oldLines newLines →
     countOps diffInsert ops + countOps diffDelete ops ≤
     countOps diffInsert other + countOps diffDelete other) ∧
  ops = tieBreakScript oldLines newLines.
Proof.
  cbv zeta.
  pose proof (computeDiff_sides oldLines newLines) as Hsides.
  assert (countOps diffEqual (computeDiff oldLines newLines) = lcsLen oldLines newLines)
    as Heq.
  { rewrite computeDiff_tieBreak. unfold tieBreakScript.
    rewrite tieBreakFrom_equal_count by lia.
    unfold prefixLCS. by rewrite !firstn_all. }
  destruct (editScript_cost _ _ _ Hsides) as [_ Hcost].
  pose proof (lcsLen_common_max oldLines newLines) as Hmax.
  destruct (lcsLen_common_exists oldLines newLines) as (c & Hca & Hcb & Hc).
  pose proof (sublist_length _ _ Hca). pose proof (sublist_length _ _ Hcb).
  split_and!.
  - apply lcsLen_isLCS.
  - exact Hsides.
  - lia.
  - intros other Hother. destruct (editScript_cost _ _ _ Hother). lia.
  - apply computeDiff_tieBreak.
Qed.

(** *** The set diff *)

Lemma elem_of_stringSet x items : x ∈ stringSet items ↔ x ∈ items.
Proof.
  unfold stringSet.
  assert (∀ acc : gset string,
            x ∈ foldl (λ set item, {[item]} ∪ set) acc items ↔ x ∈ acc ∨ x ∈ items)
    as Hgen.
  { induction items as [|y items IH]; intros acc; cbn.
    - rewrite elem_of_nil. tauto.
    - rewrite IH, elem_of_union, elem_of_singleton, elem_of_cons. tauto. }
  rewrite Hgen, elem_of_empty. tauto.
Qed.

Lemma sortStrings_perm l : sortStrings l ≡ₚ l.
Proof. apply merge_sort_Permutation. Qed.

Lemma sortStrings_sorted l : Sorted String.le (sortStrings l).
Proof. apply Sorted_merge_sort, _. Qed.

Lemma sortStrings_order l1 l2 : l1 ≡ₚ l2 → sortStrings l1 = sortStrings l2.
Proof.
  intros Hperm. apply (Sorted_unique String.le); try apply sortStrings_sorted.
  by rewrite !sortStrings_perm.
Qed.

Lemma diffStringSetVia_order rangeKeys old new :
  (∀ s, rangeKeys s ≡ₚ elements s) →
  diffStringSetVia rangeKeys old new = diffStringSet old new.
Proof.
  intros Horder. unfold diffStringSet, diffStringSetVia. cbv zeta.
  f_equal; apply sortStrings_order; by rewrite Horder.
Qed.

Lemma diffStringSet_spec old new :
  let added := (diffStringSet old new).1 in
  let removed := (diffStringSet old new).2 in
  (∀ x, x ∈ added ↔ x ∈ new ∧ x ∉ old) ∧
  (∀ x, x ∈ removed ↔ x ∈ old ∧ x ∉ new) ∧
  Sorted String.le added ∧ NoDup added ∧
  Sorted String.le removed ∧ NoDup removed.
Proof.
  cbv zeta. unfold diffStringSet, diffStringSetVia. cbn [fst snd].
  split_and!.
  - intros x. rewrite sortStrings_perm, list_elem_of_filter, elem_of_elements,
      !elem_of_stringSet. tauto.
  - intros x. rewrite sortStrings_perm, list_elem_of_filter, elem_of_elements,
      !elem_of_stringSet. tauto.
  - apply sortStrings_sorted.
  - rewrite sortStrings_perm. apply NoDup_filter, NoDup_elements.
  - apply sortStrings_sorted.
  - rewrite sortStrings_perm. apply NoDup_filter, NoDup_elements.
Qed.

(** C6: for all string collections [old] and [new], and whatever order
    the runtime visits map keys in, [diffStringSet] returns [(added,
    removed)] with [added = new - old] and [removed = old - new] as sets
    under string equality, both sorted ascending and free of duplicates,
    and [(old \ removed) ∪ added = new] as sets. *)
Theorem diffStringSet_correct (rangeKeys : gset string → list string)
    (old new : list string) :
  (∀ s, rangeKeys s ≡ₚ elements s) →
  let added := (diffStringSetVia rangeKeys old new).1 in
  let removed := (diffStringSetVia rangeKeys old new).2 in
  (∀ x, x ∈ added ↔ x ∈ new ∧ x ∉ old) ∧
  (∀ x, x ∈ removed ↔ x ∈ old ∧ x ∉ new) ∧
  list_to_set added = (list_to_set new ∖ list_to_set old : gset string) ∧
  list_to_set removed = (list_to_set old ∖ list_to_set new : gset string) ∧
  Sorted String.le added ∧ NoDup added ∧
  Sorted String.le removed ∧ NoDup removed ∧
  (list_to_set old ∖ list_to_set removed) ∪ list_to_set added =
    (list_to_set new : gset string) ∧
  (∀ x, (x ∈ old ∧ x ∉ removed) ∨ x ∈ added ↔ x ∈ new).
Proof.
  intros Horder. cbv zeta. rewrite (diffStringSetVia_order _ _ _ Horder).
  destruct (diffStringSet_spec old new) as (Hadd & Hrem & Hs1 & Hn1 & Hs2 & Hn2).
  cbv zeta in *.
  assert (∀ x, (x ∈ old ∧ x ∉ (diffStringSet old new).2) ∨ x ∈ (diffStringSet old new).1
               ↔ x ∈ new) as Hback.
  { intros x. rewrite Hadd, Hrem.
    destruct (decide (x ∈ old)), (decide (x ∈ new)); tauto. }
  split_and!; try done.
  - apply set_eq. intros x.
    rewrite elem_of_difference, !elem_of_list_to_set. apply Hadd.
  - apply set_eq. intros x.
    rewrite elem_of_difference, !elem_of_list_to_set. apply Hrem.
  - apply set_eq. intros x.
    rewrite elem_of_union, elem_of_difference, !elem_of_list_to_set. apply Hback.
Qed.

Lemma diffStringSet_correct_witness :
  (diffStringSetVia elements ["b"; "a"; "b"] ["c"; "b"]).1 = ["c"] ∧
  ∀ x, x ∈ (diffStringSetVia elements ["b"; "a"; "b"] ["c"; "b"]).2 ↔
       x ∈ ["b"; "a"; "b"] ∧ x ∉ ["c"; "b"].
Proof.
  split; [vm_compute; reflexivity|].
  apply (diffStringSet_correct elements ["b"; "a"; "b"] ["c"; "b"]).
  intros s. reflexivity.
Defined.

(** *** Which changes count as edits *)

Lemma setIfChanged_None a b : setIfChanged a b ≠ None ↔ a ≠ b.
Proof. unfold setIfChanged. case_decide; naive_solver. Qed.

Lemma length_pos_elem (l : list string) : 0 < length l ↔ ∃ x, x ∈ l.
Proof.
  destruct l as [|y l]; cbn; split.
  - lia.
  - intros [x Hx]. by apply elem_of_nil in Hx.
  - intros _. exists y. by left.
  - lia.
Qed.

Lemma diffStringSet_added old new :
  0 < length (diffStringSet old new).1 ↔ ∃ x, x ∈ new ∧ x ∉ old.
Proof.
  destruct (diffStringSet_spec old new) as (Hadd & _).
  rewrite length_pos_elem. by setoid_rewrite Hadd.
Qed.

Lemma diffStringSet_removed old new :
  0 < length (diffStringSet old new).2 ↔ ∃ x, x ∈ old ∧ x ∉ new.
Proof.
  destruct (diffStringSet_spec old new) as (_ & Hrem & _).
  rewrite length_pos_elem. by setoid_rewrite Hrem.
Qed.

Lemma hasEdits_true change :
  hasEdits change = true ↔
  ghcli.Title change ≠ None ∨ ghcli.Body change ≠ None ∨
  ghcli.Milestone change ≠ None ∨
  ghcli.AddLabels change ≠ [] ∨ ghcli.RemoveLabels change ≠ [] ∨
  ghcli.AddAssignees change ≠ [] ∨ ghcli.RemoveAssignees change ≠ [].
Proof.
  assert (∀ l : list string, (0 <? length l) = true ↔ l ≠ []) as Hne.
  { intros [|y l]; cbn; split; (done || lia). }
  unfold hasEdits.
  repeat (rewrite orb_true_iff). repeat (rewrite bool_decide_eq_true).
  repeat (rewrite Hne). tauto.
Qed.

Lemma list_not_nil_length (l : list string) : l ≠ [] ↔ 0 < length l.
Proof. destruct l; cbn; split; (done || lia). Qed.

Lemma diffIssue_edit_fields (original local : issue.Issue) :
  let change := diffIssue original local in
  ghcli.Title change = setIfChanged (issue.Title original) (issue.Title local) ∧
  ghcli.Body change = setIfChanged (issue.Body original) (issue.Body local) ∧
  ghcli.Milestone change =
    setIfChanged (issue.Milestone original) (issue.Milestone local) ∧
  ghcli.AddLabels change = (diffStringSet (issue.Labels original) (issue.Labels local)).1 ∧
  ghcli.RemoveLabels change = (diffStringSet (issue.Labels original) (issue.Labels local)).2 ∧
  ghcli.AddAssignees change =
    (diffStringSet (issue.Assignees original) (issue.Assignees local)).1 ∧
  ghcli.RemoveAssignees change =
    (diffStringSet (issue.Assignees original) (issue.Assignees local)).2.
Proof. cbv zeta. by split_and!. Qed.

(** C10: on the change-set [diffIssue] computes, [hasEdits] holds exactly
    when the title, the body or the milestone changed, or a label or an
    assignee was added or removed.  Projects, issue type, state transition
    and state reason do not count: records that agree on title, body,
    milestone, labels and assignees have no edits, whatever the rest is. *)
Theorem hasEdits_diffIssue (original local : issue.Issue) :
  let change := diffIssue original local in
  (hasEdits change = true ↔
     issue.Title original ≠ issue.Title local ∨
     issue.Body original ≠ issue.Body local ∨
     issue.Milestone original ≠ issue.Milestone local ∨
     ghcli.AddLabels change ≠ [] ∨ ghcli.RemoveLabels change ≠ [] ∨
     ghcli.AddAssignees change ≠ [] ∨ ghcli.RemoveAssignees change ≠ []) ∧
  (hasEdits change = true ↔
     issue.Title original ≠ issue.Title local ∨
     issue.Body original ≠ issue.Body local ∨
     issue.Milestone original ≠ issue.Milestone local ∨
     (∃ x, x ∈ issue.Labels local ∧ x ∉ issue.Labels original) ∨
     (∃ x, x ∈ issue.Labels original ∧ x ∉ issue.Labels local) ∨
     (∃ x, x ∈ issue.Assignees local ∧ x ∉ issue.Assignees original) ∨
     (∃ x, x ∈ issue.Assignees original ∧ x ∉ issue.Assignees local)) ∧
  (issue.Title original = issue.Title local →
   issue.Body original = issue.Body local →
   issue.Milestone original = issue.Milestone local →
   (∀ x, x ∈ issue.Labels original ↔ x ∈ issue.Labels local) →
   (∀ x, x ∈ issue.Assignees original ↔ x ∈ issue.Assignees local) →
   hasEdits change = false).
Proof.
  cbv zeta.
  destruct (diffIssue_edit_fields original local) as (Ht & Hb & Hm & Hal & Hrl & Haa & Hra).
  cbv zeta in *.
  assert (hasEdits (diffIssue original local) = true ↔
     issue.Title original ≠ issue.Title local ∨
     issue.Body original ≠ issue.Body local ∨
     issue.Milestone original ≠ issue.Milestone local ∨
     ghcli.AddLabels (diffIssue original local) ≠ [] ∨
     ghcli.RemoveLabels (diffIssue original local) ≠ [] ∨
     ghcli.AddAssignees (diffIssue original local) ≠ [] ∨
     ghcli.RemoveAssignees (diffIssue original local) ≠ []) as Hfields.
  { rewrite hasEdits_true, Ht, Hb, Hm, !setIfChanged_None. reflexivity. }
  assert (hasEdits (diffIssue original local) = true ↔
     issue.Title original ≠ issue.Title local ∨
     issue.Body original ≠ issue.Body local ∨
     issue.Milestone original ≠ issue.Milestone local ∨
     (∃ x, x ∈ issue.Labels local ∧ x ∉ issue.Labels original) ∨
     (∃ x, x ∈ issue.Labels original ∧ x ∉ issue.Labels local) ∨
     (∃ x, x ∈ issue.Assignees local ∧ x ∉ issue.Assignees original) ∨
     (∃ x, x ∈ issue.Assignees original ∧ x ∉ issue.Assignees local)) as Hiff.
  { rewrite Hfields, Hal, Hrl, Haa, Hra, !list_not_nil_length.
    rewrite !diffStringSet_added, !diffStringSet_removed. reflexivity. }
  split_and!; [exact Hfields|exact Hiff|].
  intros Het Heb Hem Hel Hea.
  apply not_true_is_false. intros Htrue. apply Hiff in Htrue.
  destruct Htrue as [?|[?|[?|[(x & ? & Hx)|[(x & ? & Hx)|[(x & ? & Hx)|(x & ? & Hx)]]]]]];
    try done; apply Hx; first [by apply Hel | by apply Hea].
Qed.

(** A change confined to projects, issue type, state and state reason. *)
Example hasEdits_ignores_rest :
  let original := issue.mkIssue "7" "Bug" "text" ["a"; "b"] ["ann"] ["P1"] "v1" "Task"
                    "open" None None [] [] None in
  let local := issue.mkIssue "7" "Bug" "text" ["b"; "a"] ["ann"] ["P2"] "v1" "Feature"
                    "closed" (Some "completed") None [] [] None in
  diffIssue original local =
    ghcli.mkIssueChange None None [] [] [] [] ["P2"] ["P1"] None (Some "Feature")
      (Some "close") (Some "completed") ∧
  hasEdits (diffIssue original local) = false.
Proof. vm_compute. done. Qed.

Example applyMapping_ex :
  let m : gmap string string := {[ "Tabc1" := "201"; "Tdef2" := "202" ]} in
  let item := issue.mkIssue "Tabc1" "Fix X (see #Tdef2x)" "blocks #Tdef2, #Tzz and ##Tabc1."
                [] [] [] "" "" "open" None (Some "Tdef2") ["Tabc1"; "9"] [] None in
  applyMapping item m =
    (issue.mkIssue "Tabc1" "Fix X (see #Tdef2x)" "blocks #202, #Tzz and ##201."
       [] [] [] "" "" "open" None (Some "202") ["201"; "9"] [] None, true).
Proof. vm_compute. reflexivity. Qed.

(** *** Remapping is idempotent *)

Lemma string_app_cons c (a b : string) : String c a +:+ b = String c (a +:+ b).
Proof. reflexivity. Qed.

Lemma string_app_nil_l (b : string) : "" +:+ b = b.
Proof. reflexivity. Qed.

Lemma string_app_assoc (a b c : string) : (a +:+ b) +:+ c = a +:+ (b +:+ c).
Proof. induction a as [|x a IH]; [done|]. by rewrite !string_app_cons, IH. Qed.

Lemma string_app_length (a b : string) :
  String.length (a +:+ b) = String.length a + String.length b.
Proof. induction a as [|x a IH]; [done|]. rewrite string_app_cons. cbn. by rewrite IH. Qed.

Lemma TrimPrefix_hash (s : string) : TrimPrefix (String "#" s) "#" = s.
Proof.
  unfold TrimPrefix, HasPrefix. cbn [String.prefix String.length].
  destruct (Ascii.ascii_dec "#" "#") as [_|Hne]; [|done].
  assert (String.prefix "" s = true) as -> by (by destruct s).
  cbn. rewrite Nat.sub_0_r. apply substring_all.
Qed.

Lemma alnumRun_nil_iff s : alnumRun s = "" ↔ headAlnum s = false.
Proof. destruct s as [|c rest]; cbn; [done|]. by destruct (isAlnum c). Qed.

Lemma alnumRun_split s :
  ∃ tail, s = alnumRun s +:+ tail ∧ headAlnum tail = false ∧
          allChars isAlnum (alnumRun s) = true.
Proof.
  induction s as [|c rest (tail & Hs & Htail & Hall)]; cbn.
  - by exists "".
  - destruct (isAlnum c) eqn:Hc.
    + exists tail. rewrite string_app_cons. cbn. rewrite Hc, Hall. by rewrite <- Hs.
    + exists (String c rest). cbn. by rewrite Hc.
Qed.

Lemma alnumRun_app run tail :
  allChars isAlnum run = true → headAlnum tail = false →
  alnumRun (run +:+ tail) = run.
Proof.
  intros Hall Htail. induction run as [|c run IH].
  - by apply alnumRun_nil_iff.
  - cbn in Hall. apply andb_true_iff in Hall as [Hc Hall].
    rewrite string_app_cons. cbn. by rewrite Hc, IH.
Qed.

Lemma matchLocalRef_not_hash c rest : c ≠ "#"%char → matchLocalRef (String c rest) = None.
Proof.
  intros Hc. unfold matchLocalRef.
  destruct c as [[] [] [] [] [] [] [] []]; try done.
Qed.

Lemma matchLocalRef_hash rest :
  matchLocalRef (String "#" rest) = None ↔ startsLocalId rest = false.
Proof.
  unfold matchLocalRef, startsLocalId.
  destruct rest as [|c rest]; [done|].
  destruct c as [[] [] [] [] [] [] [] []]; try done.
  rewrite <- alnumRun_nil_iff. by destruct (alnumRun rest).
Qed.

Lemma matchLocalRef_Some s m :
  matchLocalRef s = Some m →
  ∃ run tail, m = String "#" (String "T" run) ∧ s = m +:+ tail ∧ run ≠ "" ∧
              allChars isAlnum run = true ∧ headAlnum tail = false.
Proof.
  unfold matchLocalRef. destruct s as [|c rest]; [done|].
  destruct c as [[] [] [] [] [] [] [] []]; try done.
  destruct rest as [|c rest]; [done|].
  destruct c as [[] [] [] [] [] [] [] []]; try done.
  destruct (alnumRun_split rest) as (tail & Hs & Htail & Hall).
  destruct (alnumRun rest) as [|r run] eqn:Hrun; [done|].
  intros [= <-]. exists (String r run), tail.
  rewrite !string_app_cons in *. rewrite <- Hs. done.
Qed.

Lemma matchLocalRef_app run tail :
  run ≠ "" → allChars isAlnum run = true → headAlnum tail = false →
  matchLocalRef (String "#" (String "T" run) +:+ tail) = Some (String "#" (String "T" run)).
Proof.
  intros Hne Hall Htail. rewrite !string_app_cons. cbn.
  rewrite alnumRun_app by done. by destruct run.
Qed.

Section remap_facts.
Variable mapping : gmap string string.
Hypothesis Hmapping : tempToCanonical mapping.
Local Abbreviation R := (replaceAllFrom (remapMatch mapping)).

Lemma replaceAllFrom_skip repl (x tail : string) changed :
  replaceAllFrom repl (String.length x) (x +:+ tail) changed =
  replaceAllFrom repl 0 tail changed.
Proof. induction x as [|c x IH]; [done|]. rewrite string_app_cons. cbn. apply IH. Qed.

Lemma replaceAllFrom_copy repl c rest changed :
  matchLocalRef (String c rest) = None →
  replaceAllFrom repl 0 (String c rest) changed =
  (String c (replaceAllFrom repl 0 rest changed).1, (replaceAllFrom repl 0 rest changed).2).
Proof.
  intros Hnone. cbn [replaceAllFrom]. rewrite Hnone.
  by destruct (replaceAllFrom repl 0 rest changed).
Qed.

Lemma replaceAllFrom_match repl run tail changed :
  run ≠ "" → allChars isAlnum run = true → headAlnum tail = false →
  let m := String "#" (String "T" run) in
  replaceAllFrom repl 0 (m +:+ tail) changed =
  ((repl m changed).1 +:+ (replaceAllFrom repl 0 tail (repl m changed).2).1,
   (replaceAllFrom repl 0 tail (repl m changed).2).2).
Proof.
  intros Hne Hall Htail m.
  pose proof (matchLocalRef_app run tail Hne Hall Htail) as Hm.
  subst m. rewrite string_app_cons in *. cbn [replaceAllFrom]. rewrite Hm.
  destruct (repl _ changed) as [out c1]. cbn [fst snd String.length].
  rewrite Nat.sub_succ, Nat.sub_0_r.
  change (S (String.length run)) with (String.length (String "T" run)).
  rewrite replaceAllFrom_skip.
  by destruct (replaceAllFrom repl 0 tail c1).
Qed.

Lemma remapMatch_id run changed :
  remapMatch mapping (String "#" (String "T" run)) changed =
  match mapping !! String "T" run with
  | Some real => ("#" +:+ real, true)
  | None => (String "#" (String "T" run), changed)
  end.
Proof. unfold remapMatch. by rewrite TrimPrefix_hash. Qed.

(** The text that comes out does not depend on the flag that goes in. *)
Lemma replaceAll_text s changed changed' :
  (R 0 s changed).1 = (R 0 s changed').1.
Proof.
  remember (String.length s) as k eqn:Hk.
  revert s Hk changed changed'.
  induction (lt_wf k) as [k _ IH]; intros s -> changed changed'.
  destruct s as [|c rest]; [done|].
  destruct (matchLocalRef (String c rest)) as [m|] eqn:Hm.
  - apply matchLocalRef_Some in Hm as (run & tail & -> & Hs & Hne & Hall & Htail).
    rewrite Hs, !replaceAllFrom_match, !remapMatch_id by done. cbn [fst].
    assert (String.length tail < String.length (String c rest)) as Hlt.
    { rewrite Hs, string_app_length. cbn. lia. }
    destruct (mapping !! String "T" run); cbn [fst snd]; f_equal;
      by eapply IH.
  - rewrite !replaceAllFrom_copy by done. cbn [fst]. f_equal.
    eapply IH; [|done]. cbn. lia.
Qed.

Lemma replaceAll_nil changed : R 0 "" changed = ("", changed).
Proof. reflexivity. Qed.

Lemma replaceAll_other c rest changed :
  c ≠ "#"%char → (R 0 (String c rest) changed).1 = String c (R 0 rest changed).1.
Proof. intros Hc. by rewrite replaceAllFrom_copy by by apply matchLocalRef_not_hash. Qed.

Lemma replaceAll_hash rest changed :
  ∃ t, (R 0 (String "#" rest) changed).1 = String "#" t.
Proof.
  destruct (matchLocalRef (String "#" rest)) as [m|] eqn:Hm.
  - apply matchLocalRef_Some in Hm as (run & tail & -> & Hs & Hne & Hall & Htail).
    rewrite Hs, replaceAllFrom_match, remapMatch_id by done. cbn [fst].
    destruct (mapping !! String "T" run); cbn [fst]; rewrite !string_app_cons; eauto.
  - rewrite replaceAllFrom_copy by done. cbn [fst]. eauto.
Qed.

Lemma isAlnum_not_hash c : isAlnum c = true → c ≠ "#"%char.
Proof. intros Hc ->. discriminate. Qed.

Lemma replaceAll_headAlnum s changed :
  headAlnum (R 0 s changed).1 = headAlnum s.
Proof.
  destruct s as [|c rest]; [done|].
  destruct (decide (c = "#"%char)) as [->|Hc].
  - destruct (replaceAll_hash rest changed) as [t ->]. done.
  - by rewrite replaceAll_other.
Qed.

Lemma replaceAll_startsLocalId s changed :
  startsLocalId (R 0 s changed).1 = startsLocalId s.
Proof.
  destruct s as [|c rest]; [done|].
  destruct (decide (c = "#"%char)) as [->|Hc].
  - destruct (replaceAll_hash rest changed) as [t ->]. done.
  - rewrite replaceAll_other by done.
    destruct (decide (c = "T"%char)) as [->|HT].
    + cbn. apply replaceAll_headAlnum.
    + unfold startsLocalId. destruct c as [[] [] [] [] [] [] [] []]; done.
Qed.

Lemma isDigit_not_hash c : isDigit c = true → c ≠ "#"%char.
Proof. intros Hc ->. discriminate. Qed.

Lemma replaceAll_digits d tail changed :
  allChars isDigit d = true →
  R 0 (d +:+ tail) changed = (d +:+ (R 0 tail changed).1, (R 0 tail changed).2).
Proof.
  intros Hd. induction d as [|c d IH].
  - rewrite !string_app_nil_l. by destruct (R 0 tail changed).
  - cbn in Hd. apply andb_true_iff in Hd as [Hc Hd].
    rewrite !string_app_cons.
    rewrite replaceAllFrom_copy by (by apply matchLocalRef_not_hash, isDigit_not_hash).
    by rewrite IH.
Qed.

Lemma canonical_startsLocalId real tail :
  isCanonicalId real = true → startsLocalId (real +:+ tail) = false.
Proof.
  unfold isCanonicalId. intros [Hne Hd]%andb_true_iff.
  destruct real as [|c real]; [done|].
  cbn in Hd. apply andb_true_iff in Hd as [Hc _].
  rewrite string_app_cons. unfold startsLocalId.
  destruct c as [[] [] [] [] [] [] [] []]; done.
Qed.

(** Remapping a remapped text copies it and finds nothing to replace. *)
Lemma replaceAll_idem s changed changed' :
  R 0 (R 0 s changed).1 changed' = ((R 0 s changed).1, changed').
Proof.
  remember (String.length s) as k eqn:Hk.
  revert s Hk changed changed'.
  induction (lt_wf k) as [k _ IH]; intros s -> changed changed'.
  destruct s as [|c rest]; [done|].
  destruct (matchLocalRef (String c rest)) as [m|] eqn:Hm.
  - apply matchLocalRef_Some in Hm as (run & tail & -> & Hs & Hne & Hall & Htail).
    assert (String.length tail < String.length (String c rest)) as Hlt.
    { rewrite Hs, string_app_length. cbn. lia. }
    rewrite Hs, replaceAllFrom_match, remapMatch_id by done.
    destruct (mapping !! String "T" run) as [real|] eqn:Hreal; cbn [fst snd].
    + destruct (Hmapping _ _ Hreal) as [_ Hcanon].
      rewrite string_app_assoc, string_app_cons, string_app_nil_l.
      rewrite replaceAllFrom_copy
        by (by apply matchLocalRef_hash, canonical_startsLocalId).
      unfold isCanonicalId in Hcanon. apply andb_true_iff in Hcanon as [_ Hd].
      rewrite replaceAll_digits by done. cbn [fst snd].
      rewrite (IH _ Hlt tail eq_refl). done.
    + rewrite replaceAllFrom_match, remapMatch_id, Hreal;
        [|done..|by rewrite replaceAll_headAlnum].
      cbn [fst snd]. rewrite (IH _ Hlt tail eq_refl). done.
  - rewrite replaceAllFrom_copy by done. cbn [fst].
    assert (matchLocalRef (String c (R 0 rest changed).1) = None) as Hnone.
    { destruct (decide (c = "#"%char)) as [->|Hc].
      - apply matchLocalRef_hash. rewrite replaceAll_startsLocalId.
        by apply matchLocalRef_hash.
      - by apply matchLocalRef_not_hash. }
    rewrite replaceAllFrom_copy by done.
    rewrite (IH (String.length rest)); [done|cbn; lia|done].
Qed.
End remap_facts.

Section applyMapping_facts.
Variable mapping : gmap string string.
Hypothesis Hmapping : tempToCanonical mapping.

Lemma value_not_key k v : mapping !! k = Some v → mapping !! v = None.
Proof.
  intros Hk. destruct (Hmapping _ _ Hk) as [_ Hcanon].
  destruct (mapping !! v) as [w|] eqn:Hv; [|done].
  destruct (Hmapping _ _ Hv) as [Htemp _]. exfalso.
  unfold isCanonicalId in Hcanon. unfold isTempId in Htemp.
  destruct v as [|c v]; [done|].
  cbn in Hcanon. apply andb_true_iff in Hcanon as [Hd _].
  destruct c as [[] [] [] [] [] [] [] []]; done.
Qed.

Lemma remapRef_fixed ref : mapping !! remapRef mapping ref = None.
Proof.
  unfold remapRef. destruct (mapping !! ref) as [real|] eqn:Href; [|done].
  by eapply value_not_key.
Qed.

Lemma applyMappingToRefs_spec refs changed :
  (applyMappingToRefs refs mapping changed).1 = remapRef mapping <$> refs.
Proof.
  unfold applyMappingToRefs. destruct refs as [|r0 refs0]; [done|].
  rewrite decide_False by done. generalize (r0 :: refs0). clear r0 refs0. intros refs.
  assert (∀ acc c,
            (foldl (λ '(updated, changed) ref,
                      match mapping !! ref with
                      | Some real => (updated ++ [real], true)
                      | None => (updated ++ [ref], changed)
                      end) (acc, c) refs).1 = acc ++ (remapRef mapping <$> refs)) as Hgen.
  { induction refs as [|r refs IH]; intros acc c; cbn.
    - by rewrite app_nil_r.
    - assert (remapRef mapping r = match mapping !! r with Some real => real | None => r end)
        as -> by done.
      destruct (mapping !! r); rewrite IH, <- app_assoc; done. }
  apply (Hgen [] changed).
Qed.

Lemma applyMappingToRefs_fixed refs changed :
  (∀ r, r ∈ refs → mapping !! r = None) →
  applyMappingToRefs refs mapping changed = (refs, changed).
Proof.
  intros Hnone. unfold applyMappingToRefs. destruct refs as [|r0 refs0]; [done|].
  rewrite decide_False by done. revert Hnone.
  generalize (r0 :: refs0). clear r0 refs0. intros refs Hnone.
  assert (∀ acc,
            foldl (λ '(updated, changed) ref,
                     match mapping !! ref with
                     | Some real => (updated ++ [real], true)
                     | None => (updated ++ [ref], changed)
                     end) (acc, changed) refs = (acc ++ refs, changed)) as Hgen.
  { induction refs as [|r refs IH]; intros acc; cbn [foldl].
    - by rewrite app_nil_r.
    - rewrite (Hnone r) by (by left).
      rewrite IH by (intros; apply Hnone; by right).
      by rewrite <- app_assoc. }
  apply (Hgen []).
Qed.

Lemma applyMappingToRefs_idem refs changed changed' :
  applyMappingToRefs (applyMappingToRefs refs mapping changed).1 mapping changed' =
  ((applyMappingToRefs refs mapping changed).1, changed').
Proof.
  apply applyMappingToRefs_fixed. intros r.
  rewrite applyMappingToRefs_spec. intros (r0 & -> & _)%list_elem_of_fmap.
  apply remapRef_fixed.
Qed.

(** A record whose every field is already remapped is returned as it is,
    and reported as not modified. *)
Lemma applyMapping_fixed item :
  (∀ c, ReplaceAllStringFunc (issue.Body item) (remapMatch mapping) c = (issue.Body item, c)) →
  (∀ c, ReplaceAllStringFunc (issue.Title item) (remapMatch mapping) c = (issue.Title item, c)) →
  (∀ p, issue.Parent item = Some p → mapping !! p = None) →
  (∀ c, applyMappingToRefs (issue.BlockedBy item) mapping c = (issue.BlockedBy item, c)) →
  (∀ c, applyMappingToRefs (issue.Blocks item) mapping c = (issue.Blocks item, c)) →
  applyMapping item mapping = (item, false).
Proof.
  intros Hbody Htitle Hparent Hbb Hbl. unfold applyMapping.
  rewrite Hbody, decide_False by (by intros []).
  rewrite Htitle, decide_False by (by intros []).
  destruct item as [num title body lab asg prj ms ty st sr parent bb bl syn].
  cbn in *. destruct parent as [p|].
  - rewrite (Hparent p eq_refl). cbn. rewrite Hbb. cbn. rewrite Hbl. done.
  - cbn. rewrite Hbb. cbn. rewrite Hbl. done.
Qed.

(** The fields of the record after one remapping. *)
Lemma applyMapping_fields item :
  ∃ c1 c2 c3 c4,
    (applyMapping item mapping).1 =
    issue.mkIssue (issue.Number item)
      (ReplaceAllStringFunc (issue.Title item) (remapMatch mapping) c2).1
      (ReplaceAllStringFunc (issue.Body item) (remapMatch mapping) c1).1
      (issue.Labels item) (issue.Assignees item) (issue.Projects item)
      (issue.Milestone item) (issue.IssueType item) (issue.State item)
      (issue.StateReason item) (remapRef mapping <$> issue.Parent item)
      (applyMappingToRefs (issue.BlockedBy item) mapping c3).1
      (applyMappingToRefs (issue.Blocks item) mapping c4).1
      (issue.SyncedAt item).
Proof.
  destruct item as [num title body lab asg prj ms ty st sr parent bb bl syn].
  unfold applyMapping. cbn [issue.Body].
  exists false.
  destruct (ReplaceAllStringFunc body (remapMatch mapping) false) as [body' c1] eqn:Hb.
  set (step1 := if decide (body' ≠ body) then _ else _).
  assert (∃ c, step1 = (issue.mkIssue num title body' lab asg prj ms ty st sr parent bb bl syn, c))
    as [c2 ->].
  { subst step1. case_decide as Hd; [by eexists|]. rewrite Hd. by eexists. }
  exists c2. cbn [issue.Title].
  destruct (ReplaceAllStringFunc title (remapMatch mapping) c2) as [title' c3] eqn:Ht.
  set (step2 := if decide (title' ≠ title) then _ else _).
  assert (∃ c, step2 = (issue.mkIssue num title' body' lab asg prj ms ty st sr parent bb bl syn, c))
    as [c4 ->].
  { subst step2. case_decide as Hd; [by eexists|]. rewrite Hd. by eexists. }
  cbn [issue.Parent].
  set (step3 := match parent with Some _ => _ | None => _ end).
  assert (∃ c, step3 = (issue.mkIssue num title' body' lab asg prj ms ty st sr
                          (remapRef mapping <$> parent) bb bl syn, c)) as [c5 ->].
  { subst step3. destruct parent as [p|]; [|by eexists].
    cbn. unfold remapRef. destruct (mapping !! p); by eexists. }
  cbn [issue.BlockedBy]. exists c5.
  destruct (applyMappingToRefs bb mapping c5) as [bb' c6] eqn:Hbb.
  cbn [issue.Blocks setBlockedBy]. exists c6.
  destruct (applyMappingToRefs bl mapping c6) as [bl' c7] eqn:Hbl.
  done.
Qed.
End applyMapping_facts.

(** C7: remapping is idempotent.  For every record and every mapping from
    temporary to canonical identifiers, applying [applyMapping] to the
    record it produced, with the same mapping, returns that record again
    and reports it as not modified. *)
Theorem applyMapping_idempotent (item : issue.Issue) (mapping : gmap string string) :
  tempToCanonical mapping →
  applyMapping (applyMapping item mapping).1 mapping = ((applyMapping item mapping).1, false).
Proof.
  intros Hmapping.
  destruct (applyMapping_fields mapping item) as (c1 & c2 & c3 & c4 & ->).
  apply applyMapping_fixed; cbn [issue.Body issue.Title issue.Parent issue.BlockedBy issue.Blocks].
  - intros c. by apply replaceAll_idem.
  - intros c. by apply replaceAll_idem.
  - intros p Hp. destruct (issue.Parent item) as [p0|]; [|done].
    injection Hp as <-. by apply remapRef_fixed.
  - intros c. by apply applyMappingToRefs_idem.
  - intros c. by apply applyMappingToRefs_idem.
Qed.

Lemma applyMapping_idempotent_witness :
  let m : gmap string string := {[ "Tabc1" := "201"; "Tdef2" := "202" ]} in
  let item := issue.mkIssue "Tabc1" "Fix X" "blocks #Tdef2 and #Tzz"
                [] [] [] "" "" "open" None (Some "Tdef2") ["Tabc1"; "9"] [] None in
  tempToCanonical m ∧
  applyMapping (applyMapping item m).1 m = ((applyMapping item m).1, false).
Proof.
  cbv zeta.
  assert (tempToCanonical ({[ "Tabc1" := "201"; "Tdef2" := "202" ]} : gmap string string))
    as Hm.
  { intros k v Hkv.
    apply lookup_insert_Some in Hkv as [[<- <-]|[_ Hkv]]; [by vm_compute|].
    apply lookup_singleton_Some in Hkv as [<- <-]. by vm_compute. }
  split; [exact Hm|].
  apply (applyMapping_idempotent _ _ Hm).
Defined.

Example TrimSpace_ex1 : TrimSpace (" " +:+ NL +:+ " a b " +:+ NL +:+ NL) = "a b".
Proof. vm_compute. reflexivity. Qed.

Example TrimSpace_ex2 :
  TrimSpace (bytes [194; 160] +:+ "x y" +:+ bytes [226; 128; 131; 9]) = "x y".
Proof. vm_compute. reflexivity. Qed.

(** *** Pending comments *)

Example commentFileNumber_ex :
  commentFileNumber "42.comment.md" = Some "42" ∧
  commentFileNumber "42-some-title.comment.md" = Some "42" ∧
  commentFileNumber "Tabc123.comment.md" = Some "Tabc123" ∧
  commentFileNumber "42-.comment.md" = None ∧
  commentFileNumber "42-a.b.comment.md" = None ∧
  commentFileNumber "42a.comment.md" = None ∧
  commentFileNumber "T.comment.md" = None ∧
  commentFileNumber "42.md" = None.
Proof. vm_compute. done. Qed.

(** The tests of [comment_test.go], on the model. *)
Example TestFindPendingCommentPreferred :
  let st := mkStore
    (DirOk {[ "42.comment.md" := RegularFile (Ok "Preferred comment");
              "42-some-title.comment.md" := RegularFile (Ok "Slug comment") ]})
    (DirOk ∅) (DirOk ∅) in
  findPendingComment st OpenDir "42" =
    Some (PendingComment.mk "42" "Preferred comment" (OpenDir, "42.comment.md")) ∧
  findPendingComment st OpenDir "99" = None.
Proof. vm_compute. done. Qed.

Example TestFindPendingCommentWithSlug :
  let st := mkStore
    (DirOk {[ "42-some-title.comment.md" := RegularFile (Ok "Comment with slug") ]})
    (DirOk ∅) (DirOk ∅) in
  findPendingComment st OpenDir "42" =
    Some (PendingComment.mk "42" "Comment with slug" (OpenDir, "42-some-title.comment.md")).
Proof. vm_compute. done. Qed.

Example TestLoadAllPendingComments :
  let st := mkStore
    (DirOk {[ "1.comment.md" := RegularFile (Ok "Open comment") ]})
    (DirOk {[ "2.comment.md" := RegularFile (Ok "Closed comment") ]}) (DirOk ∅) in
  loadAllPendingComments st =
    {[ "1" := PendingComment.mk "1" "Open comment" (OpenDir, "1.comment.md");
       "2" := PendingComment.mk "2" "Closed comment" (ClosedDir, "2.comment.md") ]}.
Proof. vm_compute. done. Qed.

Lemma loadCommentEntry_bodies st dir comments entry :
  (∀ n c, comments !! n = Some c → PendingComment.Body c ≠ "") →
  ∀ n c, loadCommentEntry st dir comments entry !! n = Some c → PendingComment.Body c ≠ "".
Proof.
  intros Hinv n c. unfold loadCommentEntry.
  destruct (IsDir entry); [by apply Hinv|].
  destruct (negb _); [by apply Hinv|].
  destruct (commentFileNumber _) as [number|]; [|by apply Hinv].
  destruct (readPath _ _) as [content|]; [|by apply Hinv].
  destruct (String.eqb_spec (TrimSpace content) "") as [|Hbody]; [by apply Hinv|].
  destruct (comments !! number) eqn:Hnum; [by apply Hinv|].
  intros [[<- <-]|[_ Hc]]%lookup_insert_Some; [done|by eapply Hinv].
Qed.

(** The bulk scan reports no comment with an empty body. *)
Lemma loadAllPendingComments_bodies st n c :
  loadAllPendingComments st !! n = Some c → PendingComment.Body c ≠ "".
Proof.
  unfold loadAllPendingComments. revert n c.
  assert (∀ dirs (comments : gmap string PendingComment.t),
            (∀ n c, comments !! n = Some c → PendingComment.Body c ≠ "") →
            ∀ n c,
              foldl (λ comments dir,
                       match ReadDir st dir with
                       | Err _ => comments
                       | Ok entries => foldl (loadCommentEntry st dir) comments entries
                       end) comments dirs !! n = Some c →
              PendingComment.Body c ≠ "") as Hdirs.
  { induction dirs as [|dir dirs IH]; intros comments Hinv; [done|].
    cbn [foldl]. apply IH.
    destruct (ReadDir st dir) as [entries|]; [|done].
    clear IH. revert comments Hinv.
    induction entries as [|entry entries IHe]; intros comments Hinv; [done|].
    cbn [foldl]. apply IHe. by apply loadCommentEntry_bodies. }
  apply Hdirs. intros n c. by rewrite lookup_empty.
Qed.

(** The lookup by number reports the preferred file whenever it can be
    read, whatever is in it. *)
Lemma findPendingComment_preferred st dir number content :
  readPath st (dir, number +:+ ".comment.md") = Ok content →
  findPendingComment st dir number =
    Some (PendingComment.mk number (TrimSpace content) (dir, number +:+ ".comment.md")).
Proof. intros Hread. unfold findPendingComment. cbv zeta. by rewrite Hread. Qed.

(** C9: a comment side-file of white space only.  The bulk scan
    [loadAllPendingComments] skips it, as it skips every file whose
    trimmed body is empty; the lookup [findPendingComment] does not: it
    reports the file as a pending comment, with an empty body, and so does
    [findPendingCommentForIssue]. *)
Theorem findPendingComment_blank_file :
  let blank := "   " +:+ NL +:+ NL +:+ "  " in
  let st := mkStore (DirOk {[ "42.comment.md" := RegularFile (Ok blank) ]})
              (DirOk ∅) (DirOk ∅) in
  TrimSpace blank = "" ∧
  loadAllPendingComments st = ∅ ∧
  findPendingComment st OpenDir "42" =
    Some (PendingComment.mk "42" "" (OpenDir, "42.comment.md")) ∧
  findPendingCommentForIssue st "42" "open" =
    Some (PendingComment.mk "42" "" (OpenDir, "42.comment.md")) ∧
  (∀ st' n c, loadAllPendingComments st' !! n = Some c → PendingComment.Body c ≠ "") ∧
  (∀ st' dir n content,
     readPath st' (dir, n +:+ ".comment.md") = Ok content →
     findPendingComment st' dir n =
       Some (PendingComment.mk n (TrimSpace content) (dir, n +:+ ".comment.md"))).
Proof.
  cbv zeta. split_and!.
  - vm_compute. reflexivity.
  - vm_compute. reflexivity.
  - vm_compute. reflexivity.
  - vm_compute. reflexivity.
  - apply loadAllPendingComments_bodies.
  - apply findPendingComment_preferred.
Qed.

(** *** Pull: the examples of the design document *)

(** Original open, local unchanged, remote closed as completed: the
    local file moves to [closed/], holds the remote record, and so does
    the snapshot. *)
Example Pull_clean_remote_update :
  let original := bug7 "A" "open" None in
  let remote := bug7 "A" "CLOSED" (Some "completed") in
  let w := (Pull slugBug (appWith remote) (mkPullOptions false false []) ["7"]
              (worldOf (storeWith original original))).2 in
  fsops w = [OpRename (OpenDir, "7-bug.md") (ClosedDir, "7-bug.md");
             OpWriteFile (ClosedDir, "7-bug.md"); OpWriteFile (OriginalsDir, "7.md")] ∧
  readPath (store w) (ClosedDir, "7-bug.md") = Ok (stamped (appWith remote) remote 0) ∧
  readPath (store w) (OpenDir, "7-bug.md") = Err ErrNotExist ∧
  readOriginalIssue (store w) "7" = Some (stamped (appWith remote) remote 0) ∧
  out w = [IssueHeader "U" "7" "Bug"; FileChange (OpenDir, "7-bug.md") (ClosedDir, "7-bug.md")].
Proof. vm_compute. done. Qed.

(** Original body "A", local "A-edited", remote "A-remote": a conflict,
    the local file as it was. *)
Example Pull_conflict :
  let original := bug7 "A" "open" None in
  let local := bug7 "A-edited" "open" None in
  let remote := bug7 "A-remote" "OPEN" None in
  let w0 := worldOf (storeWith local original) in
  let w := (Pull slugBug (appWith remote) (mkPullOptions false false []) ["7"] w0).2 in
  fsops w = [] ∧ store w = store w0 ∧ out w = [ConflictsLine ["7"]].
Proof. vm_compute. done. Qed.

(** *** The store under writes *)

Lemma dirState_setDir_eq {C} (st : Store C) d ds : dirState (setDir st d ds) d = ds.
Proof. by destruct d. Qed.

Lemma dirState_setDir_ne {C} (st : Store C) d d' ds :
  d' ≠ d → dirState (setDir st d ds) d' = dirState st d'.
Proof. by destruct d, d'. Qed.

Lemma readPath_WriteFile_eq st path item st' :
  WriteFile st path item = Ok st' → readPath st' path = Ok item.
Proof.
  unfold WriteFile, readPath. destruct path as [d name]. cbn [fst snd].
  destruct (dirState st d) as [| |nodes] eqn:Hd; try done.
  destruct (nodes !! name) as [[|content]|] eqn:Hn; try done;
    intros [= <-]; by rewrite dirState_setDir_eq, lookup_insert_eq.
Qed.

Lemma readPath_WriteFile_ne st path item st' other :
  WriteFile st path item = Ok st' → other ≠ path → readPath st' other = readPath st other.
Proof.
  unfold WriteFile, readPath. destruct path as [d name], other as [d' name'].
  cbn [fst snd]. intros Hw Hne.
  assert (st' = setDir st d (DirOk (<[name := RegularFile (Ok item)]>
            (match dirState st d with DirOk nodes => nodes | _ => ∅ end))) ∧
          ∃ nodes, dirState st d = DirOk nodes) as [-> [nodes Hd]].
  { destruct (dirState st d) as [| |nodes]; try done.
    destruct (nodes !! name) as [[|content]|]; try done; injection Hw as <-; eauto. }
  rewrite Hd. destruct (decide (d' = d)) as [->|Hdd].
  - rewrite dirState_setDir_eq, Hd, lookup_insert_ne by congruence. done.
  - by rewrite dirState_setDir_ne.
Qed.

Lemma readOriginalIssue_write st item st' :
  writeOriginalIssue st item = Ok st' →
  readOriginalIssue st' (issue.Number item) = Some item.
Proof.
  unfold writeOriginalIssue, readOriginalIssue. intros Hw.
  by rewrite (readPath_WriteFile_eq _ _ _ _ Hw).
Qed.

(** *** One turn of the reconcile loop *)

Lemma bind_run {A B} (m : M A) (f : A → M B) (w : World) :
  (m ≫= f) w =
  match m w with (Ok v, w') => f v w' | (Err e, w') => (Err e, w') end.
Proof. reflexivity. Qed.

Lemma ret_run {A} (v : A) (w : World) : (mret v : M A) w = (Ok v, w).
Proof. reflexivity. Qed.

Lemma fileOp_run f op (w : World) :
  fileOp f op w =
  match f (store w) with
  | Ok st => (Ok (), mkWorld st (calls w) (out w) (fsops w ++ [op]) (lastFullPull w))
  | Err e => (Err e, w)
  end.
Proof. reflexivity. Qed.

Ltac munfold :=
  unfold mbind, M_bind, mret, M_ret, fileOp, print, printAll, now, getStore, fail in *.

Section reconcile_facts.
Variable slugify : string → string.
Variable a : App.

(** What [applyRemote] can return: the record counted as unchanged and
    nothing touched, or the record written and the snapshot with it, or
    an error of the file system. *)
Lemma applyRemote_outcome local original remote acc w :
  let newPath :=
    PathFor slugify (targetDirOf remote) (issue.Number remote) (issue.Title remote) in
  let r := applyRemote slugify a local original remote acc w in
  (r = (Ok (acc.1, S acc.2), w) ∧ is_Some original ∧
   ∃ l, local = Some l ∧ EqualIgnoringSyncedAt (IssueFile.Issue l) remote = true ∧
        IssueFile.Path l = newPath) ∨
  (r.1 = Ok acc ∧ readPath (store r.2) newPath = Ok remote ∧
   readOriginalIssue (store r.2) (issue.Number remote) = Some remote ∧
   fsops r.2 ≠ fsops w) ∨
  (∃ e, r.1 = Err e).
Proof.
  cbv zeta. unfold applyRemote.
  set (newPath := PathFor slugify _ _ _).
  destruct (bool_decide (is_Some original) && _ && _) eqn:Hsame.
  { left. apply andb_true_iff in Hsame as [Hsame Hpath].
    apply andb_true_iff in Hsame as [Horig%bool_decide_eq_true Hcontent].
    split_and!; [done..|].
    destruct local as [l|]; [|done]. exists l.
    apply negb_true_iff, bool_decide_eq_false in Hpath.
    apply negb_true_iff, negb_false_iff in Hcontent.
    split_and!; [done..|]. by apply dec_stable. }
  right. clear Hsame.
  assert (∀ (w' : World) (ops : list FsOp),
            fsops w' = fsops w ++ ops →
            let r := (fileOp (λ st, WriteFile st newPath remote) (OpWriteFile newPath);;
                      fileOp (λ st, writeOriginalIssue st remote)
                        (OpWriteFile (OriginalsDir, issue.Number remote +:+ ".md"));;
                      match local with
                      | None =>
                          print (IssueHeader "A" (issue.Number remote) (issue.Title remote));;
                          mret acc
                      | Some l =>
                          let lines :=
                            ChangeLine <$> formatChangeLines a (IssueFile.Issue l) remote in
                          let lines :=
                            if (length lines =? 0) &&
                               match local with
                               | Some l => bool_decide (IssueFile.Path l ≠ newPath)
                               | None => false
                               end
                            then lines ++ [FileChange (IssueFile.Path l) newPath] else lines in
                          print (IssueHeader "U" (issue.Number remote) (issue.Title remote));;
                          printAll lines;;
                          mret acc
                      end) w' in
            (r.1 = Ok acc ∧ readPath (store r.2) newPath = Ok remote ∧
             readOriginalIssue (store r.2) (issue.Number remote) = Some remote ∧
             fsops r.2 ≠ fsops w) ∨ (∃ e, r.1 = Err e)) as Hwrite.
  { intros w' ops Hops. cbv zeta. munfold.
    destruct (WriteFile (store w') newPath remote) as [st2|e] eqn:Hw2; [|right; by exists e].
    cbn [store].
    destruct (writeOriginalIssue st2 remote) as [st3|e] eqn:Hw3; [|right; by exists e].
    left.
    assert (readPath st3 newPath = Ok remote) as Hfile.
    { unfold writeOriginalIssue in Hw3.
      rewrite (readPath_WriteFile_ne _ _ _ _ newPath Hw3).
      - by eapply readPath_WriteFile_eq.
      - unfold newPath, PathFor, targetDirOf. case_decide; cbn; congruence. }
    pose proof (readOriginalIssue_write _ _ _ Hw3) as Horig.
    assert (∀ l1 l2 : list FsOp, l2 ≠ [] → l1 ++ l2 ≠ l1) as Hne.
    { intros l1 l2 Hl2 Heq. apply (f_equal length) in Heq.
      rewrite length_app in Heq. destruct l2; [done|cbn in Heq; lia]. }
    destruct local as [l|]; cbn; split_and!; try done; rewrite Hops;
      rewrite <- !app_assoc; apply Hne; by destruct ops. }
  destruct local as [l|].
  - case_bool_decide as Hpath.
    + rewrite bind_run, fileOp_run.
      destruct (Rename (store w) (IssueFile.Path l) newPath) as [st1|e];
        [|right; exists e; reflexivity].
      apply (Hwrite _ [OpRename (IssueFile.Path l) newPath]). done.
    + rewrite bind_run, ret_run.
      apply (Hwrite w []). by rewrite app_nil_r.
  - rewrite bind_run, ret_run.
    apply (Hwrite w []). by rewrite app_nil_r.
Qed.
End reconcile_facts.

Section conflict_facts.
Variable slugify : string → string.
Variable a : App.

Lemma reconcileRemote_run opts localByNumber acc remote w :
  reconcileRemote slugify a opts localByNumber acc remote w =
  let local := localByNumber !! issue.Number remote in
  let original := readOriginalIssue (store w) (issue.Number remote) in
  if bool_decide (is_Some local) && localChangedOf local original && negb (Force opts)
  then (Ok (acc.1 ++ [issue.Number remote], acc.2), tick w)
  else applyRemote slugify a local original (stamped a remote (calls w)) acc (tick w).
Proof.
  unfold reconcileRemote. rewrite bind_run. unfold now at 1. rewrite bind_run.
  unfold getStore at 1. cbn [store issue.Number setSyncedAt setState]. cbv zeta.
  by destruct (bool_decide _ && _ && _).
Qed.

(** A record that goes through [applyRemote] is not added to the
    conflicts. *)
Lemma applyRemote_no_conflict local original remote acc w number :
  (applyRemote slugify a local original remote acc w).1 ≠ Ok (acc.1 ++ [number], acc.2).
Proof.
  destruct (applyRemote_outcome slugify a local original remote acc w)
    as [(-> & _)|[(-> & _)|(e & ->)]]; cbn.
  - intros [= _ Hn]. lia.
  - destruct acc as [conflicts unchanged]. cbn. intros [= Hc].
    apply (f_equal length) in Hc. rewrite length_app in Hc. cbn in Hc. lia.
  - done.
Qed.
End conflict_facts.

(** C1: for a record with a local copy, an original snapshot and a fetched
    remote copy, and without the force flag, the pull reports the record
    as a conflict exactly when the local copy differs from the snapshot
    (ignoring SyncedAt), whatever the remote copy is; a record so reported
    is skipped: no file is touched, nothing is printed for it. *)
Theorem reconcile_conflict_iff (slugify : string → string) (a : App) (opts : PullOptions)
    (localByNumber : gmap string IssueFile.t) (acc : list string * nat)
    (remote : issue.Issue) (w : World) (l : IssueFile.t) (o : issue.Issue) :
  localByNumber !! issue.Number remote = Some l →
  readOriginalIssue (store w) (issue.Number remote) = Some o →
  Force opts = false →
  let r := reconcileRemote slugify a opts localByNumber acc remote w in
  (r.1 = Ok (acc.1 ++ [issue.Number remote], acc.2) ↔
   EqualIgnoringSyncedAt (IssueFile.Issue l) o = false) ∧
  (EqualIgnoringSyncedAt (IssueFile.Issue l) o = false →
   store r.2 = store w ∧ fsops r.2 = fsops w ∧ out r.2 = out w).
Proof.
  intros Hl Ho Hforce. cbv zeta. rewrite reconcileRemote_run. cbv zeta.
  rewrite Hl, Ho, Hforce. cbn [localChangedOf negb].
  rewrite bool_decide_eq_true_2 by eauto. rewrite andb_true_l, andb_true_r.
  destruct (EqualIgnoringSyncedAt (IssueFile.Issue l) o) eqn:Heq; cbn [negb].
  - split; [|done]. split; [|done]. intros Hr. by apply applyRemote_no_conflict in Hr.
  - done.
Qed.

Lemma reconcile_conflict_iff_witness :
  let original := bug7 "A" "open" None in
  let local := IssueFile.mk (bug7 "A-edited" "open" None) (OpenDir, "7-bug.md") "open" in
  let remote := bug7 "A-remote" "OPEN" None in
  let w := worldOf (storeWith (IssueFile.Issue local) original) in
  let r := reconcileRemote slugBug (appWith remote) (mkPullOptions false false [])
             {[ "7" := local ]} ([], 0) remote w in
  (r.1 = Ok (["7"], 0) ↔ EqualIgnoringSyncedAt (IssueFile.Issue local) original = false) ∧
  (EqualIgnoringSyncedAt (IssueFile.Issue local) original = false →
   store r.2 = store w ∧ fsops r.2 = fsops w ∧ out r.2 = out w).
Proof.
  cbv zeta.
  apply (reconcile_conflict_iff slugBug (appWith (bug7 "A-remote" "OPEN" None))
           (mkPullOptions false false [])
           {[ "7" := IssueFile.mk (bug7 "A-edited" "open" None) (OpenDir, "7-bug.md") "open" ]}
           ([], 0) (bug7 "A-remote" "OPEN" None)
           (worldOf (storeWith (bug7 "A-edited" "open" None) (bug7 "A" "open" None)))
           (IssueFile.mk (bug7 "A-edited" "open" None) (OpenDir, "7-bug.md") "open")
           (bug7 "A" "open" None)).
  - vm_compute. reflexivity.
  - vm_compute. reflexivity.
  - reflexivity.
Defined.

(** The local copy was edited, the remote copy still equals the snapshot:
    the pull reports a conflict all the same. *)
Lemma Pull_conflict_remote_unchanged :
  let original := bug7 "A" "open" None in
  let local := bug7 "A-edited" "open" None in
  let remote := bug7 "A" "OPEN" None in
  let w0 := worldOf (storeWith local original) in
  let run := Pull slugBug (appWith remote) (mkPullOptions false false []) ["7"] w0 in
  EqualIgnoringSyncedAt local original = false ∧
  EqualIgnoringSyncedAt (stamped (appWith remote) remote 0) original = true ∧
  run.1 = Ok () ∧ out run.2 = [ConflictsLine ["7"]] ∧ store run.2 = store w0.
Proof. vm_compute. done. Qed.

(** C8: the force flag applies exactly to the records the pull would
    report as conflicts, those whose local copy differs from the original
    snapshot or has none, whatever the remote copy is.  With force such a
    record takes the path of every record that is not skipped: unless the
    local file already equals the remote record at the right path and a
    snapshot exists (then it is counted as unchanged), the local file is
    overwritten with the remote record and the snapshot refreshed to
    match.  A record whose local copy equals its snapshot, or that has no
    local copy, is handled the same with and without force. *)
Theorem force_override (slugify : string → string) (a : App) (opts : PullOptions)
    (localByNumber : gmap string IssueFile.t) (acc : list string * nat)
    (remote : issue.Issue) (w : World) :
  let number := issue.Number remote in
  let local := localByNumber !! number in
  let original := readOriginalIssue (store w) number in
  let remote' := stamped a remote (calls w) in
  let newPath := PathFor slugify (targetDirOf remote') number (issue.Title remote') in
  let forced := reconcileRemote slugify a (withForce opts true) localByNumber acc remote w in
  let plain := reconcileRemote slugify a (withForce opts false) localByNumber acc remote w in
  (localChangedOf local original = false → forced = plain) ∧
  (localChangedOf local original = true →
     plain = (Ok (acc.1 ++ [number], acc.2), tick w) ∧
     forced = applyRemote slugify a local original remote' acc (tick w)) ∧
  (∀ acc', forced.1 = Ok acc' →
     (acc' = acc ∧ readPath (store forced.2) newPath = Ok remote' ∧
      readOriginalIssue (store forced.2) number = Some remote') ∨
     (acc' = (acc.1, S acc.2) ∧ store forced.2 = store w ∧ is_Some original ∧
      ∃ l, local = Some l ∧ EqualIgnoringSyncedAt (IssueFile.Issue l) remote' = true ∧
           IssueFile.Path l = newPath)).
Proof.
  cbv zeta. rewrite !reconcileRemote_run. cbv zeta. cbn [withForce Force negb].
  rewrite andb_false_r, andb_true_r.
  split_and!.
  - intros ->. by rewrite andb_false_r.
  - intros Hchanged. rewrite Hchanged, andb_true_r.
    assert (is_Some (localByNumber !! issue.Number remote)) as Hsome.
    { destruct (localByNumber !! issue.Number remote); [eauto|done]. }
    by rewrite bool_decide_eq_true_2.
  - intros acc' Hacc.
    destruct (applyRemote_outcome slugify a (localByNumber !! issue.Number remote)
                (readOriginalIssue (store w) (issue.Number remote))
                (stamped a remote (calls w)) acc (tick w))
      as [(Hr & Horig & l & Hl & Heq & Hpath)|[(Hr & Hfile & Hsnap & _)|(e & Hr)]].
    + right. rewrite Hr in Hacc |- *. cbn in Hacc. injection Hacc as <-.
      split_and!; [done..|]. exists l. done.
    + left. rewrite Hr in Hacc. injection Hacc as <-. done.
    + rewrite Hr in Hacc. done.
Qed.

(** The local copy was edited and the remote copy still equals the
    snapshot: not a record that diverged on both sides, yet force changes
    what happens to it.  Without force it is skipped and the edit stays;
    with force the edit is overwritten by the remote record. *)
Lemma Pull_force_remote_unchanged :
  let original := bug7 "A" "open" None in
  let local := bug7 "A-edited" "open" None in
  let remote := bug7 "A" "OPEN" None in
  let w0 := worldOf (storeWith local original) in
  let plain := Pull slugBug (appWith remote) (mkPullOptions false false []) ["7"] w0 in
  let forced := Pull slugBug (appWith remote) (mkPullOptions false true []) ["7"] w0 in
  EqualIgnoringSyncedAt (stamped (appWith remote) remote 0) original = true ∧
  readPath (store plain.2) (OpenDir, "7-bug.md") = Ok local ∧
  readPath (store forced.2) (OpenDir, "7-bug.md") = Ok (stamped (appWith remote) remote 0) ∧
  fsops plain.2 = [] ∧
  fsops forced.2 = [OpWriteFile (OpenDir, "7-bug.md"); OpWriteFile (OriginalsDir, "7.md")].
Proof. vm_compute. done. Qed.

(** *** Loading the local record store *)

Lemma foldl_loadEntry st dir state entries result :
  let files := filter (λ e, IsDir e = false ∧ HasSuffix (Name e) ".md" = true) entries in
  foldl (loadEntry st dir state) result entries =
  LoadResult.mk (LoadResult.Issues result ++ parsedOf st dir state files)
                (LoadResult.Errors result ++ failedOf st dir files).
Proof.
  cbv zeta. revert result.
  induction entries as [|e entries IH]; intros [issues errors]; cbn [foldl].
  { cbn. by rewrite !app_nil_r. }
  rewrite IH, filter_cons. unfold loadEntry.
  destruct (IsDir e) eqn:Hdir.
  { rewrite decide_False by (intros [? _]; done). done. }
  destruct (HasSuffix (Name e) ".md") eqn:Hmd; cbn [negb].
  - rewrite decide_True by done. unfold parsedOf, failedOf. cbn [omap list_omap].
    destruct (readPath st (dir, Name e)); cbn; by rewrite <- !app_assoc.
  - rewrite decide_False by (intros [_ ?]; done). done.
Qed.

Lemma loadDirs_readable st result :
  (∀ msg, openDir st ≠ DirUnreadable msg) →
  (∀ msg, closedDir st ≠ DirUnreadable msg) →
  loadDirs st [(OpenDir, "open"); (ClosedDir, "closed")] result =
  LoadResult.mk
    (LoadResult.Issues result ++ parsedIn st OpenDir "open" ++ parsedIn st ClosedDir "closed")
    (LoadResult.Errors result ++ failedIn st OpenDir ++ failedIn st ClosedDir).
Proof.
  intros Hopen Hclosed. unfold parsedIn, failedIn, recordEntries. cbn [loadDirs].
  assert (∀ d, d = OpenDir ∨ d = ClosedDir →
            (ReadDir st d = Err ErrNotExist) ∨ ∃ entries, ReadDir st d = Ok entries)
    as Hread.
  { intros d Hd. unfold ReadDir.
    destruct (dirState st d) as [|msg|nodes] eqn:Hds; [by left| |right; eauto].
    destruct Hd as [-> | ->]; cbn in Hds; [by apply Hopen in Hds|by apply Hclosed in Hds]. }
  destruct result as [issues errors]. cbn [LoadResult.Issues LoadResult.Errors].
  destruct (Hread OpenDir) as [-> | [es1 ->]]; [by left|..];
    destruct (Hread ClosedDir) as [-> | [es2 ->]]; try (by right);
    rewrite ?foldl_loadEntry; cbn [LoadResult.Issues LoadResult.Errors];
    unfold parsedOf, failedOf; cbn [omap list_omap];
    rewrite ?app_nil_r, <- ?app_assoc; reflexivity.
Qed.

Lemma Pull_load_error slugify a opts args w first rest :
  LoadResult.Errors (loadLocalIssuesWithErrors (store w)) = first :: rest →
  configError a = None → lockError a = None →
  Pull slugify a opts args w = (Err (ParseError.asError first), w).
Proof.
  intros Herr Hcfg Hlock.
  assert (loadLocalIssues (store w) = Err (ParseError.asError first)) as Hload.
  { unfold loadLocalIssues. cbv zeta. by rewrite Herr. }
  unfold Pull. rewrite Hcfg, Hlock.
  rewrite bind_run, ret_run, bind_run, ret_run, bind_run.
  unfold loadLocalIssuesM at 1. by rewrite Hload.
Qed.

(** C2: loading the local record store tolerates malformed files.  Where
    the two record directories can be listed (or are missing),
    [loadLocalIssuesWithErrors] goes through every record file: it returns
    every record that parses, and for every file that does not its path
    and the cause.  The strict [loadLocalIssues], which [Pull] loads with,
    turns the first collected failure into its error: a pull of a store
    with a malformed record file ends with that error, before it fetches
    or changes anything. *)
Theorem load_collects_parse_errors (st : Store issue.Issue) :
  (∀ msg, openDir st ≠ DirUnreadable msg) →
  (∀ msg, closedDir st ≠ DirUnreadable msg) →
  let result := loadLocalIssuesWithErrors st in
  LoadResult.Issues result = parsedIn st OpenDir "open" ++ parsedIn st ClosedDir "closed" ∧
  LoadResult.Errors result = failedIn st OpenDir ++ failedIn st ClosedDir ∧
  (LoadResult.Errors result = [] → loadLocalIssues st = Ok (LoadResult.Issues result)) ∧
  (∀ first rest, LoadResult.Errors result = first :: rest →
     loadLocalIssues st = Err (ParseError.asError first) ∧
     ∀ slugify a opts args w,
       store w = st → configError a = None → lockError a = None →
       Pull slugify a opts args w = (Err (ParseError.asError first), w)).
Proof.
  intros Hopen Hclosed. cbv zeta. unfold loadLocalIssuesWithErrors at 1 2.
  rewrite loadDirs_readable by done. cbn [LoadResult.Issues LoadResult.Errors app].
  split_and!; [done..| |].
  - intros Hnone. unfold loadLocalIssues. cbv zeta. by rewrite Hnone.
  - intros first rest Herr. split.
    + unfold loadLocalIssues. cbv zeta. by rewrite Herr.
    + intros slugify a opts args w <- Hcfg Hlock. by eapply Pull_load_error.
Qed.

Lemma load_collects_parse_errors_witness :
  let st := mkStore
    (DirOk {[ "7-bug.md" := RegularFile (Ok (bug7 "A" "open" None));
              "notes.md" := RegularFile (Err (ErrOther "no front matter"));
              "7.comment.md" := RegularFile (Err (ErrOther "no front matter"));
              "readme.txt" := RegularFile (Err (ErrOther "no front matter"));
              "drafts" := SubDirectory ]})
    DirMissing (DirOk ∅) in
  LoadResult.Issues (loadLocalIssuesWithErrors st) =
    [IssueFile.mk (bug7 "A" "open" None) (OpenDir, "7-bug.md") "open"] ∧
  LoadResult.Errors (loadLocalIssuesWithErrors st) =
    failedIn st OpenDir ++ failedIn st ClosedDir.
Proof.
  cbv zeta. split; [vm_compute; reflexivity|].
  eapply load_collects_parse_errors; by intros msg.
Defined.

(** One malformed record file, and the pull is over before it started:
    the remote update of record 7 is not applied. *)
Lemma Pull_aborts_on_malformed_file :
  let original := bug7 "A" "open" None in
  let remote := bug7 "A-remote" "OPEN" None in
  let st := mkStore
    (DirOk {[ "7-bug.md" := RegularFile (Ok original);
              "notes.md" := RegularFile (Err (ErrOther "no front matter")) ]})
    (DirOk ∅) (DirOk {[ "7.md" := RegularFile (Ok original) ]}) in
  loadLocalIssuesWithErrors st =
    LoadResult.mk [IssueFile.mk original (OpenDir, "7-bug.md") "open"]
                  [ParseError.mk (OpenDir, "notes.md") (ErrOther "no front matter")] ∧
  Pull slugBug (appWith remote) (mkPullOptions false false []) [] (worldOf st) =
    (Err (ErrParse (OpenDir, "notes.md") (ErrOther "no front matter")), worldOf st) ∧
  Pull slugBug (appWith remote) (mkPullOptions false false []) ["7"] (worldOf st) =
    (Err (ErrParse (OpenDir, "notes.md") (ErrOther "no front matter")), worldOf st).
Proof. vm_compute. done. Qed.

(** *** The reconcile loop leaves nothing to do *)

(** *** The store, node by node *)

Lemma readPath_nodeAt {C} (st : Store C) (q : FilePath) :
  readPath st q =
  match dirKind (dirState st q.1) with
  | DirMissing => Err ErrNotExist
  | DirUnreadable msg => Err (ErrOther msg)
  | DirOk _ =>
      match nodeAt st q with
      | None => Err ErrNotExist
      | Some SubDirectory => Err (ErrOther "is a directory")
      | Some (RegularFile content) => content
      end
  end.
Proof. unfold readPath, nodeAt. by destruct (dirState st q.1). Qed.

Lemma readPath_Ok_nodeAt {C} (st : Store C) (q : FilePath) (v : C) :
  nodeAt st q = Some (RegularFile (Ok v)) → readPath st q = Ok v.
Proof.
  unfold readPath, nodeAt. destruct (dirState st q.1); try done. by intros ->.
Qed.

Lemma nodeAt_setDir_eq {C} (st : Store C) d nodes name :
  nodeAt (setDir st d (DirOk nodes)) (d, name) = nodes !! name.
Proof. unfold nodeAt. cbn [fst snd]. by rewrite dirState_setDir_eq. Qed.

Lemma nodeAt_setDir_ne {C} (st : Store C) d ds q :
  q.1 ≠ d → nodeAt (setDir st d ds) q = nodeAt st q.
Proof. intros Hne. unfold nodeAt. by rewrite dirState_setDir_ne. Qed.

Lemma dirKind_setDir {C} (st : Store C) d nodes nodes' d' :
  dirState st d = DirOk nodes →
  dirKind (dirState (setDir st d (DirOk nodes')) d') = dirKind (dirState st d').
Proof.
  intros Hd. destruct (decide (d' = d)) as [->|Hne].
  - by rewrite dirState_setDir_eq, Hd.
  - by rewrite dirState_setDir_ne.
Qed.

Lemma WriteFile_Ok st p item st' :
  WriteFile st p item = Ok st' →
  (∀ q, nodeAt st' q = if decide (q = p) then Some (RegularFile (Ok item)) else nodeAt st q) ∧
  (∀ d, dirKind (dirState st' d) = dirKind (dirState st d)).
Proof.
  unfold WriteFile. destruct p as [d name]. cbn [fst snd].
  destruct (dirState st d) as [| |nodes] eqn:Hd; try done.
  intros Hw.
  assert (st' = setDir st d (DirOk (<[name := RegularFile (Ok item)]> nodes))) as ->.
  { destruct (nodes !! name) as [[|c]|]; try done; by injection Hw. }
  split.
  - intros [d' name']. destruct (decide (d' = d)) as [->|Hdd].
    + rewrite nodeAt_setDir_eq. unfold nodeAt. cbn [fst snd]. rewrite Hd.
      destruct (decide (name' = name)) as [->|Hnn].
      * by rewrite lookup_insert_eq, decide_True.
      * rewrite lookup_insert_ne by done. by rewrite decide_False by congruence.
    + rewrite nodeAt_setDir_ne by done. by rewrite decide_False by congruence.
  - intros d'. by eapply dirKind_setDir.
Qed.

Lemma Rename_Ok {C} (st : Store C) src dst st' :
  Rename st src dst = Ok st' → src ≠ dst →
  (∀ q, nodeAt st' q =
        if decide (q = dst) then nodeAt st src
        else if decide (q = src) then None else nodeAt st q) ∧
  (∀ d, dirKind (dirState st' d) = dirKind (dirState st d)).
Proof.
  unfold Rename. destruct src as [ds ns], dst as [dd nd]. cbn [fst snd].
  destruct (dirState st ds) as [| |nodes] eqn:Hds; try done.
  destruct (nodes !! ns) as [node|] eqn:Hnode; try done.
  cbv zeta.
  set (st1 := setDir st ds (DirOk (delete ns nodes))).
  destruct (dirState st1 dd) as [| |nodes'] eqn:Hdd; try done.
  intros Hr Hne.
  assert (st' = setDir st1 dd (DirOk (<[nd := node]> nodes'))) as ->.
  { destruct (nodes' !! nd) as [[|c]|]; try done; by injection Hr. }
  assert (∀ q, nodeAt st1 q = if decide (q = (ds, ns)) then None else nodeAt st q) as Hst1.
  { intros [d' n']. subst st1. destruct (decide (d' = ds)) as [->|Hd].
    - rewrite nodeAt_setDir_eq. unfold nodeAt. cbn [fst snd]. rewrite Hds.
      destruct (decide (n' = ns)) as [->|Hn].
      + by rewrite lookup_delete_eq, decide_True.
      + rewrite lookup_delete_ne by done. by rewrite decide_False by congruence.
    - rewrite nodeAt_setDir_ne by done. by rewrite decide_False by congruence. }
  split.
  - intros [d' n']. destruct (decide (d' = dd)) as [->|Hd].
    + rewrite nodeAt_setDir_eq.
      destruct (decide (n' = nd)) as [->|Hn].
      * rewrite lookup_insert_eq, decide_True by done.
        unfold nodeAt. cbn [fst snd]. by rewrite Hds.
      * rewrite lookup_insert_ne by done. rewrite decide_False by congruence.
        specialize (Hst1 (dd, n')). unfold nodeAt at 1 in Hst1. cbn [fst snd] in Hst1.
        rewrite Hdd in Hst1. exact Hst1.
    + rewrite nodeAt_setDir_ne by done. rewrite decide_False by congruence. apply Hst1.
  - intros d'. rewrite (dirKind_setDir st1 dd nodes') by done.
    subst st1. by eapply dirKind_setDir.
Qed.

(** *** What a load finds *)

Lemma elem_of_ReadDir {C} (st : Store C) d entries e :
  ReadDir st d = Ok entries →
  e ∈ entries ↔ ∃ node, nodeAt st (d, Name e) = Some node ∧ IsDir e = isSubDirectory node.
Proof.
  unfold ReadDir, nodeAt. cbn [fst snd].
  destruct (dirState st d) as [| |nodes]; try done. intros [= <-].
  rewrite list_elem_of_fmap. split.
  - intros (name & -> & Hname). cbn.
    rewrite sortStrings_perm, elem_of_elements, elem_of_dom in Hname.
    destruct Hname as [node Hnode]. exists node. by rewrite Hnode.
  - intros (node & Hnode & Hdir). exists (Name e). split.
    + destruct e as [name isdir]. cbn in *. by rewrite Hnode, Hdir.
    + rewrite sortStrings_perm, elem_of_elements, elem_of_dom. eauto.
Qed.

Lemma elem_of_parsedIn st d state f :
  f ∈ parsedIn st d state ↔
  ∃ name i, HasSuffix name ".md" = true ∧
            nodeAt st (d, name) = Some (RegularFile (Ok i)) ∧
            f = IssueFile.mk (setState i state) (d, name) state.
Proof.
  unfold parsedIn, parsedOf, recordEntries. rewrite list_elem_of_omap. split.
  - intros (e & He & Hf).
    destruct (ReadDir st d) as [entries|] eqn:Hread; [|by apply elem_of_nil in He].
    apply list_elem_of_filter in He as [[Hdir Hmd] He].
    apply (elem_of_ReadDir _ _ _ _ Hread) in He as (node & Hnode & Hisdir).
    rewrite readPath_nodeAt, Hnode in Hf. cbn [fst] in Hf.
    unfold ReadDir in Hread. destruct (dirState st d); try done. cbn in Hf.
    destruct node as [|[i|err]]; try done.
    injection Hf as <-. eauto.
  - intros (name & i & Hmd & Hnode & ->).
    assert (∃ entries, ReadDir st d = Ok entries) as [entries Hread].
    { unfold ReadDir. unfold nodeAt in Hnode. cbn [fst] in Hnode.
      destruct (dirState st d); try done. eauto. }
    rewrite Hread. exists (mkDirEntry name false). split.
    + apply list_elem_of_filter. split; [done|].
      apply (elem_of_ReadDir _ _ _ _ Hread). eauto.
    + cbn. by rewrite (readPath_Ok_nodeAt _ _ _ Hnode).
Qed.

Lemma failedIn_nil st d :
  recordDir d → namedByNumber st → failedIn st d = [].
Proof.
  intros Hd Hst. unfold failedIn, failedOf, recordEntries.
  destruct (ReadDir st d) as [entries|] eqn:Hread; [|done].
  assert (∀ e, e ∈ filter (λ e, IsDir e = false ∧ HasSuffix (Name e) ".md" = true) entries →
               ∃ i, readPath st (d, Name e) = Ok i) as Hall.
  { intros e [[Hdir Hmd] He]%list_elem_of_filter.
    apply (elem_of_ReadDir _ _ _ _ Hread) in He as (node & Hnode & Hisdir).
    destruct node as [|content]; [by rewrite Hdir in Hisdir|].
    pose proof (files_parse st Hst (d, Name e) content Hd Hmd Hnode) as Hok.
    destruct content as [i|]; [|done]. exists i. by apply readPath_Ok_nodeAt. }
  induction (filter _ entries) as [|e es IH]; [done|]. cbn.
  destruct (Hall e) as [i ->]; [by left|]. apply IH. intros e' He'. apply Hall. by right.
Qed.

Lemma loadLocalIssues_named st :
  namedByNumber st →
  loadLocalIssues st = Ok (parsedIn st OpenDir "open" ++ parsedIn st ClosedDir "closed").
Proof.
  intros Hst. unfold loadLocalIssues, loadLocalIssuesWithErrors. cbv zeta.
  rewrite loadDirs_readable.
  - cbn [LoadResult.Errors LoadResult.Issues app].
    rewrite (failedIn_nil st OpenDir) by (done || (left; done)).
    rewrite (failedIn_nil st ClosedDir) by (done || (right; done)). done.
  - intros msg. apply (dirs_listable st Hst OpenDir). by left.
  - intros msg. apply (dirs_listable st Hst ClosedDir). by right.
Qed.

Lemma indexByNumber_snoc L f :
  indexByNumber (L ++ [f]) = <[issue.Number (IssueFile.Issue f) := f]> (indexByNumber L).
Proof. unfold indexByNumber. by rewrite foldl_app. Qed.

Lemma indexByNumber_Some L n f :
  indexByNumber L !! n = Some f → f ∈ L ∧ issue.Number (IssueFile.Issue f) = n.
Proof.
  induction L as [|x L IH] using rev_ind; [done|].
  rewrite indexByNumber_snoc, lookup_insert_Some.
  intros [[<- <-]|[_ Hf]].
  - split; [|done]. apply elem_of_app. right. by left.
  - destruct (IH Hf). split; [|done]. apply elem_of_app. by left.
Qed.

Lemma indexByNumber_None L n f :
  indexByNumber L !! n = None → f ∈ L → issue.Number (IssueFile.Issue f) ≠ n.
Proof.
  induction L as [|x L IH] using rev_ind; [by intros _ ?%elem_of_nil|].
  rewrite indexByNumber_snoc, lookup_insert_None.
  intros [Hnone Hx] [Hf|Hf%list_elem_of_singleton]%elem_of_app; [by apply IH|].
  by subst.
Qed.

Lemma accurate_load st n :
  accurate (indexByNumber (parsedIn st OpenDir "open" ++ parsedIn st ClosedDir "closed")) st n.
Proof.
  split.
  - intros f [Hf Hn]%indexByNumber_Some.
    apply elem_of_app in Hf as [Hf|Hf];
      apply elem_of_parsedIn in Hf as (name & i & Hmd & Hnode & ->).
    + exists (OpenDir, name), i. split; [|done]. split; [by left|done].
    + exists (ClosedDir, name), i. split; [|done]. split; [by right|done].
  - intros Hnone [d name] i (Hd & Hmd & Hnode) Hn. cbn [fst snd] in *.
    eapply (indexByNumber_None _ _ (loadedFrom (d, name) i) Hnone); [|done].
    apply elem_of_app. destruct Hd as [-> | ->]; [left|right];
      apply elem_of_parsedIn; eauto.
Qed.

Lemma accurate_unique st n L L' :
  namedByNumber st → accurate L st n → accurate L' st n → L !! n = L' !! n.
Proof.
  intros Hst [HS HN] [HS' HN'].
  destruct (L !! n) as [f|] eqn:Hf, (L' !! n) as [f'|] eqn:Hf'; try done.
  - destruct (HS f eq_refl) as (p & i & Hrec & Hn & ->).
    destruct (HS' f' eq_refl) as (p' & i' & Hrec' & Hn' & ->).
    assert (p = p') as <- by (eapply (one_per_number st Hst); eauto; congruence).
    destruct Hrec as (_ & _ & Hnode), Hrec' as (_ & _ & Hnode').
    rewrite Hnode in Hnode'. by injection Hnode' as <-.
  - destruct (HS f eq_refl) as (p & i & Hrec & Hn & _).
    by destruct (HN' eq_refl p i Hrec).
  - destruct (HS' f' eq_refl) as (p & i & Hrec & Hn & _).
    by destruct (HN eq_refl p i Hrec).
Qed.

Lemma accurate_sameView L st st' n :
  sameView n st st' → accurate L st n → accurate L st' n.
Proof.
  intros [Hrec _] [HS HN]. split.
  - intros f Hf. destruct (HS f Hf) as (p & i & Hr & Hn & ->).
    exists p, i. split_and!; [by apply Hrec|done..].
  - intros Hnone p i Hr Hn. apply (HN Hnone p i); [|done]. by apply Hrec.
Qed.

(** *** Names and paths *)

Lemma substring_app_r (x y : string) :
  String.substring (String.length x) (String.length y) (x +:+ y) = y.
Proof.
  induction x as [|c x IH]; [apply substring_all|].
  rewrite string_app_cons. cbn. apply IH.
Qed.

Lemma HasSuffix_app (x suf : string) : HasSuffix (x +:+ suf) suf = true.
Proof.
  unfold HasSuffix. rewrite string_app_length.
  rewrite bool_decide_eq_true_2 by lia.
  replace (String.length x + String.length suf - String.length suf)
    with (String.length x) by lia.
  rewrite substring_app_r. by rewrite String.eqb_refl.
Qed.

Lemma string_app_inj_r (x y s : string) : x +:+ s = y +:+ s → x = y.
Proof.
  revert y. induction x as [|a x IH]; intros [|b y] Heq; try done.
  - apply (f_equal String.length) in Heq.
    rewrite !string_app_length in Heq. cbn in Heq. lia.
  - apply (f_equal String.length) in Heq.
    rewrite !string_app_length in Heq. cbn in Heq. lia.
  - rewrite !string_app_cons in Heq. injection Heq as -> Heq. f_equal. by apply IH.
Qed.

Lemma PathFor_dir slugify d n t : (PathFor slugify d n t).1 = d.
Proof. reflexivity. Qed.

Lemma PathFor_suffix slugify d n t : HasSuffix (PathFor slugify d n t).2 ".md" = true.
Proof.
  unfold PathFor. cbn [snd]. destruct (String.eqb (slugify t) "").
  - apply HasSuffix_app.
  - rewrite <- !string_app_assoc. apply HasSuffix_app.
Qed.

Lemma PathFor_number slugify d n t :
  allChars isAlnum n = true → alnumRun (PathFor slugify d n t).2 = n.
Proof.
  intros Hn. unfold PathFor. cbn [snd].
  destruct (String.eqb (slugify t) ""); by apply alnumRun_app.
Qed.

Lemma targetDirOf_recordDir r : recordDir (targetDirOf r).
Proof. unfold targetDirOf. case_decide; [by right|by left]. Qed.

Lemma stateName_targetDirOf r :
  issue.State r = "open" ∨ issue.State r = "closed" →
  stateName (targetDirOf r) = issue.State r.
Proof. unfold targetDirOf. intros [H|H]; rewrite H; by case_decide. Qed.

Lemma setState_same r : setState r (issue.State r) = r.
Proof. by destruct r. Qed.

(** *** The equality of records *)

Lemma EqualIgnoringSyncedAt_refl x : EqualIgnoringSyncedAt x x = true.
Proof.
  unfold EqualIgnoringSyncedAt, sameSet. by rewrite !bool_decide_eq_true_2.
Qed.

Lemma EqualIgnoringSyncedAt_stamp_r x y t :
  EqualIgnoringSyncedAt x (setSyncedAt y t) = EqualIgnoringSyncedAt x y.
Proof. reflexivity. Qed.

Lemma EqualIgnoringSyncedAt_stamp_l x y t :
  EqualIgnoringSyncedAt (setSyncedAt x t) y = EqualIgnoringSyncedAt x y.
Proof. reflexivity. Qed.

(** *** A quiet record is left alone *)

Lemma quiet_noop slugify a opts L acc r w :
  quiet slugify opts (L !! issue.Number r) (readOriginalIssue (store w) (issue.Number r)) r →
  ∃ acc', reconcileRemote slugify a opts L acc r w = (Ok acc', tick w).
Proof.
  intros Hquiet. rewrite reconcileRemote_run. cbv zeta.
  destruct (bool_decide _ && _ && _) eqn:Hcond; [eauto|].
  destruct Hquiet as [Hq|(Horig & l & Hl & Heq & Hpath)].
  { cbv zeta in Hq. congruence. }
  rewrite Hl. unfold applyRemote. cbv zeta.
  rewrite (bool_decide_eq_true_2 _ Horig).
  unfold stamped. rewrite EqualIgnoringSyncedAt_stamp_r, Heq.
  rewrite bool_decide_eq_false_2 by (intros Hne; by apply Hne).
  cbn. eauto.
Qed.

(** *** The store after a record was written *)

Lemma print_run e (w : World) :
  print e w = (Ok (), mkWorld (store w) (calls w) (out w ++ [e]) (fsops w) (lastFullPull w)).
Proof. reflexivity. Qed.

Lemma printAll_run es (w : World) :
  printAll es w = (Ok (), mkWorld (store w) (calls w) (out w ++ es) (fsops w) (lastFullPull w)).
Proof. reflexivity. Qed.

Lemma applyRemote_store slugify a local original remote acc w acc' w' :
  applyRemote slugify a local original remote acc w = (Ok acc', w') →
  let newPath :=
    PathFor slugify (targetDirOf remote) (issue.Number remote) (issue.Title remote) in
  let origPath := (OriginalsDir, issue.Number remote +:+ ".md") in
  (w' = w ∧ is_Some original ∧
   ∃ l, local = Some l ∧ EqualIgnoringSyncedAt (IssueFile.Issue l) remote = true ∧
        IssueFile.Path l = newPath) ∨
  ((∀ q, nodeAt (store w') q =
         if decide (q = origPath) then Some (RegularFile (Ok remote))
         else if decide (q = newPath) then Some (RegularFile (Ok remote))
         else if decide (Some q = IssueFile.Path <$> local) then None
         else nodeAt (store w) q) ∧
   (∀ d, dirKind (dirState (store w') d) = dirKind (dirState (store w) d))).
Proof.
  cbv zeta. unfold applyRemote.
  set (newPath := PathFor slugify _ _ _).
  destruct (bool_decide (is_Some original) && _ && _) eqn:Hsame.
  { rewrite ret_run. intros [= <- <-]. left.
    apply andb_true_iff in Hsame as [Hsame Hpath].
    apply andb_true_iff in Hsame as [Horig%bool_decide_eq_true Hcontent].
    split_and!; [done..|].
    destruct local as [l|]; [|done]. exists l.
    apply negb_true_iff, bool_decide_eq_false in Hpath.
    apply negb_true_iff, negb_false_iff in Hcontent.
    split_and!; [done..|]. by apply dec_stable. }
  clear Hsame. intros Hrun. right.
  (* the world after the optional rename *)
  assert (∃ w1,
    (fileOp (λ st, WriteFile st newPath remote) (OpWriteFile newPath);;
     fileOp (λ st, writeOriginalIssue st remote)
       (OpWriteFile (OriginalsDir, issue.Number remote +:+ ".md"));;
     match local with
     | None =>
         print (IssueHeader "A" (issue.Number remote) (issue.Title remote));;
         mret acc
     | Some l =>
         let lines := ChangeLine <$> formatChangeLines a (IssueFile.Issue l) remote in
         let lines :=
           if (length lines =? 0) &&
              match local with
              | Some l => bool_decide (IssueFile.Path l ≠ newPath)
              | None => false
              end
           then lines ++ [FileChange (IssueFile.Path l) newPath] else lines in
         print (IssueHeader "U" (issue.Number remote) (issue.Title remote));;
         printAll lines;;
         mret acc
     end) w1 = (Ok acc', w') ∧
    (∀ q, q ≠ newPath →
          nodeAt (store w1) q =
          if decide (Some q = IssueFile.Path <$> local) then None else nodeAt (store w) q) ∧
    (∀ d, dirKind (dirState (store w1) d) = dirKind (dirState (store w) d)))
    as (w1 & Hrest & Hnodes1 & Hkind1).
  { destruct local as [l|].
    - case_bool_decide as Hpath.
      + rewrite bind_run, fileOp_run in Hrun.
        destruct (Rename (store w) (IssueFile.Path l) newPath) as [st1|e] eqn:Hren;
          [|done].
        destruct (Rename_Ok _ _ _ _ Hren Hpath) as [Hn Hk].
        eexists. split; [exact Hrun|]. cbn [store]. split; [|done].
        intros q Hq. rewrite Hn, decide_False by done. cbn.
        destruct (decide (q = IssueFile.Path l)) as [->|Hne].
        * by rewrite decide_True.
        * by rewrite decide_False by congruence.
      + rewrite bind_run, ret_run in Hrun.
        exists w. split; [exact Hrun|]. split; [|done].
        intros q Hq. cbn. rewrite decide_False; [done|]. intros [= ->]. by rewrite Hpath in Hq.
    - rewrite bind_run, ret_run in Hrun. exists w. split; [exact Hrun|]. split; [|done].
      intros q Hq. cbn. by rewrite decide_False. }
  clear Hrun.
  rewrite bind_run, fileOp_run in Hrest.
  destruct (WriteFile (store w1) newPath remote) as [st2|e] eqn:Hw2; [|done].
  rewrite bind_run, fileOp_run in Hrest. cbn [store] in Hrest.
  destruct (writeOriginalIssue st2 remote) as [st3|e] eqn:Hw3; [|done].
  assert (store w' = st3) as ->.
  { destruct local as [l|].
    - cbv zeta in Hrest. rewrite bind_run, print_run, bind_run, printAll_run, ret_run in Hrest.
      by injection Hrest as _ <-.
    - rewrite bind_run, print_run, ret_run in Hrest. by injection Hrest as _ <-. }
  destruct (WriteFile_Ok _ _ _ _ Hw2) as [Hn2 Hk2].
  destruct (WriteFile_Ok _ _ _ _ Hw3) as [Hn3 Hk3].
  split.
  - intros q. rewrite Hn3. case_decide; [done|].
    rewrite Hn2. case_decide; [done|]. by apply Hnodes1.
  - intros d. by rewrite Hk3, Hk2, Hkind1.
Qed.

Lemma dirKind_readable {C} (ds ds' : DirState C) msg :
  dirKind ds' = dirKind ds → ds ≠ DirUnreadable msg → ds' ≠ DirUnreadable msg.
Proof. destruct ds, ds'; naive_solver. Qed.

(** The store [st'] after the record [R] was written over the store
    [st], the local copy being the one [L] names. *)
Section written.
Variable slugify : string → string.
Variables st st' : Store issue.Issue.
Variable L : gmap string IssueFile.t.
Variable R : issue.Issue.

Local Abbreviation n := (issue.Number R).
Local Abbreviation newPath := (PathFor slugify (targetDirOf R) (issue.Number R) (issue.Title R)).
Local Abbreviation origPath := (OriginalsDir, issue.Number R +:+ ".md").

Hypothesis Hst : namedByNumber st.
Hypothesis Hacc : accurate L st n.
Hypothesis Halnum : allChars isAlnum n = true.
Hypothesis Hstate : issue.State R = "open" ∨ issue.State R = "closed".
Hypothesis Hnodes : ∀ q,
  nodeAt st' q =
  if decide (q = origPath) then Some (RegularFile (Ok R))
  else if decide (q = newPath) then Some (RegularFile (Ok R))
  else if decide (Some q = IssueFile.Path <$> L !! n) then None
  else nodeAt st q.
Hypothesis Hkind : ∀ d, dirKind (dirState st' d) = dirKind (dirState st d).

Lemma written_local path i :
  recordAt st path i → issue.Number i = n → Some path = IssueFile.Path <$> L !! n.
Proof.
  intros Hrec Hn. destruct Hacc as [HS HN].
  destruct (L !! n) as [l|] eqn:Hl.
  - destruct (HS l eq_refl) as (path0 & i0 & Hrec0 & Hn0 & ->). cbn. f_equal.
    eapply (one_per_number st Hst); eauto. congruence.
  - by destruct (HN eq_refl path i Hrec).
Qed.

Lemma written_local_inv path :
  Some path = IssueFile.Path <$> L !! n → ∃ i, recordAt st path i ∧ issue.Number i = n.
Proof.
  destruct Hacc as [HS _]. destruct (L !! n) as [l|] eqn:Hl; [|done].
  destruct (HS l eq_refl) as (path0 & i0 & Hrec0 & Hn0 & ->). cbn. intros [= ->]. eauto.
Qed.

Lemma recordDir_originals (path : FilePath) : recordDir path.1 → path ≠ origPath.
Proof. intros [Hd|Hd] ->; cbn in Hd; discriminate. Qed.

Lemma written_records path i :
  recordAt st' path i ↔
  (path = newPath ∧ i = R) ∨ (recordAt st path i ∧ issue.Number i ≠ n).
Proof.
  split.
  - intros (Hd & Hmd & Hnode). rewrite Hnodes in Hnode.
    rewrite decide_False in Hnode by by apply recordDir_originals.
    destruct (decide (path = newPath)) as [->|Hnew].
    { left. split; [done|]. by injection Hnode as <-. }
    destruct (decide (Some path = IssueFile.Path <$> L !! n)) as [|Hloc]; [done|].
    right. split; [done|]. intros Hn. apply Hloc. by eapply written_local.
  - intros [[-> ->]|[(Hd & Hmd & Hnode) Hn]].
    + split_and!.
      * apply targetDirOf_recordDir.
      * apply PathFor_suffix.
      * rewrite Hnodes. rewrite decide_False by (apply recordDir_originals, targetDirOf_recordDir).
        by rewrite decide_True.
    + split_and!; [done..|]. rewrite Hnodes.
      rewrite decide_False by by apply recordDir_originals.
      rewrite decide_False.
      2:{ intros ->. apply Hn.
          rewrite <- (name_has_number st Hst newPath i) by done.
          by apply PathFor_number. }
      rewrite decide_False; [done|].
      intros (i0 & (_ & _ & Hnode0) & Hn0)%written_local_inv.
      rewrite Hnode in Hnode0. injection Hnode0 as <-. done.
Qed.

Lemma written_named : namedByNumber st'.
Proof.
  split.
  - intros d msg Hd. eapply dirKind_readable; [apply Hkind|]. by apply (dirs_listable st Hst).
  - intros path content Hd Hmd Hnode. rewrite Hnodes in Hnode.
    rewrite decide_False in Hnode by by apply recordDir_originals.
    destruct (decide (path = newPath)); [by injection Hnode as <-|].
    destruct (decide (Some path = _)); [done|].
    by eapply (files_parse st Hst).
  - intros path i [[-> ->]|[Hrec _]]%written_records.
    + by apply PathFor_number.
    + by apply (name_has_number st Hst).
  - intros path i path' i' [[-> ->]|[Hrec Hn]]%written_records
      [[-> ->]|[Hrec' Hn']]%written_records Heq; [done|congruence..|].
    eapply (one_per_number st Hst); eauto.
Qed.

Lemma written_original : readOriginalIssue st' n = Some R.
Proof.
  unfold readOriginalIssue. rewrite (readPath_Ok_nodeAt _ _ R); [done|].
  rewrite Hnodes. by rewrite decide_True.
Qed.

Lemma written_sameView m : m ≠ n → sameView m st st'.
Proof.
  intros Hm. split.
  - intros path i Hi. rewrite written_records. split.
    + intros Hrec. right. split; [done|congruence].
    + intros [[-> ->]|[Hrec _]]; [done|done].
  - unfold readOriginalIssue. rewrite !readPath_nodeAt. cbn [fst]. rewrite Hkind.
    rewrite Hnodes. rewrite decide_False.
    2:{ intros [= Heq]. by apply string_app_inj_r in Heq. }
    rewrite decide_False.
    2:{ intros Heq. apply (f_equal fst) in Heq. cbn in Heq.
        unfold targetDirOf in Heq. by case_decide. }
    rewrite decide_False; [done|].
    intros (i0 & ([Hd|Hd] & _) & _)%written_local_inv; cbn in Hd; discriminate.
Qed.

Lemma written_quiet opts remote t :
  R = setSyncedAt (setState remote (ToLower (issue.State remote))) t →
  quietAt slugify opts st' remote.
Proof.
  intros HR L' [HS' HN']. right.
  assert (issue.Number remote = n) as Hn by by rewrite HR.
  rewrite Hn in *.
  assert (recordAt st' newPath R) as Hrec by (apply written_records; by left).
  rewrite written_original. split; [done|].
  destruct (L' !! n) as [l|] eqn:Hl.
  2:{ by destruct (HN' eq_refl _ _ Hrec). }
  destruct (HS' l eq_refl) as (path & i & [[-> ->]|[_ Hne]]%written_records & Hni & ->);
    [|done].
  eexists. split; [done|]. unfold loadedFrom. cbn [IssueFile.Issue IssueFile.Path].
  rewrite PathFor_dir, stateName_targetDirOf, setState_same by done.
  split.
  - rewrite HR at 1. rewrite EqualIgnoringSyncedAt_stamp_l. apply EqualIgnoringSyncedAt_refl.
  - by rewrite HR.
Qed.
End written.

(** *** One turn of the loop *)

Lemma sameView_refl n st : sameView n st st.
Proof. by split. Qed.

Lemma sameView_sym n st st' : sameView n st st' → sameView n st' st.
Proof. intros [Hrec Horig]. split; [|done]. intros path i Hi. by rewrite Hrec. Qed.

Lemma sameView_trans n st1 st2 st3 :
  sameView n st1 st2 → sameView n st2 st3 → sameView n st1 st3.
Proof.
  intros [Hrec Horig] [Hrec' Horig']. split; [|congruence].
  intros path i Hi. by rewrite Hrec, Hrec'.
Qed.

Lemma quietAt_sameView slugify opts st st' r :
  sameView (issue.Number r) st st' → quietAt slugify opts st r → quietAt slugify opts st' r.
Proof.
  intros Hview Hquiet L HL. destruct (Hview) as [_ <-].
  apply Hquiet. eapply accurate_sameView; [|done]. by apply sameView_sym.
Qed.

Lemma reconcile_step slugify a opts L acc r w acc' w' :
  namedByNumber (store w) →
  accurate L (store w) (issue.Number r) →
  allChars isAlnum (issue.Number r) = true →
  ToLower (issue.State r) = "open" ∨ ToLower (issue.State r) = "closed" →
  reconcileRemote slugify a opts L acc r w = (Ok acc', w') →
  namedByNumber (store w') ∧
  (∀ m, m ≠ issue.Number r → sameView m (store w) (store w')) ∧
  quietAt slugify opts (store w') r.
Proof.
  intros Hst Hacc Halnum Hstate. rewrite reconcileRemote_run. cbv zeta.
  destruct (bool_decide _ && _ && _) eqn:Hcond.
  { intros [= <- <-]. cbn [store tick]. split_and!; [done|by intros|].
    intros L' HL'. left. by rewrite <- (accurate_unique (store w) _ L L'). }
  intros [(-> & Horig & l & Hl & Heq & Hpath)|[Hnodes Hkind]]%applyRemote_store.
  - cbn [store tick]. split_and!; [done|by intros|].
    intros L' HL'. right. rewrite <- (accurate_unique (store w) _ L L') by done.
    split; [done|]. exists l. split_and!; [done..|].
    exact Hpath.
  - cbn [store tick] in Hnodes, Hkind.
    split_and!.
    + eapply (written_named slugify (store w) (store w') L (stamped a r (calls w))); done.
    + intros m Hm.
      eapply (written_sameView slugify (store w) (store w') L (stamped a r (calls w))); done.
    + eapply (written_quiet slugify (store w) (store w') L (stamped a r (calls w))); done.
Qed.

(** *** The loop, the first time and the second time *)

Lemma foldM_cons {A B} (f : A → B → M A) acc x rest w :
  foldM f acc (x :: rest) w =
  match f acc x w with
  | (Ok acc', w') => foldM f acc' rest w'
  | (Err e, w') => (Err e, w')
  end.
Proof. cbn [foldM]. by rewrite bind_run. Qed.

Lemma fetchedOK_cons r rs :
  fetchedOK (r :: rs) →
  (issue.Number r ∉ issue.Number <$> rs) ∧
  allChars isAlnum (issue.Number r) = true ∧
  (ToLower (issue.State r) = "open" ∨ ToLower (issue.State r) = "closed") ∧
  fetchedOK rs.
Proof.
  intros [Hnodup Hall]. rewrite fmap_cons in Hnodup. apply NoDup_cons in Hnodup as [Hr Hrs].
  destruct (Hall r) as [Halnum Hstate]; [by left|].
  split_and!; [done..|]. split; [done|]. intros r' Hr'. apply Hall. by right.
Qed.

Lemma loop_first slugify a opts L rs : ∀ acc w acc' w',
  namedByNumber (store w) → fetchedOK rs →
  (∀ r, r ∈ rs → accurate L (store w) (issue.Number r)) →
  foldM (reconcileRemote slugify a opts L) acc rs w = (Ok acc', w') →
  namedByNumber (store w') ∧
  (∀ r, r ∈ rs → quietAt slugify opts (store w') r) ∧
  (∀ m, m ∉ (issue.Number <$> rs) → sameView m (store w) (store w')).
Proof.
  induction rs as [|r rs IH]; intros acc w acc' w' Hst Hrs Hacc.
  { intros [= <- <-]. split_and!; [done| |intros; apply sameView_refl].
    by intros r ?%elem_of_nil. }
  apply fetchedOK_cons in Hrs as (Hr & Halnum & Hstate & Hrs).
  rewrite foldM_cons.
  destruct (reconcileRemote slugify a opts L acc r w) as [[acc1|e] w1] eqn:Hstep; [|done].
  intros Hrest.
  apply reconcile_step in Hstep as (Hst1 & Hview1 & Hquiet1);
    [|done|by apply Hacc; left|done..].
  apply IH in Hrest as (Hst' & Hquiet' & Hview'); [|done..|].
  2:{ intros r' Hr'. eapply accurate_sameView; [|apply Hacc; by right].
      apply Hview1. intros Heq. apply Hr. rewrite <- Heq.
      by apply list_elem_of_fmap_2. }
  split_and!; [done| |].
  - intros r' [->|Hr']%elem_of_cons; [|by apply Hquiet'].
    eapply quietAt_sameView; [|done]. by apply Hview'.
  - intros m [Hm Hms]%not_elem_of_cons.
    eapply sameView_trans; [by apply Hview1|by apply Hview'].
Qed.

Lemma loop_second slugify a opts L rs : ∀ acc w,
  (∀ r, r ∈ rs → accurate L (store w) (issue.Number r)) →
  (∀ r, r ∈ rs → quietAt slugify opts (store w) r) →
  ∃ acc' w', foldM (reconcileRemote slugify a opts L) acc rs w = (Ok acc', w') ∧
             store w' = store w ∧ fsops w' = fsops w ∧ out w' = out w.
Proof.
  induction rs as [|r rs IH]; intros acc w Hacc Hquiet.
  { by exists acc, w. }
  rewrite foldM_cons.
  destruct (quiet_noop slugify a opts L acc r w) as [acc1 ->].
  { apply Hquiet; [by left|]. apply Hacc. by left. }
  destruct (IH acc1 (tick w)) as (acc' & w' & -> & Hstore & Hops & Hout).
  - intros r' Hr'. apply Hacc. by right.
  - intros r' Hr'. apply Hquiet. by right.
  - exists acc', w'. split_and!; [done|exact Hstore|exact Hops|exact Hout].
Qed.

Lemma reconcileLoop_twice slugify a opts rs w acc1 w1 :
  namedByNumber (store w) → fetchedOK rs →
  reconcileLoop slugify a opts rs w = (Ok acc1, w1) →
  namedByNumber (store w1) ∧
  ∀ w2, store w2 = store w1 →
    ∃ acc2 w3, reconcileLoop slugify a opts rs w2 = (Ok acc2, w3) ∧
               store w3 = store w2 ∧ fsops w3 = fsops w2 ∧ out w3 = out w2.
Proof.
  intros Hst Hrs. unfold reconcileLoop. rewrite bind_run.
  unfold loadLocalIssuesM at 1. rewrite loadLocalIssues_named by done.
  intros (Hst1 & Hquiet & _)%loop_first; [|done..|intros; apply accurate_load].
  split; [done|]. intros w2 Hw2.
  rewrite bind_run. unfold loadLocalIssuesM at 1. rewrite Hw2.
  rewrite loadLocalIssues_named by done.
  destruct (loop_second slugify a opts
              (indexByNumber (parsedIn (store w1) OpenDir "open" ++
                              parsedIn (store w1) ClosedDir "closed")) rs ([], 0) w2)
    as (acc2 & w3 & Hrun & Hrest).
  - intros r _. rewrite Hw2. apply accurate_load.
  - intros r Hr. rewrite Hw2. by apply Hquiet.
  - exists acc2, w3. split; [done|]. by rewrite <- Hw2.
Qed.

(** *** A pull of named records, twice *)

Lemma logged_nil w : logged [] w = w.
Proof. destruct w. unfold logged. cbn. by rewrite app_nil_r. Qed.


Lemma fetchByArgs_foldM a args : ∀ acc, ∃ res, ∀ w,
  foldM (λ (remoteIssues : list issue.Issue) arg,
           let number := TrimSpace arg in
           if String.eqb number "" then mret remoteIssues
           else match GetIssue (client a) number with
                | Err e => fail e
                | Ok remote => mret (remoteIssues ++ [remote])
                end) acc args w = (res, w).
Proof.
  induction args as [|arg args IH]; intros acc.
  { by exists (Ok acc). }
  cbv zeta. destruct (String.eqb (TrimSpace arg) "") eqn:Hempty.
  - destruct (IH acc) as [res Hres]. exists res. intros w.
    rewrite foldM_cons. cbv zeta. rewrite Hempty, ret_run. apply Hres.
  - destruct (GetIssue (client a) (TrimSpace arg)) as [remote|e] eqn:Hget.
    + destruct (IH (acc ++ [remote])) as [res Hres]. exists res. intros w.
      rewrite foldM_cons. cbv zeta. rewrite Hempty, Hget, ret_run. apply Hres.
    + exists (Err e). intros w. rewrite foldM_cons. cbv zeta. by rewrite Hempty, Hget.
Qed.

Lemma fetchByArgs_run a args : ∃ res es, ∀ w, fetchByArgs a args w = (res, logged es w).
Proof.
  unfold fetchByArgs. cbv zeta.
  destruct (fetchByArgs_foldM a args []) as [[rs|e] Hfold].
  - destruct (EnrichWithRelationshipsBatch (client a) rs) as [enriched [e|]] eqn:Henrich.
    + eexists _, [_]. intros w. rewrite bind_run, Hfold, Henrich. reflexivity.
    + eexists _, []. intros w. rewrite bind_run, Hfold, Henrich, logged_nil. reflexivity.
  - exists (Err e), []. intros w. by rewrite bind_run, Hfold, logged_nil.
Qed.

Lemma report_run conflicts unchanged : ∃ es, ∀ w,
  report conflicts unchanged w = (Ok (), logged es w).
Proof.
  unfold report. destruct (0 <? length conflicts), (0 <? unchanged).
  - exists [ConflictsLine (sortStrings conflicts); NothingToPull unchanged]. intros w.
    rewrite bind_run, !print_run. unfold logged. cbn. by rewrite <- app_assoc.
  - exists [ConflictsLine (sortStrings conflicts)]. intros w.
    by rewrite bind_run, print_run, ret_run.
  - exists [NothingToPull unchanged]. intros w. by rewrite bind_run, ret_run, print_run.
  - exists []. intros w. by rewrite bind_run, !ret_run, logged_nil.
Qed.

Lemma Pull_numbers_run slugify a opts arg args w :
  Pull slugify a opts (arg :: args) w =
  match configError a with
  | Some e => (Err e, w)
  | None =>
      match lockError a with
      | Some e => (Err e, w)
      | None =>
          match loadLocalIssues (store w) with
          | Err e => (Err e, w)
          | Ok _ =>
              match fetchByArgs a (arg :: args) w with
              | (Err e, w') => (Err e, w')
              | (Ok fetched, w') =>
                  match reconcileLoop slugify a opts fetched.1 w' with
                  | (Err e, w'') => (Err e, w'')
                  | (Ok acc, w'') => report acc.1 acc.2 w''
                  end
              end
          end
      end
  end.
Proof.
  unfold Pull. cbn [length Nat.ltb Nat.leb Nat.eqb].
  destruct (configError a); [done|]. destruct (lockError a); [done|].
  rewrite bind_run, ret_run, bind_run, ret_run, bind_run.
  unfold loadLocalIssuesM at 1.
  destruct (loadLocalIssues (store w)); [|done].
  rewrite bind_run. destruct (fetchByArgs a (arg :: args) w) as [[fetched|e] w']; [|done].
  cbv zeta. rewrite bind_run.
  destruct (reconcileLoop slugify a opts fetched.1 w') as [[acc|e] w'']; [|done].
  rewrite bind_run, ret_run, bind_run.
  destruct (report_run acc.1 acc.2) as [es ->]. by rewrite ret_run.
Qed.

(** The store of the examples is laid out as the design document says. *)
Lemma recordAt_storeWith local original path i :
  recordAt (storeWith local original) path i → path = (OpenDir, "7-bug.md") ∧ i = local.
Proof.
  destruct path as [d name]. intros ([Hd|Hd] & _ & Hnode); cbn [fst] in Hd; subst d.
  - unfold nodeAt, dirState, storeWith in Hnode. cbn [fst snd openDir] in Hnode.
    apply lookup_singleton_Some in Hnode as [<- [= <-]]. done.
  - unfold nodeAt, dirState, storeWith in Hnode. cbn [fst snd closedDir] in Hnode.
    by rewrite lookup_empty in Hnode.
Qed.

Lemma storeWith_named local original :
  issue.Number local = "7" → namedByNumber (storeWith local original).
Proof.
  intros Hn. split.
  - by intros d msg [-> | ->].
  - intros [d name] content [Hd|Hd] _ Hnode; cbn [fst] in Hd; subst d.
    + unfold nodeAt, dirState, storeWith in Hnode. cbn [fst snd openDir] in Hnode.
      by apply lookup_singleton_Some in Hnode as [_ [= <-]].
    + unfold nodeAt, dirState, storeWith in Hnode. cbn [fst snd closedDir] in Hnode.
      by rewrite lookup_empty in Hnode.
  - intros path i [-> ->]%recordAt_storeWith. by rewrite Hn.
  - by intros path i path' i' [-> _]%recordAt_storeWith [-> _]%recordAt_storeWith _.
Qed.

(** *** Pulling twice *)

(** C3 (amended): a pull of named records is idempotent at the level of
    the files.  Take a store whose record files parse and are named
    after the number of the one record of that number they hold, and
    arguments for which the remote answers with records of distinct
    numbers made of letters and digits, in state open or closed.  If
    [Pull] with these arguments succeeds, then [Pull] run again from the
    world it left, the remote answering as before, succeeds as well,
    does no file operation (no write and no rename is added to the log)
    and leaves the store as it was.  (A pull without arguments saves the
    configuration and the caches each time: see below.) *)
Theorem Pull_numbers_idempotent slugify a opts args w w1 :
  args ≠ [] →
  namedByNumber (store w) →
  (∀ fetched w', fetchByArgs a args w = (Ok fetched, w') → fetchedOK fetched.1) →
  Pull slugify a opts args w = (Ok (), w1) →
  ∃ w2, Pull slugify a opts args w1 = (Ok (), w2) ∧
        store w2 = store w1 ∧ fsops w2 = fsops w1.
Proof.
  intros Hargs Hst Hfetched. destruct args as [|arg args]; [done|].
  rewrite !Pull_numbers_run.
  destruct (configError a); [done|]. destruct (lockError a); [done|].
  rewrite loadLocalIssues_named by done.
  destruct (fetchByArgs_run a (arg :: args)) as (res & es & Hfetch).
  rewrite Hfetch in Hfetched |- *. destruct res as [fetched|e]; [|done].
  specialize (Hfetched _ _ eq_refl).
  destruct (reconcileLoop slugify a opts fetched.1 (logged es w))
    as [[acc1 |e] wl] eqn:Hloop; [|done].
  apply reconcileLoop_twice in Hloop as [Hst1 Htwice]; [|done..].
  destruct (report_run acc1.1 acc1.2) as [es1 ->]. intros [= <-].
  cbn [store logged]. rewrite loadLocalIssues_named by done. rewrite Hfetch.
  destruct (Htwice (logged es (logged es1 wl))) as (acc2 & w3 & -> & Hstore & Hops & _);
    [done|].
  destruct (report_run acc2.1 acc2.2) as [es2 ->].
  eexists. split; [done|]. cbn [store fsops logged] in *. done.
Qed.

Lemma Pull_numbers_idempotent_witness :
  let a := appWith (bug7 "A-remote" "OPEN" None) in
  let opts := mkPullOptions false false [] in
  let w0 := worldOf (storeWith (bug7 "A" "open" None) (bug7 "A" "open" None)) in
  let w1 := (Pull slugBug a opts ["7"] w0).2 in
  fsops w1 = [OpWriteFile (OpenDir, "7-bug.md"); OpWriteFile (OriginalsDir, "7.md")] ∧
  ∃ w2, Pull slugBug a opts ["7"] w1 = (Ok (), w2) ∧
        store w2 = store w1 ∧ fsops w2 = fsops w1.
Proof.
  cbv zeta. split; [vm_compute; reflexivity|].
  apply (Pull_numbers_idempotent slugBug (appWith (bug7 "A-remote" "OPEN" None))
           (mkPullOptions false false []) ["7"]
           (worldOf (storeWith (bug7 "A" "open" None) (bug7 "A" "open" None)))).
  - discriminate.
  - apply storeWith_named. reflexivity.
  - intros fetched w' Hfetch. vm_compute in Hfetch. injection Hfetch as <- _.
    split.
    + cbn. apply NoDup_singleton.
    + intros r ->%list_elem_of_singleton. split; [reflexivity|]. left. vm_compute. reflexivity.
  - vm_compute. reflexivity.
Defined.

(** A full pull run twice, the remote unchanged in between: the second
    run writes no record and no snapshot, and still saves the
    configuration (the last-full-pull time) and the milestone cache. *)
Lemma Pull_twice_saves_config :
  let remote := bug7 "A-remote" "OPEN" None in
  let original := bug7 "A" "open" None in
  let w0 := worldOf (storeWith original original) in
  let first := Pull slugBug (appWith remote) (mkPullOptions false false []) [] w0 in
  let second := Pull slugBug (appWith remote) (mkPullOptions false false []) []
                  (freshLogs first.2) in
  first.1 = Ok () ∧
  fsops first.2 = [OpWriteFile (OpenDir, "7-bug.md"); OpWriteFile (OriginalsDir, "7.md");
                   OpSaveConfig; OpSaveCache "milestones"] ∧
  second.1 = Ok () ∧
  fsops second.2 = [OpSaveConfig; OpSaveCache "milestones"] ∧
  lastFullPull first.2 = Some 1%Z ∧ lastFullPull second.2 = Some 3%Z.
Proof. vm_compute. done. Qed.

(** ** Part III: further properties of the code *)

(** *** Lines *)

Lemma ContainsByte_app (x y : string) c :
  ContainsByte (x +:+ y) c = ContainsByte x c || ContainsByte y c.
Proof.
  induction x as [|a x IH]; [by rewrite string_app_nil_l|].
  rewrite string_app_cons. cbn. rewrite IH. by rewrite orb_assoc.
Qed.

Lemma Split1_no_sep s sep : Forall (λ piece, ContainsByte piece sep = false) (Split1 s sep).
Proof.
  induction s as [|c s IH]; cbn.
  - by repeat constructor.
  - destruct (decide (c = sep)) as [->|Hne]; [by constructor|].
    destruct (Split1 s sep) as [|piece pieces].
    + constructor; [|constructor]. cbn. by rewrite bool_decide_eq_false_2.
    + apply Forall_cons in IH as [Hpiece Hrest]. constructor; [|done].
      cbn. by rewrite bool_decide_eq_false_2.
Qed.

Lemma TrimSuffix_app (x suf : string) : TrimSuffix (x +:+ suf) suf = x.
Proof.
  destruct (TrimSuffix_spec (x +:+ suf) suf) as [[_ Heq]|[Hno _]].
  - symmetry. by apply string_app_inj_r in Heq.
  - by rewrite HasSuffix_app in Hno.
Qed.

Lemma string_app_nil_inv (x y : string) : x +:+ y = "" → x = "" ∧ y = "".
Proof. destruct x; [by rewrite string_app_nil_l|by rewrite string_app_cons]. Qed.

(** X1: [splitLines] gives no line for the empty text only, none of its
    lines holds a newline, and one final newline adds no line: a text
    that is not empty and does not end in a newline has the same lines
    with a newline appended. *)
Theorem splitLines_lines (text : string) :
  (splitLines text = [] ↔ text = "") ∧
  Forall (λ line, ContainsByte line newline = false) (splitLines text) ∧
  (text ≠ "" → HasSuffix text NL = false → splitLines (text +:+ NL) = splitLines text).
Proof.
  split_and!.
  - unfold splitLines. destruct (decide (text = "")) as [->|Hne]; [done|].
    split; [|done]. by intros ?%Split1_not_nil.
  - unfold splitLines. destruct (decide (text = "")); [constructor|apply Split1_no_sep].
  - intros Hne Hsuf. unfold splitLines.
    rewrite decide_False by (by intros [_ ?]%string_app_nil_inv).
    rewrite decide_False by done. rewrite TrimSuffix_app.
    destruct (TrimSuffix_spec text NL) as [[Hyes _]|[_ ->]]; [congruence|done].
Qed.

Lemma splitLines_lines_witness :
  splitLines ("a" +:+ NL +:+ "b" +:+ NL) = splitLines ("a" +:+ NL +:+ "b").
Proof.
  apply (proj2 (proj2 (splitLines_lines ("a" +:+ NL +:+ "b")))); [done|reflexivity].
Defined.

(** *** Scripts of one kind of operation *)

Lemma countOps_total ops :
  length ops = countOps diffEqual ops + countOps diffDelete ops + countOps diffInsert ops.
Proof.
  unfold countOps. induction ops as [|[[] txt] ops IH]; [done|..];
    rewrite !filter_cons; cbn [Type']; repeat case_decide; try done;
    cbn [length]; lia.
Qed.

Lemma countOps_all t ops :
  countOps t ops = length ops → ops = mkDiffOp t <$> (Text <$> ops).
Proof.
  unfold countOps. induction ops as [|[ty txt] ops IH]; [done|].
  rewrite filter_cons. cbn [Type']. pose proof (length_filter (λ op, Type' op = t) ops).
  case_decide as Ht; cbn [length]; [|lia].
  intros [= Hlen]. cbn. rewrite <- IH by done. by subst.
Qed.

Lemma side_of_all t ops :
  ops = mkDiffOp t <$> (Text <$> ops) →
  (t ≠ diffInsert → oldSide ops = Text <$> ops) ∧
  (t ≠ diffDelete → newSide ops = Text <$> ops).
Proof.
  intros Hall. unfold oldSide, newSide.
  assert (Forall (λ op, Type' op = t) ops) as Hty.
  { rewrite Hall. apply Forall_fmap, Forall_true. done. }
  clear Hall. split; intros Hne; f_equal;
    (induction Hty as [|op ops Hop _ IH]; [done|];
     rewrite filter_cons, decide_True by congruence; by f_equal).
Qed.

Lemma lcsLen_refl x : lcsLen x x = length x.
Proof.
  induction x as [|l x IH]; [done|].
  rewrite lcsLen_cons, decide_True by done. cbn. by rewrite IH.
Qed.

Lemma computeDiff_equal_count oldLines newLines :
  countOps diffEqual (computeDiff oldLines newLines) = lcsLen oldLines newLines.
Proof.
  rewrite computeDiff_tieBreak. unfold tieBreakScript.
  rewrite tieBreakFrom_equal_count by done. unfold prefixLCS. by rewrite !firstn_all.
Qed.

Lemma computeDiff_refl (lines : list string) :
  computeDiff lines lines = mkDiffOp diffEqual <$> lines.
Proof.
  destruct (computeDiff_sides lines lines) as [Hold Hnew].
  pose proof (computeDiff_equal_count lines lines) as Heq. rewrite lcsLen_refl in Heq.
  pose proof (oldSide_length (computeDiff lines lines)) as Ho.
  pose proof (newSide_length (computeDiff lines lines)) as Hn.
  pose proof (countOps_total (computeDiff lines lines)) as Htotal.
  rewrite Hold in Ho. rewrite Hnew in Hn.
  assert (computeDiff lines lines = mkDiffOp diffEqual <$> (Text <$> computeDiff lines lines))
    as Hall by (apply countOps_all; lia).
  destruct (side_of_all _ _ Hall) as [Hside _].
  rewrite Hall at 1. f_equal. rewrite <- Hside by done. exact Hold.
Qed.

(** X2: the diff of a text against itself changes nothing.  For equal
    line sequences [computeDiff] returns one equal operation for each
    line, in order, and no insert or delete. *)
Theorem computeDiff_same (lines : list string) :
  computeDiff lines lines = mkDiffOp diffEqual <$> lines ∧
  countOps diffInsert (computeDiff lines lines) = 0 ∧
  countOps diffDelete (computeDiff lines lines) = 0.
Proof.
  rewrite computeDiff_refl. split; [done|].
  unfold countOps. split; (induction lines as [|l lines IH]; [done|]);
    cbn [fmap list_fmap]; by rewrite filter_cons, decide_False.
Qed.

(** X3: against the empty text every line is inserted, and from the
    empty text every line is deleted: [computeDiff] on no old lines
    returns one insert for each new line, in order, and on no new lines
    one delete for each old line. *)
Theorem computeDiff_empty_side (lines : list string) :
  computeDiff [] lines = mkDiffOp diffInsert <$> lines ∧
  computeDiff lines [] = mkDiffOp diffDelete <$> lines.
Proof.
  split.
  - destruct (computeDiff_sides [] lines) as [Hold Hnew].
    pose proof (oldSide_length (computeDiff [] lines)) as Ho.
    pose proof (countOps_total (computeDiff [] lines)) as Htotal.
    rewrite Hold in Ho. cbn [length] in Ho.
    assert (computeDiff [] lines = mkDiffOp diffInsert <$> (Text <$> computeDiff [] lines))
      as Hall by (apply countOps_all; lia).
    destruct (side_of_all _ _ Hall) as [_ Hside].
    rewrite Hall at 1. f_equal. rewrite <- Hside by done. exact Hnew.
  - destruct (computeDiff_sides lines []) as [Hold Hnew].
    pose proof (newSide_length (computeDiff lines [])) as Hn.
    pose proof (countOps_total (computeDiff lines [])) as Htotal.
    rewrite Hnew in Hn. cbn [length] in Hn.
    assert (computeDiff lines [] = mkDiffOp diffDelete <$> (Text <$> computeDiff lines []))
      as Hall by (apply countOps_all; lia).
    destruct (side_of_all _ _ Hall) as [Hside _].
    rewrite Hall at 1. f_equal. rewrite <- Hside by done. exact Hold.
Qed.

(** *** The printed diff *)

Lemma string_app_byte (c : ascii) (s : string) : String c "" +:+ s = String c s.
Proof. by rewrite string_app_cons, string_app_nil_l. Qed.

Lemma lineOfSide_diffLine t op :
  (∀ c s, Fg t c s = s) →
  lineOfSide "+" (diffLine t op) =
    (if decide (Type' op = diffInsert) then None else Some (Text op)) ∧
  lineOfSide "-" (diffLine t op) =
    (if decide (Type' op = diffDelete) then None else Some (Text op)).
Proof.
  intros Hfg. unfold diffLine, lineOfSide.
  destruct op as [[] txt]; cbn [Type' Text];
    by rewrite ?Hfg, string_app_byte, TrimSuffix_app.
Qed.

(** X4: the printed diff can be read back.  With a theme that does not
    colour, [printUnifiedDiff] writes the two header lines and then one
    line for each operation; the lines that are not inserts, without
    their first byte and final newline, are the lines of the old text in
    order, and those that are not deletes are the lines of the new
    text. *)
Theorem printUnifiedDiff_reads_back (t : Theme) (oldText newText oldLabel newLabel : string) :
  (∀ c s, Fg t c s = s) →
  let printed := printUnifiedDiff t oldText newText oldLabel newLabel in
  take 2 printed =
    [MutedText t ("--- " +:+ oldLabel) +:+ NL; MutedText t ("+++ " +:+ newLabel) +:+ NL] ∧
  omap (lineOfSide "+") (drop 2 printed) = splitLines oldText ∧
  omap (lineOfSide "-") (drop 2 printed) = splitLines newText.
Proof.
  intros Hfg. cbv zeta. unfold printUnifiedDiff. cbv zeta. cbn [app take drop].
  destruct (computeDiff_sides (splitLines oldText) (splitLines newText)) as [Hold Hnew].
  split; [done|]. rewrite !drop_0.
  set (ops := computeDiff _ _) in *. clearbody ops. split.
  - rewrite <- Hold. unfold oldSide. clear Hold Hnew.
    induction ops as [|op ops IH]; [done|].
    cbn [fmap list_fmap omap list_omap].
    rewrite (proj1 (lineOfSide_diffLine t op Hfg)), filter_cons, IH.
    by repeat case_decide.
  - rewrite <- Hnew. unfold newSide. clear Hold Hnew.
    induction ops as [|op ops IH]; [done|].
    cbn [fmap list_fmap omap list_omap].
    rewrite (proj2 (lineOfSide_diffLine t op Hfg)), filter_cons, IH.
    by repeat case_decide.
Qed.

Lemma printUnifiedDiff_reads_back_witness :
  let printed :=
    printUnifiedDiff plainTheme ("a" +:+ NL +:+ "b" +:+ NL) ("a" +:+ NL +:+ "c" +:+ NL)
      "old" "new" in
  printed = ["--- old" +:+ NL; "+++ new" +:+ NL; " a" +:+ NL; "-b" +:+ NL; "+c" +:+ NL] ∧
  omap (lineOfSide "+") (drop 2 printed) = ["a"; "b"] ∧
  omap (lineOfSide "-") (drop 2 printed) = ["a"; "c"].
Proof.
  cbv zeta. split; [vm_compute; reflexivity|].
  apply (printUnifiedDiff_reads_back plainTheme ("a" +:+ NL +:+ "b" +:+ NL)
           ("a" +:+ NL +:+ "c" +:+ NL) "old" "new").
  reflexivity.
Defined.

(** X5: a text diffed against itself is printed as context only.
    Whatever the theme, after the two header lines [printUnifiedDiff]
    writes each line of the text once, in order, behind one blank and
    uncoloured. *)
Theorem printUnifiedDiff_same_text (t : Theme) (text oldLabel newLabel : string) :
  drop 2 (printUnifiedDiff t text text oldLabel newLabel) =
  (λ line, " " +:+ line +:+ NL) <$> splitLines text.
Proof.
  unfold printUnifiedDiff. cbv zeta. cbn [app drop]. rewrite drop_0, computeDiff_refl.
  rewrite <- list_fmap_compose. done.
Qed.

(** *** Sets of strings, slices of strings *)

Lemma stringSet_ext (a b : list string) :
  (∀ x, x ∈ a ↔ x ∈ b) → stringSet a = stringSet b.
Proof. intros Hab. apply set_eq. intros x. by rewrite !elem_of_stringSet. Qed.

Lemma list_nil_iff_no_elem {A} (l : list A) : l = [] ↔ ∀ x, x ∉ l.
Proof.
  split; [intros -> x; apply not_elem_of_nil|].
  destruct l as [|y l]; [done|]. intros Hno. destruct (Hno y). by left.
Qed.

Lemma diffStringSet_nil_iff (old new : list string) :
  diffStringSet old new = ([], []) ↔ ∀ x, x ∈ old ↔ x ∈ new.
Proof.
  destruct (diffStringSet_spec old new) as (Hadd & Hrem & _).
  destruct (diffStringSet old new) as [added removed]. cbn [fst snd] in *.
  split.
  - intros [= -> ->] x. specialize (Hadd x). specialize (Hrem x).
    rewrite elem_of_nil in Hadd, Hrem.
    destruct (decide (x ∈ old)), (decide (x ∈ new)); tauto.
  - intros Hsame. f_equal; apply list_nil_iff_no_elem; intros x.
    + rewrite Hadd, Hsame. tauto.
    + rewrite Hrem, Hsame. tauto.
Qed.

(** X6: [diffStringSet] compares its arguments as sets.  It reports
    nothing added and nothing removed exactly when the old and the new
    collection have the same elements, and collections with the same
    elements (in another order, or with repetitions) give the same
    result. *)
Theorem diffStringSet_as_sets (old new : list string) :
  (diffStringSet old new = ([], []) ↔ ∀ x, x ∈ old ↔ x ∈ new) ∧
  (∀ old' new', (∀ x, x ∈ old ↔ x ∈ old') → (∀ x, x ∈ new ↔ x ∈ new') →
     diffStringSet old' new' = diffStringSet old new).
Proof.
  split; [apply diffStringSet_nil_iff|].
  intros old' new' Hold Hnew. unfold diffStringSet, diffStringSetVia. cbv zeta.
  by rewrite (stringSet_ext old old'), (stringSet_ext new new').
Qed.

(** X7: [stringSlicesEqual] decides the equality of two slices: it
    returns true exactly when they have the same elements in the same
    order. *)
Theorem stringSlicesEqual_iff (a b : list string) :
  stringSlicesEqual a b = true ↔ a = b.
Proof.
  unfold stringSlicesEqual. split.
  - destruct (length a =? length b) eqn:Hlen; [|done]. cbn [negb].
    apply Nat.eqb_eq in Hlen. rewrite forallb_forall. intros Hall.
    apply (nth_ext a b "" ""); [done|]. intros i Hi.
    apply String.eqb_eq, Hall, in_seq. lia.
  - intros <-. rewrite Nat.eqb_refl. cbn [negb]. apply forallb_forall.
    intros i _. apply String.eqb_refl.
Qed.

(** *** The empty change-set *)

Lemma setIfChanged_eq_None a b : setIfChanged a b = None ↔ a = b.
Proof. unfold setIfChanged. case_decide; naive_solver. Qed.

Lemma pair_nil_iff (p : list string * list string) : p.1 = [] ∧ p.2 = [] ↔ p = ([], []).
Proof. destruct p as [x y]. cbn. split; [by intros [-> ->]|by intros [= -> ->]]. Qed.

(** X8: when [diffIssue] has nothing to report.  The change-set of a
    local record against its original is the empty one exactly when
    title, body, milestone and issue type are equal, labels, assignees
    and projects are the same sets, the state reasons are equal (a
    missing one counting as the empty one), and the state calls for no
    transition: the original has no state, or the same state, or the
    local state is neither [closed] nor [open]. *)
Theorem diffIssue_no_change (original local : issue.Issue) :
  diffIssue original local =
    ghcli.mkIssueChange None None [] [] [] [] [] [] None None None None ↔
  issue.Title original = issue.Title local ∧
  issue.Body original = issue.Body local ∧
  (∀ x, x ∈ issue.Labels original ↔ x ∈ issue.Labels local) ∧
  (∀ x, x ∈ issue.Assignees original ↔ x ∈ issue.Assignees local) ∧
  (∀ x, x ∈ issue.Projects original ↔ x ∈ issue.Projects local) ∧
  issue.Milestone original = issue.Milestone local ∧
  issue.IssueType original = issue.IssueType local ∧
  (issue.State original = "" ∨ issue.State original = issue.State local ∨
   (issue.State local ≠ "closed" ∧ issue.State local ≠ "open")) ∧
  normalizeOptional (issue.StateReason original) =
    normalizeOptional (issue.StateReason local).
Proof.
  unfold diffIssue. cbv zeta.
  set (tr := if decide (issue.State original ≠ "" ∧ _) then _ else _).
  set (sr := if decide (issue.StateReason original ≠ None ∨ _) then _ else _).
  assert (tr = None ↔
          issue.State original = "" ∨ issue.State original = issue.State local ∨
          (issue.State local ≠ "closed" ∧ issue.State local ≠ "open")) as Htr.
  { subst tr. case_decide as Hd.
    - destruct Hd as [Ho Hs]. cbv zeta.
      destruct (decide (issue.State local = "closed")) as [Hc|Hc].
      + rewrite decide_True by done. split; [done|]. by intros [?|[?|[? _]]].
      + destruct (decide (issue.State local = "open")) as [Hop|Hop].
        * rewrite decide_True by done. split; [done|]. by intros [?|[?|[_ ?]]].
        * rewrite decide_False by (intros H; by apply H).
          split; [intros _|done]. by right; right.
    - split; [intros _|done].
      destruct (decide (issue.State original = "")); [by left|].
      destruct (decide (issue.State original = issue.State local)); [by right; left|].
      by destruct Hd. }
  assert (sr = None ↔
          normalizeOptional (issue.StateReason original) =
          normalizeOptional (issue.StateReason local)) as Hsr.
  { subst sr. case_decide as Hd.
    - case_decide as Hn; by split.
    - split; [intros _|done].
      destruct (issue.StateReason original), (issue.StateReason local); try done;
        exfalso; apply Hd; (by left) || (by right). }
  clearbody tr sr.
  pose proof (diffStringSet_nil_iff (issue.Labels original) (issue.Labels local)) as Hl.
  pose proof (diffStringSet_nil_iff (issue.Assignees original) (issue.Assignees local)) as Ha.
  pose proof (diffStringSet_nil_iff (issue.Projects original) (issue.Projects local)) as Hp.
  rewrite <- pair_nil_iff in Hl, Ha, Hp.
  split.
  - intros [= Ht Hb Hal Hrl Haa Hra Hap Hrp Hm Hty Htr' Hsr'].
    rewrite setIfChanged_eq_None in Ht, Hb, Hm, Hty. tauto.
  - intros (Ht & Hb & Hls & Has & Hps & Hm & Hty & Hst & Hreason).
    apply setIfChanged_eq_None in Ht, Hb, Hm, Hty.
    apply Hl in Hls as [-> ->]. apply Ha in Has as [-> ->]. apply Hp in Hps as [-> ->].
    apply Htr in Hst as ->. apply Hsr in Hreason as ->.
    by rewrite Ht, Hb, Hm, Hty.
Qed.

(** *** Remapping, and the flag that reports it *)

Lemma applyMappingToRefs_flag refs mapping changed :
  (applyMappingToRefs refs mapping changed).2 = true ↔
  changed = true ∨ ∃ r, r ∈ refs ∧ is_Some (mapping !! r).
Proof.
  unfold applyMappingToRefs. destruct refs as [|r0 refs0].
  { cbn. split; [by left|]. intros [?|(r & ?%elem_of_nil & _)]; done. }
  rewrite decide_False by done. generalize (r0 :: refs0). clear r0 refs0. intros refs.
  assert (∀ acc c,
            (foldl (λ '(updated, changed) ref,
                      match mapping !! ref with
                      | Some real => (updated ++ [real], true)
                      | None => (updated ++ [ref], changed)
                      end) (acc, c) refs).2 = true ↔
            c = true ∨ ∃ r, r ∈ refs ∧ is_Some (mapping !! r)) as Hgen.
  { induction refs as [|r refs IH]; intros acc c; cbn [foldl].
    - cbn. split; [by left|]. intros [?|(r & ?%elem_of_nil & _)]; done.
    - destruct (mapping !! r) as [real|] eqn:Hr; rewrite IH; split.
      + intros _. right. exists r. split; [by left|by rewrite Hr].
      + intros _. by left.
      + intros [?|(r' & Hin & Hsome)]; [by left|]. right. exists r'. split; [by right|done].
      + intros [?|(r' & [->|Hin]%elem_of_cons & Hsome)]; [by left| |].
        * rewrite Hr in Hsome. by destruct Hsome.
        * right. by exists r'. }
  apply Hgen.
Qed.

(** X9: [applyMappingToRefs] replaces each reference the mapping knows
    by what it maps to and keeps the others, in order; the flag it
    returns is set exactly when the flag it was given was set or some
    reference was in the mapping. *)
Theorem applyMappingToRefs_correct (refs : list issue.IssueRef)
    (mapping : gmap string string) (changed : bool) :
  (applyMappingToRefs refs mapping changed).1 = remapRef mapping <$> refs ∧
  length (applyMappingToRefs refs mapping changed).1 = length refs ∧
  ((applyMappingToRefs refs mapping changed).2 = true ↔
   changed = true ∨ ∃ r, r ∈ refs ∧ is_Some (mapping !! r)).
Proof.
  split_and!.
  - apply applyMappingToRefs_spec.
  - by rewrite applyMappingToRefs_spec, length_fmap.
  - apply applyMappingToRefs_flag.
Qed.

Lemma applyMappingToRefs_quiet refs mapping changed :
  (changed = true → (applyMappingToRefs refs mapping changed).2 = true) ∧
  ((applyMappingToRefs refs mapping changed).2 = false →
   (applyMappingToRefs refs mapping changed).1 = refs).
Proof.
  split.
  - intros ->. apply applyMappingToRefs_flag. by left.
  - intros Hflag. rewrite applyMappingToRefs_spec.
    rewrite <- (list_fmap_id refs) at 2. apply list_fmap_ext. intros i r Hr.
    unfold remapRef. destruct (mapping !! r) as [real|] eqn:Hm; [|done].
    assert ((applyMappingToRefs refs mapping changed).2 = true) as Htrue.
    { apply applyMappingToRefs_flag. right. exists r.
      split; [by eapply list_elem_of_lookup_2|by rewrite Hm]. }
    congruence.
Qed.

Lemma replaceAllFrom_flag mapping skip s :
  (replaceAllFrom (remapMatch mapping) skip s true).2 = true.
Proof.
  revert skip. induction s as [|c rest IH]; intros skip; [done|].
  cbn [replaceAllFrom]. destruct skip as [|k]; [|apply IH].
  destruct (matchLocalRef (String c rest)) as [m|].
  - assert ((remapMatch mapping m true).2 = true) as Hm.
    { unfold remapMatch. by destruct (mapping !! _). }
    destruct (remapMatch mapping m true) as [out c1]. cbn in Hm. subst c1.
    specialize (IH (String.length m - 1)).
    by destruct (replaceAllFrom (remapMatch mapping) (String.length m - 1) rest true).
  - specialize (IH 0). by destruct (replaceAllFrom (remapMatch mapping) 0 rest true).
Qed.

Section applyMapping_flag.
Variable mapping : gmap string string.

(** Once the flag is set it stays set: the rest of [applyMapping] from
    the references on, from the parent on, and from the title on. *)
Ltac refs_true :=
  repeat match goal with
  | |- context [applyMappingToRefs ?r mapping true] =>
      let H := fresh in
      destruct (applyMappingToRefs_quiet r mapping true) as [H _];
      destruct (applyMappingToRefs r mapping true) as [? ?];
      cbn [fst snd] in H; rewrite H by done; clear H
  end; done.

Ltac parent_true :=
  let step := fresh "step" in
  let Hstep := fresh "Hstep" in
  set (step := match issue.Parent _ with Some _ => _ | None => _ end);
  assert (step.2 = true) as Hstep
    by (subst step;
        match goal with
        | |- context [issue.Parent ?i] =>
            destruct (issue.Parent i) as [p|]; [by destruct (mapping !! p)|done]
        end);
  destruct step as [? ?]; cbn [snd] in Hstep; rewrite Hstep; clear Hstep;
  refs_true.

Ltac title_true title :=
  let Ht := fresh "Ht" in
  let step := fresh "step" in
  let Hstep := fresh "Hstep" in
  pose proof (replaceAllFrom_flag mapping 0 title) as Ht;
  destruct (replaceAllFrom (remapMatch mapping) 0 title true) as [? ?];
  cbn [snd] in Ht; rewrite Ht; clear Ht;
  set (step := if decide (_ ≠ title) then _ else _);
  assert (step.2 = true) as Hstep by (subst step; by case_decide);
  destruct step as [? ?]; cbn [snd] in Hstep; rewrite Hstep; clear Hstep;
  parent_true.

Lemma applyMapping_unflagged (item : issue.Issue) :
  (applyMapping item mapping).2 = false → (applyMapping item mapping).1 = item.
Proof.
  destruct item as [num title body lab asg prj ms ty st sr parent bb bl syn].
  unfold applyMapping, ReplaceAllStringFunc. cbn [issue.Body].
  destruct (replaceAllFrom (remapMatch mapping) 0 body false) as [body' c1] eqn:Hb.
  destruct (decide (body' ≠ body)) as [Hbody|Hbody].
  { cbn [setBody issue.Title]. title_true title. }
  apply dec_stable in Hbody. subst body'. cbn [issue.Title].
  destruct c1; [title_true title|].
  destruct (replaceAllFrom (remapMatch mapping) 0 title false) as [title' c2] eqn:Ht.
  destruct (decide (title' ≠ title)) as [Htitle|Htitle].
  { parent_true. }
  apply dec_stable in Htitle. subst title'.
  destruct c2; [parent_true|]. cbn [issue.Parent].
  assert (∀ p : option issue.IssueRef,
    let after :=
      let '(blockedBy, changed) :=
        applyMappingToRefs
          (issue.BlockedBy (issue.mkIssue num title body lab asg prj ms ty st sr p bb bl syn))
          mapping false in
      let issueItem :=
        setBlockedBy (issue.mkIssue num title body lab asg prj ms ty st sr p bb bl syn)
          blockedBy in
      let '(blocks, changed) := applyMappingToRefs (issue.Blocks issueItem) mapping changed in
      (setBlocks issueItem blocks, changed) in
    after.2 = false →
    after.1 = issue.mkIssue num title body lab asg prj ms ty st sr p bb bl syn) as Hrefs.
  { intros p. cbv zeta. cbn [issue.BlockedBy].
    destruct (applyMappingToRefs_quiet bb mapping false) as [_ Hbb].
    destruct (applyMappingToRefs bb mapping false) as [bb' c3].
    cbn [fst snd] in Hbb. cbn [setBlockedBy issue.Blocks].
    destruct c3; [refs_true|]. rewrite Hbb by done.
    destruct (applyMappingToRefs_quiet bl mapping false) as [_ Hbl].
    destruct (applyMappingToRefs bl mapping false) as [bl' c4].
    cbn [fst snd] in Hbl |- *. intros ->. by rewrite Hbl. }
  destruct parent as [p|]; [|apply (Hrefs None)].
  destruct (mapping !! p) as [real|]; [|apply (Hrefs (Some p))].
  cbn [setParent issue.Title issue.Body issue.Number issue.Labels issue.Assignees
       issue.Projects issue.Milestone issue.IssueType issue.State issue.StateReason
       issue.Parent issue.BlockedBy issue.Blocks issue.SyncedAt].
  refs_true.
Qed.
End applyMapping_flag.

(** X10: [applyMapping] reports every modification.  Whatever the
    mapping, when it returns false the record is as it was; and it never
    touches the number, the labels, the assignees, the projects, the
    milestone, the issue type, the state, the state reason or the time
    of the last sync. *)
Theorem applyMapping_reports_change (item : issue.Issue) (mapping : gmap string string) :
  let after := (applyMapping item mapping).1 in
  ((applyMapping item mapping).2 = false → after = item) ∧
  issue.Number after = issue.Number item ∧
  issue.Labels after = issue.Labels item ∧
  issue.Assignees after = issue.Assignees item ∧
  issue.Projects after = issue.Projects item ∧
  issue.Milestone after = issue.Milestone item ∧
  issue.IssueType after = issue.IssueType item ∧
  issue.State after = issue.State item ∧
  issue.StateReason after = issue.StateReason item ∧
  issue.SyncedAt after = issue.SyncedAt item.
Proof.
  cbv zeta. split; [apply applyMapping_unflagged|].
  destruct (applyMapping_fields mapping item) as (c1 & c2 & c3 & c4 & ->).
  by split_and!.
Qed.

(** *** Picking records by argument *)

Lemma foldl_snoc_filter {A} (P : A → Prop) `{∀ x, Decision (P x)}
    (f : list A → A → list A) (l acc : list A) :
  (∀ acc x, f acc x = if decide (P x) then acc ++ [x] else acc) →
  foldl f acc l = acc ++ filter P l.
Proof.
  intros Hf. revert acc. induction l as [|x l IH]; intros acc; cbn [foldl].
  - by rewrite filter_nil, app_nil_r.
  - rewrite IH, Hf, filter_cons. case_decide; [|done]. by rewrite <- app_assoc.
Qed.

Section filterIssuesByArgs_facts.
Variable PathSeparator : ascii.
Variable Clean : string → string.
Variable IsAbs : string → bool.
Variable JoinPath : string → string → string.
Variable Rel : string → string → result string.
Variable ToSlash : string → string.
Variable pathName : FilePath → string.
Variable root : string.

Local Abbreviation isPath := (isPathArg PathSeparator).
Local Abbreviation wanted := (wantedOf PathSeparator Clean IsAbs JoinPath root).
Local Abbreviation rel := (relPath Rel ToSlash root).

Local Abbreviation asksNumber := (asksNumber PathSeparator).
Local Abbreviation asksPath := (asksPath PathSeparator Clean IsAbs JoinPath root).

Lemma wantedOf_spec args :
  (∀ p, p ∈ (wanted args).1 ↔ asksPath args p) ∧
  (∀ k, k ∈ (wanted args).2 ↔ asksNumber args k).
Proof.
  unfold wantedOf.
  set (step := λ '(pathsWanted, idsWanted) arg, _).
  assert (∀ (acc : gset string * gset string),
            (∀ p, p ∈ (foldl step acc args).1 ↔ p ∈ acc.1 ∨ asksPath args p) ∧
            (∀ k, k ∈ (foldl step acc args).2 ↔ k ∈ acc.2 ∨ asksNumber args k)) as Hgen.
  { induction args as [|arg args IH]; intros [pw iw]; cbn [foldl].
    - split; intros x; (split; [by left|]);
        (intros [?|(arg & ?%elem_of_nil & _)]; done).
    - destruct (IH (step (pw, iw) arg)) as [IHp IHk]. clear IH.
      assert (∀ x, asksPath (arg :: args) x ↔
                   (TrimSpace arg ≠ "" ∧ isPath (TrimSpace arg) = true ∧
                    (x = Clean (TrimSpace arg) ∨
                     (IsAbs (Clean (TrimSpace arg)) = false ∧
                      x = JoinPath root (Clean (TrimSpace arg))))) ∨
                   asksPath args x) as Hp.
      { intros x. unfold asksPath. split.
        - intros (a & [->|Ha]%elem_of_cons & Hrest); [by left|right; eauto].
        - intros [Hhere|(a & Ha & Hrest)].
          + exists arg. split; [by left|done].
          + exists a. split; [by right|done]. }
      assert (∀ x, asksNumber (arg :: args) x ↔
                   (TrimSpace arg ≠ "" ∧ isPath (TrimSpace arg) = false ∧
                    x = TrimSpace arg) ∨
                   asksNumber args x) as Hk.
      { intros x. unfold asksNumber. split.
        - intros (a & [->|Ha]%elem_of_cons & Hrest); [by left|right; eauto].
        - intros [Hhere|(a & Ha & Hrest)].
          + exists arg. split; [by left|done].
          + exists a. split; [by right|done]. }
      split; intros x; [rewrite IHp, Hp|rewrite IHk, Hk]; subst step; cbv beta zeta;
        cbn [fst snd];
        (destruct (String.eqb (TrimSpace arg) "") eqn:Hempty;
         [apply String.eqb_eq in Hempty|apply String.eqb_neq in Hempty]);
        [cbn [fst]; tauto| |cbn [snd]; tauto|].
      + destruct (isPath (TrimSpace arg)) eqn:Hpath; cbn [fst]; [|intuition congruence].
        destruct (IsAbs (Clean (TrimSpace arg))) eqn:Habs; cbn [negb];
          rewrite ?elem_of_union, ?elem_of_singleton; intuition congruence.
      + destruct (isPath (TrimSpace arg)) eqn:Hpath; cbn [snd]; [intuition congruence|].
        rewrite elem_of_union, elem_of_singleton. intuition congruence. }
  destruct (Hgen (∅, ∅)) as [Hp Hk]. cbn [fst snd] in Hp, Hk.
  split; intros x; [rewrite Hp|rewrite Hk]; rewrite elem_of_empty; tauto.
Qed.

(** X11: what [filterIssuesByArgs] keeps.  Without arguments it returns
    every record.  With arguments it keeps, in their order, the records
    an argument asks for: by number (an argument that is not blank, does
    not end in [.md] and holds no path separator, trimmed), or by path
    (the cleaned path of the record file, or its cleaned path relative to
    the root, is the cleaned argument or, when that is not absolute, the
    cleaned argument joined to the root); and it fails with [no matching
    issues] exactly when it keeps none, blank arguments included. *)
Theorem filterIssuesByArgs_keeps (issues : list IssueFile.t) (args : list string) :
  let asked item :=
    asksNumber args (issue.Number (IssueFile.Issue item)) ∨
    asksPath args (Clean (pathName (IssueFile.Path item))) ∨
    asksPath args (Clean (rel (pathName (IssueFile.Path item)))) in
  match filterIssuesByArgs PathSeparator Clean IsAbs JoinPath Rel ToSlash pathName
          root issues args with
  | Ok filtered =>
      filtered `sublist_of` issues ∧
      (args = [] → filtered = issues) ∧
      (args ≠ [] → filtered ≠ [] ∧ ∀ item, item ∈ filtered ↔ item ∈ issues ∧ asked item)
  | Err e =>
      args ≠ [] ∧
      e = ErrOther ("no matching issues for arguments: " +:+ Join args ", ") ∧
      ∀ item, item ∈ issues → ¬ asked item
  end.
Proof.
  cbv zeta. unfold filterIssuesByArgs.
  destruct args as [|arg0 args0]; [by cbn|].
  cbn [length Nat.eqb]. generalize (arg0 :: args0) (@nil_cons _ arg0 args0).
  clear arg0 args0. intros args Hargs.
  destruct (wantedOf_spec args) as [Hp Hk].
  destruct (wanted args) as [pw iw]. cbn [fst snd] in Hp, Hk.
  rewrite (foldl_snoc_filter
             (λ item, issue.Number (IssueFile.Issue item) ∈ iw ∨
                      Clean (pathName (IssueFile.Path item)) ∈ pw ∨
                      Clean (rel (pathName (IssueFile.Path item))) ∈ pw)).
  2:{ intros acc item. cbv zeta. repeat case_decide; tauto. }
  rewrite app_nil_l.
  set (filtered := filter _ issues).
  assert (∀ item, item ∈ filtered ↔
            item ∈ issues ∧
            (asksNumber args (issue.Number (IssueFile.Issue item)) ∨
             asksPath args (Clean (pathName (IssueFile.Path item))) ∨
             asksPath args (Clean (rel (pathName (IssueFile.Path item)))))) as Hin.
  { intros item. subst filtered. rewrite list_elem_of_filter, Hk, !Hp. tauto. }
  destruct (length filtered =? 0) eqn:Hlen.
  - apply Nat.eqb_eq, length_zero_iff_nil in Hlen.
    split_and!; [done..|]. intros item Hitem Hasked.
    assert (item ∈ filtered) as Hf by (apply Hin; done).
    rewrite Hlen in Hf. by apply elem_of_nil in Hf.
  - apply Nat.eqb_neq in Hlen. split_and!.
    + apply sublist_filter.
    + done.
    + intros _. split; [|done]. intros ->. done.
Qed.
End filterIssuesByArgs_facts.

(** *** Loading from any store *)

Lemma loadLocalIssuesWithErrors_cases st :
  loadLocalIssuesWithErrors st =
  match openDir st with
  | DirUnreadable msg => LoadResult.mk [] [ParseError.mk (OpenDir, "") (ErrOther msg)]
  | _ =>
      match closedDir st with
      | DirUnreadable msg =>
          LoadResult.mk (parsedIn st OpenDir "open")
            (failedIn st OpenDir ++ [ParseError.mk (ClosedDir, "") (ErrOther msg)])
      | _ =>
          LoadResult.mk (parsedIn st OpenDir "open" ++ parsedIn st ClosedDir "closed")
            (failedIn st OpenDir ++ failedIn st ClosedDir)
      end
  end.
Proof.
  destruct (openDir st) as [|msg|nodes] eqn:Hopen.
  - destruct (closedDir st) as [|msg'|nodes'] eqn:Hclosed.
    + unfold loadLocalIssuesWithErrors. rewrite loadDirs_readable by congruence. done.
    + assert (ReadDir st OpenDir = Err ErrNotExist) as Ho
        by (unfold ReadDir; cbn [dirState]; by rewrite Hopen).
      assert (ReadDir st ClosedDir = Err (ErrOther msg')) as Hc
        by (unfold ReadDir; cbn [dirState]; by rewrite Hclosed).
      unfold loadLocalIssuesWithErrors, parsedIn, failedIn, recordEntries.
      cbn [loadDirs]. by rewrite Ho, Hc.
    + unfold loadLocalIssuesWithErrors. rewrite loadDirs_readable by congruence. done.
  - assert (ReadDir st OpenDir = Err (ErrOther msg)) as Ho
      by (unfold ReadDir; cbn [dirState]; by rewrite Hopen).
    unfold loadLocalIssuesWithErrors. cbn [loadDirs]. by rewrite Ho.
  - destruct (closedDir st) as [|msg'|nodes'] eqn:Hclosed.
    + unfold loadLocalIssuesWithErrors. rewrite loadDirs_readable by congruence. done.
    + assert (∃ entries, ReadDir st OpenDir = Ok entries) as [entries Ho]
        by (unfold ReadDir; cbn [dirState]; rewrite Hopen; eauto).
      assert (ReadDir st ClosedDir = Err (ErrOther msg')) as Hc
        by (unfold ReadDir; cbn [dirState]; by rewrite Hclosed).
      unfold loadLocalIssuesWithErrors, parsedIn, failedIn, recordEntries.
      cbn [loadDirs]. rewrite Ho, Hc, foldl_loadEntry. done.
    + unfold loadLocalIssuesWithErrors. rewrite loadDirs_readable by congruence. done.
Qed.

(** X12: a directory that cannot be read ends the load.  When [open/]
    cannot be listed, [loadLocalIssuesWithErrors] returns no record and
    that one error, whatever [closed/] holds; when [open/] can and
    [closed/] cannot, it returns the records and the file errors of
    [open/] and then the error of [closed/].  [loadLocalIssues] fails in
    both cases. *)
Theorem load_unreadable_directory (st : Store issue.Issue) (msg : string) :
  (openDir st = DirUnreadable msg →
   loadLocalIssuesWithErrors st =
     LoadResult.mk [] [ParseError.mk (OpenDir, "") (ErrOther msg)] ∧
   loadLocalIssues st = Err (ErrParse (OpenDir, "") (ErrOther msg))) ∧
  ((∀ m, openDir st ≠ DirUnreadable m) → closedDir st = DirUnreadable msg →
   loadLocalIssuesWithErrors st =
     LoadResult.mk (parsedIn st OpenDir "open")
       (failedIn st OpenDir ++ [ParseError.mk (ClosedDir, "") (ErrOther msg)]) ∧
   isOk (loadLocalIssues st) = false).
Proof.
  split.
  - intros Hopen. unfold loadLocalIssues. cbv zeta.
    rewrite loadLocalIssuesWithErrors_cases, Hopen. done.
  - intros Hopen Hclosed. unfold loadLocalIssues. cbv zeta.
    rewrite loadLocalIssuesWithErrors_cases, Hclosed.
    destruct (openDir st) as [|m|nodes]; [|by destruct (Hopen m)|];
      (split; [done|]); cbn [LoadResult.Errors];
      by destruct (failedIn st OpenDir).
Qed.

Lemma elem_of_failedIn st d e :
  e ∈ failedIn st d →
  (ParseError.Path e).1 = d ∧ HasSuffix (ParseError.Path e).2 ".md" = true ∧
  readPath st (ParseError.Path e) = Err (ParseError.Err e).
Proof.
  unfold failedIn, failedOf, recordEntries. rewrite list_elem_of_omap.
  intros (entry & Hentry & He).
  destruct (ReadDir st d) as [entries|]; [|by apply elem_of_nil in Hentry].
  apply list_elem_of_filter in Hentry as [[_ Hmd] _].
  destruct (readPath st (d, Name entry)) as [|err] eqn:Hread; [done|].
  injection He as <-. done.
Qed.

Lemma loaded_issue_sound st d state f :
  f ∈ parsedIn st d state →
  (IssueFile.Path f).1 = d ∧ IssueFile.State f = state ∧
  HasSuffix (IssueFile.Path f).2 ".md" = true ∧
  issue.State (IssueFile.Issue f) = state ∧
  ∃ parsed, readPath st (IssueFile.Path f) = Ok parsed ∧
            IssueFile.Issue f = setState parsed state.
Proof.
  intros (name & i & Hmd & Hnode & ->)%elem_of_parsedIn. cbn.
  split_and!; [done..|]. exists i. split; [|done]. by apply readPath_Ok_nodeAt.
Qed.

(** X13: what [loadLocalIssuesWithErrors] returns, for any store.  Every
    record it returns comes from a file of [open/] or [closed/] whose
    name ends in [.md] and that parses; its state and the state of its
    record are the one of the directory, [open] or [closed], whatever the
    file says, and the rest of the record is as parsed.  Every error it
    returns is the failure to parse such a file, or the failure to list
    one of the two directories (other than its absence). *)
Theorem loaded_records_sound (st : Store issue.Issue) :
  Forall (λ f, recordDir (IssueFile.Path f).1 ∧
               HasSuffix (IssueFile.Path f).2 ".md" = true ∧
               IssueFile.State f = stateName (IssueFile.Path f).1 ∧
               issue.State (IssueFile.Issue f) = IssueFile.State f ∧
               ∃ parsed, readPath st (IssueFile.Path f) = Ok parsed ∧
                         IssueFile.Issue f = setState parsed (IssueFile.State f))
         (LoadResult.Issues (loadLocalIssuesWithErrors st)) ∧
  Forall (λ e, recordDir (ParseError.Path e).1 ∧
               ((HasSuffix (ParseError.Path e).2 ".md" = true ∧
                 readPath st (ParseError.Path e) = Err (ParseError.Err e)) ∨
                ((ParseError.Path e).2 = "" ∧
                 ReadDir st (ParseError.Path e).1 = Err (ParseError.Err e) ∧
                 ParseError.Err e ≠ ErrNotExist)))
         (LoadResult.Errors (loadLocalIssuesWithErrors st)).
Proof.
  assert (∀ d state, recordDir d → state = stateName d →
            Forall (λ f, recordDir (IssueFile.Path f).1 ∧
               HasSuffix (IssueFile.Path f).2 ".md" = true ∧
               IssueFile.State f = stateName (IssueFile.Path f).1 ∧
               issue.State (IssueFile.Issue f) = IssueFile.State f ∧
               ∃ parsed, readPath st (IssueFile.Path f) = Ok parsed ∧
                         IssueFile.Issue f = setState parsed (IssueFile.State f))
              (parsedIn st d state)) as Hissues.
  { intros d state Hd Hstate. apply Forall_forall. intros f Hf.
    apply loaded_issue_sound in Hf as (Hdir & Hst & Hmd & Hs & parsed & Hread & Hi).
    rewrite Hdir, Hst. split_and!; [done..|congruence|]. eauto. }
  assert (∀ d, recordDir d →
            Forall (λ e, recordDir (ParseError.Path e).1 ∧
               ((HasSuffix (ParseError.Path e).2 ".md" = true ∧
                 readPath st (ParseError.Path e) = Err (ParseError.Err e)) ∨
                ((ParseError.Path e).2 = "" ∧
                 ReadDir st (ParseError.Path e).1 = Err (ParseError.Err e) ∧
                 ParseError.Err e ≠ ErrNotExist)))
              (failedIn st d)) as Herrors.
  { intros d Hd. apply Forall_forall. intros e He.
    apply elem_of_failedIn in He as (Hdir & Hmd & Hread). rewrite Hdir. split; [done|].
    by left. }
  assert (∀ d msg, recordDir d → dirState st d = DirUnreadable msg →
            Forall (λ e, recordDir (ParseError.Path e).1 ∧
               ((HasSuffix (ParseError.Path e).2 ".md" = true ∧
                 readPath st (ParseError.Path e) = Err (ParseError.Err e)) ∨
                ((ParseError.Path e).2 = "" ∧
                 ReadDir st (ParseError.Path e).1 = Err (ParseError.Err e) ∧
                 ParseError.Err e ≠ ErrNotExist)))
              [ParseError.mk (d, "") (ErrOther msg)]) as Hdir.
  { intros d msg Hd Hds. apply Forall_singleton. cbn. split; [done|]. right.
    unfold ReadDir. by rewrite Hds. }
  assert (recordDir OpenDir) as Ho by by left.
  assert (recordDir ClosedDir) as Hc by by right.
  rewrite loadLocalIssuesWithErrors_cases.
  destruct (openDir st) as [|msg|nodes] eqn:Hopen;
    [|cbn [LoadResult.Issues LoadResult.Errors]; split; [apply Forall_nil|by apply Hdir]|];
    (destruct (closedDir st) as [|msg'|nodes'] eqn:Hclosed;
     cbn [LoadResult.Issues LoadResult.Errors]; split;
     repeat (apply Forall_app; split);
     try (by apply Hissues); try (by apply Herrors); by apply Hdir).
Qed.



(** *** The look-up tables of the caches *)

Lemma lastWithKey_snoc {A} (key : A → string) k l y x :
  lastWithKey key k (l ++ [y]) x ↔
  (key y = k ∧ x = y) ∨ (key y ≠ k ∧ lastWithKey key k l x).
Proof.
  unfold lastWithKey. split.
  - intros (before & after & Hl & Hk & Hafter).
    destruct after as [|z after _] using rev_ind.
    + apply app_inj_tail in Hl as [-> ->]. by left.
    + rewrite app_comm_cons, app_assoc in Hl. apply app_inj_tail in Hl as [-> ->].
      apply Forall_app in Hafter as [Hafter Hz]. apply Forall_inv in Hz. right.
      split; [exact Hz|]. by exists before, after.
  - intros [[Hk ->]|[Hy (before & after & -> & Hk & Hafter)]].
    + exists l, []. split_and!; [done..|constructor].
    + exists before, (after ++ [y]). split_and!; [by rewrite <- app_assoc|done|].
      apply Forall_app. split; [done|]. by apply Forall_singleton.
Qed.

Lemma lookup_foldl_insert {A V} (key : A → string) (val : A → V) (l : list A) k v :
  foldl (λ m x, <[key x := val x]> m) (∅ : gmap string V) l !! k = Some v ↔
  ∃ x, lastWithKey key k l x ∧ val x = v.
Proof.
  induction l as [|y l IH] using rev_ind.
  - cbn. rewrite lookup_empty. split; [done|].
    intros (x & (before & after & Hl & _) & _). by destruct before.
  - rewrite foldl_app. cbn [foldl]. destruct (decide (key y = k)) as [Hy|Hy].
    + rewrite Hy, lookup_insert_eq. split.
      * intros [= <-]. exists y. split; [|done]. apply lastWithKey_snoc. by left.
      * intros (x & [[_ ->]|[? _]]%lastWithKey_snoc & <-); done.
    + rewrite lookup_insert_ne by done. rewrite IH. split.
      * intros (x & Hx & Hv). exists x. split; [|done]. apply lastWithKey_snoc. by right.
      * intros (x & [[? _]|[_ Hx]]%lastWithKey_snoc & Hv); [done|]. by exists x.
Qed.

(** X15: the colour [labelCacheToColorMap] gives a name is the colour of
    the last label of the cache with that name in lower case; a name no
    label has in lower case is not in the map. *)
Theorem labelCacheToColorMap_lookup (toLower : string → string) (cache : LabelCache.t)
    (k color : string) :
  labelCacheToColorMap toLower cache !! k = Some color ↔
  ∃ l, lastWithKey (λ l, toLower (LabelEntry.Name l)) k (LabelCache.Labels cache) l ∧
       LabelEntry.Color l = color.
Proof. unfold labelCacheToColorMap. apply lookup_foldl_insert. Qed.

(** X16: the cache [labelsFromColorMap] makes of a colour map gives the
    map back.  Whatever order the map is visited in and however the
    unstable sort arranges labels of equal rank, [labelCacheToColorMap]
    of [labelsFromColorMap colors] is [colors], when the names of
    [colors] are in lower case (as those of a map made by
    [labelCacheToColorMap] are). *)
Theorem labels_round_trip (toLower : string → string)
    (rangeMap : gmap string string → list (string * string))
    (sortSlice : (LabelEntry.t → LabelEntry.t → bool) → list LabelEntry.t → list LabelEntry.t)
    (colors : gmap string string) (syncedAt : Z) :
  (∀ m, rangeMap m ≡ₚ map_to_list m) →
  (∀ less l, sortSlice less l ≡ₚ l) →
  (∀ name color, colors !! name = Some color → toLower name = name) →
  labelCacheToColorMap toLower
    (labelsFromColorMapVia toLower rangeMap sortSlice colors syncedAt) = colors.
Proof.
  intros Hrange Hsort Hlower. apply map_eq. intros k. apply option_eq. intros color.
  unfold labelCacheToColorMap, labelsFromColorMapVia. cbv zeta. cbn [LabelCache.Labels].
  rewrite (lookup_foldl_insert (λ l, toLower (LabelEntry.Name l)) LabelEntry.Color).
  set (labels := sortSlice _ _).
  assert (∀ l, l ∈ labels ↔
               colors !! LabelEntry.Name l = Some (LabelEntry.Color l)) as Hin.
  { intros l. subst labels. rewrite Hsort, list_elem_of_fmap. split.
    - intros ([name c] & -> & Hentry). rewrite Hrange in Hentry.
      by apply elem_of_map_to_list in Hentry.
    - intros Hl. exists (LabelEntry.Name l, LabelEntry.Color l). split; [by destruct l|].
      rewrite Hrange. by apply elem_of_map_to_list. }
  clearbody labels. split.
  - intros (l & (before & after & -> & Hk & _) & <-).
    assert (l ∈ before ++ l :: after) as Hl by (apply elem_of_app; right; by left).
    apply Hin in Hl. by rewrite <- Hk, (Hlower _ _ Hl).
  - intros Hcolor.
    assert (LabelEntry.mk k color ∈ labels) as Hl by by apply Hin.
    apply list_elem_of_split_r in Hl as (before & after & -> & Hnotin).
    exists (LabelEntry.mk k color). split; [|done].
    exists before, after. split_and!; [done|by apply (Hlower k color)|].
    apply Forall_forall. intros y Hy Hkey.
    assert (y ∈ before ++ LabelEntry.mk k color :: after) as Hy'
      by (apply elem_of_app; right; by right).
    apply Hin in Hy'. rewrite (Hlower _ _ Hy') in Hkey.
    apply Hnotin. destruct y as [name c]. cbn in *. subst name.
    rewrite Hcolor in Hy'. by injection Hy' as ->.
Qed.

Lemma labels_round_trip_witness :
  let colors : gmap string string := {[ "bug" := "d73a4a"; "docs" := "0075ca" ]} in
  labelCacheToColorMap ToLower
    (labelsFromColorMapVia ToLower map_to_list (λ _ l, reverse l) colors 0) = colors.
Proof.
  cbv zeta.
  apply (labels_round_trip ToLower map_to_list (λ _ l, reverse l)
           {[ "bug" := "d73a4a"; "docs" := "0075ca" ]} 0).
  - done.
  - intros less l. apply reverse_Permutation.
  - intros name color Hname.
    apply lookup_insert_Some in Hname as [[<- _]|[_ Hname]]; [done|].
    by apply lookup_singleton_Some in Hname as [<- _].
Defined.

Lemma elem_of_foldl_union {A} (key : A → string) (l : list A) k :
  k ∈ foldl (λ (m : gset string) x, {[key x]} ∪ m) ∅ l ↔ ∃ x, x ∈ l ∧ key x = k.
Proof.
  assert (∀ acc : gset string,
            k ∈ foldl (λ (m : gset string) x, {[key x]} ∪ m) acc l ↔
            k ∈ acc ∨ ∃ x, x ∈ l ∧ key x = k) as Hgen.
  { induction l as [|y l IH]; intros acc; cbn [foldl].
    - split; [by left|]. intros [?|(x & ?%elem_of_nil & _)]; done.
    - rewrite IH, elem_of_union, elem_of_singleton. split.
      + intros [[->|?]|(x & Hx & Hk)]; [right|by left|right].
        * exists y. split; [by left|done].
        * exists x. split; [by right|done].
      + intros [?|(x & [->|Hx]%elem_of_cons & Hk)]; [by left; right|by left; left|].
        right. by exists x. }
  rewrite Hgen, elem_of_empty. split; [by intros [[]|?]|by right].
Qed.

(** X17: the three other look-up tables.  [milestoneNames] holds a key
    exactly when it is the title of a milestone of the cache in lower
    case; [issueTypeByName] and [projectByTitle] give for a key the last
    entry of the cache whose name (title) in lower case is the key, and
    nothing for a key that no entry has. *)
Theorem cache_tables_lookup (toLower : string → string) (k : string) :
  (∀ cache, k ∈ milestoneNames toLower cache ↔
     ∃ ms, ms ∈ MilestoneCache.Milestones cache ∧ toLower (MilestoneEntry.Title ms) = k) ∧
  (∀ cache it, issueTypeByName toLower cache !! k = Some it ↔
     lastWithKey (λ it, toLower (IssueTypeEntry.Name it)) k
       (IssueTypeCache.IssueTypes cache) it) ∧
  (∀ cache p, projectByTitle toLower cache !! k = Some p ↔
     lastWithKey (λ p, toLower (ProjectEntry.Title p)) k (ProjectCache.Projects cache) p).
Proof.
  split_and!.
  - intros cache. apply elem_of_foldl_union.
  - intros cache it. unfold issueTypeByName.
    rewrite (lookup_foldl_insert (λ it, toLower (IssueTypeEntry.Name it)) (λ it, it)).
    split; [by intros (x & Hx & <-)|eauto].
  - intros cache p. unfold projectByTitle.
    rewrite (lookup_foldl_insert (λ p, toLower (ProjectEntry.Title p)) (λ p, p)).
    split; [by intros (x & Hx & <-)|eauto].
Qed.

(** *** Pending comments: which file, which number *)

Lemma prefix_app (p s : string) : String.prefix p s = true → ∃ rest, s = p +:+ rest.
Proof.
  revert s. induction p as [|c p IH]; intros s Hp.
  - exists s. by rewrite string_app_nil_l.
  - destruct s as [|c' s]; [done|]. cbn in Hp.
    destruct (ascii_dec c c') as [<-|]; [|done].
    destruct (IH s Hp) as [rest ->]. exists rest. by rewrite string_app_cons.
Qed.

Lemma string_app_overlap (pre rest front suf : string) :
  pre +:+ rest = front +:+ suf → String.length pre ≤ String.length front →
  ∃ mid, front = pre +:+ mid.
Proof.
  revert front. induction pre as [|c pre IH]; intros front Heq Hlen.
  - exists front. by rewrite string_app_nil_l.
  - destruct front as [|c' front]; [cbn in Hlen; lia|].
    rewrite !string_app_cons in Heq. injection Heq as <- Heq.
    destruct (IH front Heq) as [mid ->]; [cbn in Hlen; lia|].
    exists mid. by rewrite string_app_cons.
Qed.

Lemma matchStar_split pre suf name :
  matchStar pre suf name = true → ∃ mid, name = pre +:+ mid +:+ suf.
Proof.
  unfold matchStar, HasPrefix.
  intros [[Hpre Hsuf]%andb_true_iff Hlen%Nat.leb_le]%andb_true_iff.
  apply prefix_app in Hpre as [rest Hrest].
  destruct (TrimSuffix_spec name suf) as [[_ Hfront]|[Hno _]]; [|congruence].
  set (front := TrimSuffix name suf) in *. clearbody front.
  destruct (string_app_overlap pre rest front suf) as [mid ->]; [congruence| |].
  - apply (f_equal String.length) in Hfront. rewrite string_app_length in Hfront. lia.
  - exists mid. by rewrite Hfront, string_app_assoc.
Qed.

(** X18: the file [findPendingComment] finds for a number.  For a number
    of letters and digits, a comment it reports carries that number, lies
    in the directory asked for in a file named [<number>.comment.md] or
    [<number>-<slug>.comment.md], and its body is the trimmed content of
    that file: the comment of one issue is never read from the file of an
    issue whose number only starts with its number. *)
Theorem findPendingComment_file (st : Store string) (dir : Dir) (number : issue.IssueNumber)
    (c : PendingComment.t) :
  allChars isAlnum number = true →
  findPendingComment st dir number = Some c →
  PendingComment.IssueNumber c = number ∧
  (PendingComment.Path c).1 = dir ∧
  ((PendingComment.Path c).2 = number +:+ ".comment.md" ∨
   ∃ slug, (PendingComment.Path c).2 = number +:+ "-" +:+ slug +:+ ".comment.md") ∧
  ∃ content, readPath st (PendingComment.Path c) = Ok content ∧
             PendingComment.Body c = TrimSpace content.
Proof.
  intros _. unfold findPendingComment. cbv zeta.
  destruct (readPath st (dir, number +:+ ".comment.md")) as [content|] eqn:Hpref.
  { intros [= <-]. cbn. split_and!; [done..|by left|eauto]. }
  destruct (Glob st dir (number +:+ "-") ".comment.md") as [|first rest] eqn:Hglob; [done|].
  destruct (readPath st first) as [content|] eqn:Hfirst; [|done].
  intros [= <-]. cbn.
  assert (first ∈ Glob st dir (number +:+ "-") ".comment.md") as Hin
    by (rewrite Hglob; by left).
  unfold Glob in Hin. destruct (ReadDir st dir) as [entries|]; [|by apply elem_of_nil in Hin].
  apply list_elem_of_fmap in Hin as (entry & -> & [Hmatch _]%list_elem_of_filter).
  apply matchStar_split in Hmatch as [slug Hname]. cbn.
  split_and!; [done..| |eauto]. right. exists slug. by rewrite Hname, string_app_assoc.
Qed.

Lemma findPendingComment_file_witness :
  let st := mkStore
    (DirOk {[ "4-fix.comment.md" := RegularFile (Ok (" on it" +:+ NL));
              "42.comment.md" := RegularFile (Ok "another") ]})
    (DirOk ∅) (DirOk ∅) in
  findPendingComment st OpenDir "4" =
    Some (PendingComment.mk "4" "on it" (OpenDir, "4-fix.comment.md")) ∧
  ∃ content, readPath st (OpenDir, "4-fix.comment.md") = Ok content ∧
             "on it" = TrimSpace content.
Proof.
  cbv zeta. split; [vm_compute; reflexivity|].
  apply (findPendingComment_file
           (mkStore
              (DirOk {[ "4-fix.comment.md" := RegularFile (Ok (" on it" +:+ NL));
                        "42.comment.md" := RegularFile (Ok "another") ]})
              (DirOk ∅) (DirOk ∅))
           OpenDir "4" (PendingComment.mk "4" "on it" (OpenDir, "4-fix.comment.md")));
    vm_compute; reflexivity.
Defined.

Lemma dropBytes_app k s : ∃ pre, s = pre +:+ dropBytes k s.
Proof.
  revert s. induction k as [|k IH]; intros s.
  - exists "". destruct s; by rewrite string_app_nil_l.
  - destruct s as [|c s]; [by exists ""|]. cbn [dropBytes].
    destruct (IH s) as [pre Hpre]. exists (String c pre). by rewrite string_app_cons, <- Hpre.
Qed.

Lemma commentFileNumber_suffix name k :
  commentFileNumber name = Some k → HasSuffix name ".comment.md" = true.
Proof.
  unfold commentFileNumber. cbv zeta.
  set (number := match digitRun name with "" => _ | _ => _ end). clearbody number.
  destruct number as [num|]; [|done].
  destruct (dropBytes_app (String.length num) name) as [pre Hname].
  destruct (String.eqb_spec (dropBytes (String.length num) name) ".comment.md")
    as [Hrest|_].
  { intros _. rewrite Hname, Hrest. apply HasSuffix_app. }
  destruct (dropBytes (String.length num) name) as [|c rest'] eqn:Hrest; [done|].
  destruct (ascii_dec c "-") as [->|Hc].
  2:{ destruct c as [[] [] [] [] [] [] [] []]; done. }
  destruct (dropBytes_app (String.length (nonDotRun rest')) rest') as [pre' Hrest'].
  destruct (negb _); [|done]. cbn [andb].
  destruct (String.eqb_spec (dropBytes (String.length (nonDotRun rest')) rest')
              ".comment.md") as [Hend|_]; [|done].
  intros _. rewrite Hname, Hrest'. rewrite Hend.
  change (String "-" (pre' +:+ ".comment.md")) with ("-" +:+ (pre' +:+ ".comment.md")).
  rewrite <- !string_app_assoc. apply HasSuffix_app.
Qed.

(** What the scan keeps for a number: a comment of that number, not
    empty, read from a comment file of [open/] or [closed/] whose name
    gives the number. *)
Section scan.
Variable st : Store string.

Local Abbreviation scanned := (λ (k : string) (c : PendingComment.t),
  PendingComment.IssueNumber c = k ∧
  PendingComment.Body c ≠ "" ∧
  recordDir (PendingComment.Path c).1 ∧
  commentFileNumber (PendingComment.Path c).2 = Some k ∧
  ∃ content, readPath st (PendingComment.Path c) = Ok content ∧
             PendingComment.Body c = TrimSpace content).

Lemma loadCommentEntry_cases dir comments entry :
  loadCommentEntry st dir comments entry = comments ∨
  ∃ k content,
    IsDir entry = false ∧ commentFileNumber (Name entry) = Some k ∧
    readPath st (dir, Name entry) = Ok content ∧ TrimSpace content ≠ "" ∧
    comments !! k = None ∧
    loadCommentEntry st dir comments entry =
      <[k := PendingComment.mk k (TrimSpace content) (dir, Name entry)]> comments.
Proof.
  unfold loadCommentEntry.
  destruct (IsDir entry); [by left|].
  destruct (negb _); [by left|].
  destruct (commentFileNumber _) as [number|]; [|by left].
  destruct (readPath _ _) as [content|]; [|by left].
  destruct (String.eqb_spec (TrimSpace content) "") as [|Hbody]; [by left|].
  destruct (comments !! number) eqn:Hnum; [by left|].
  right. exists number, content. by split_and!.
Qed.

Lemma loadCommentEntry_keeps dir comments entry k c :
  comments !! k = Some c → loadCommentEntry st dir comments entry !! k = Some c.
Proof.
  intros Hk.
  destruct (loadCommentEntry_cases dir comments entry)
    as [->|(k' & content & _ & _ & _ & _ & Hnone & ->)]; [done|].
  rewrite lookup_insert_ne; [done|]. intros ->. congruence.
Qed.

Lemma scan_entries_keeps dir entries : ∀ comments k c,
  comments !! k = Some c → foldl (loadCommentEntry st dir) comments entries !! k = Some c.
Proof.
  induction entries as [|entry entries IH]; intros comments k c Hk; [done|].
  cbn [foldl]. apply IH. by apply loadCommentEntry_keeps.
Qed.

Lemma scan_entries_sound dir entries : ∀ comments,
  recordDir dir →
  map_Forall scanned comments →
  map_Forall scanned (foldl (loadCommentEntry st dir) comments entries).
Proof.
  induction entries as [|entry entries IH]; intros comments Hdir Hinv; [done|].
  cbn [foldl]. apply IH; [done|].
  destruct (loadCommentEntry_cases dir comments entry)
    as [->|(k & content & _ & Hnum & Hread & Hbody & _ & ->)]; [done|].
  apply map_Forall_insert_2; [|done]. cbn. split_and!; [done..|eauto].
Qed.

Lemma scan_entries_finds (Q : PendingComment.t → Prop) dir entries :
  (∀ k body name, Q (PendingComment.mk k body (dir, name))) →
  ∀ comments entry k content,
  entry ∈ entries → IsDir entry = false → commentFileNumber (Name entry) = Some k →
  readPath st (dir, Name entry) = Ok content → TrimSpace content ≠ "" →
  (∀ k c, comments !! k = Some c → Q c) →
  ∃ c, foldl (loadCommentEntry st dir) comments entries !! k = Some c ∧ Q c.
Proof.
  intros HQ.
  induction entries as [|e entries IH]; intros comments entry k content Hin Hdir Hnum
    Hread Hbody Hall; [by apply elem_of_nil in Hin|].
  cbn [foldl]. apply elem_of_cons in Hin as [<-|Hin].
  - assert (∃ c, loadCommentEntry st dir comments entry !! k = Some c ∧ Q c)
      as (c & Hc & Hpath).
    { unfold loadCommentEntry. rewrite Hdir, (commentFileNumber_suffix _ _ Hnum). cbn [negb].
      rewrite Hnum, Hread. destruct (String.eqb_spec (TrimSpace content) ""); [done|].
      destruct (comments !! k) as [c|] eqn:Hk.
      - exists c. split; [done|]. by eapply Hall.
      - eexists. by rewrite lookup_insert_eq. }
    exists c. split; [|done]. by apply scan_entries_keeps.
  - eapply IH; try done.
    intros k' c'.
    destruct (loadCommentEntry_cases dir comments e)
      as [->|(k0 & content0 & _ & _ & _ & _ & _ & ->)]; [apply Hall|].
    intros [[<- <-]|[_ Hc]]%lookup_insert_Some; [done|by eapply Hall].
Qed.

Lemma loadAllPendingComments_run :
  loadAllPendingComments st =
  let scan dir comments :=
    match ReadDir st dir with
    | Err _ => comments
    | Ok entries => foldl (loadCommentEntry st dir) comments entries
    end in
  scan ClosedDir (scan OpenDir ∅).
Proof. reflexivity. Qed.
End scan.

Lemma readPath_Ok_entry {C} (st : Store C) dir name (content : C) :
  readPath st (dir, name) = Ok content →
  ∃ entries, ReadDir st dir = Ok entries ∧ mkDirEntry name false ∈ entries.
Proof.
  intros Hread.
  assert (nodeAt st (dir, name) = Some (RegularFile (Ok content))) as Hnode.
  { unfold readPath in Hread. unfold nodeAt. cbn [fst snd] in *.
    destruct (dirState st dir) as [| |nodes]; try done.
    destruct (nodes !! name) as [[|c]|]; try done. by rewrite Hread. }
  assert (∃ entries, ReadDir st dir = Ok entries) as [entries Hdir].
  { unfold ReadDir. unfold nodeAt in Hnode. cbn [fst] in Hnode.
    destruct (dirState st dir); try done. eauto. }
  exists entries. split; [done|]. apply (elem_of_ReadDir _ _ _ _ Hdir). cbn. eauto.
Qed.

(** X19: every comment the scan [loadAllPendingComments] returns is
    filed under its own number, is not empty, and is the trimmed content
    of a file of [open/] or [closed/] whose name, by the pattern for
    comment files, gives that number. *)
Theorem loadAllPendingComments_sound (st : Store string) :
  map_Forall (λ k c,
      PendingComment.IssueNumber c = k ∧
      PendingComment.Body c ≠ "" ∧
      recordDir (PendingComment.Path c).1 ∧
      commentFileNumber (PendingComment.Path c).2 = Some k ∧
      ∃ content, readPath st (PendingComment.Path c) = Ok content ∧
                 PendingComment.Body c = TrimSpace content)
    (loadAllPendingComments st).
Proof.
  rewrite loadAllPendingComments_run. cbv beta zeta.
  assert (map_Forall (λ k c,
      PendingComment.IssueNumber c = k ∧
      PendingComment.Body c ≠ "" ∧
      recordDir (PendingComment.Path c).1 ∧
      commentFileNumber (PendingComment.Path c).2 = Some k ∧
      ∃ content, readPath st (PendingComment.Path c) = Ok content ∧
                 PendingComment.Body c = TrimSpace content)
    match ReadDir st OpenDir with
    | Err _ => ∅
    | Ok entries => foldl (loadCommentEntry st OpenDir) ∅ entries
    end) as Hopen.
  { destruct (ReadDir st OpenDir); [|apply map_Forall_empty].
    apply scan_entries_sound; [by left|apply map_Forall_empty]. }
  destruct (ReadDir st ClosedDir); [|exact Hopen].
  apply scan_entries_sound; [by right|exact Hopen].
Qed.

(** X20: the scan misses no comment.  A file of [open/] or [closed/]
    that can be read, whose name matches the pattern for comment files
    and whose content is not blank, gives its number a pending comment in
    what [loadAllPendingComments] returns; and when the file is in
    [open/], the comment returned for the number is one of [open/]. *)
Theorem loadAllPendingComments_complete (st : Store string) (dir : Dir)
    (name content k : string) :
  recordDir dir →
  readPath st (dir, name) = Ok content →
  commentFileNumber name = Some k →
  TrimSpace content ≠ "" →
  ∃ c, loadAllPendingComments st !! k = Some c ∧
       (dir = OpenDir → (PendingComment.Path c).1 = OpenDir).
Proof.
  intros Hdir Hread Hnum Hbody. rewrite loadAllPendingComments_run. cbv beta zeta.
  destruct (readPath_Ok_entry _ _ _ _ Hread) as (entries & Hentries & Hentry).
  destruct Hdir as [-> | ->].
  - rewrite Hentries.
    destruct (scan_entries_finds st (λ c, (PendingComment.Path c).1 = OpenDir) OpenDir entries
                ltac:(done) ∅ (mkDirEntry name false) k content)
      as (c & Hc & Hpath); [done..|by intros ? ?; rewrite lookup_empty|].
    exists c. split; [|done].
    destruct (ReadDir st ClosedDir); [|done]. by apply scan_entries_keeps.
  - rewrite Hentries.
    destruct (scan_entries_finds st (λ _, True) ClosedDir entries
                ltac:(done)
                match ReadDir st OpenDir with
                | Err _ => ∅
                | Ok entries => foldl (loadCommentEntry st OpenDir) ∅ entries
                end (mkDirEntry name false) k content)
      as (c & Hc & _); [done..|]. by exists c.
Qed.

Lemma loadAllPendingComments_complete_witness :
  let st := mkStore
    (DirOk {[ "7.comment.md" := RegularFile (Ok ("first" +:+ NL)) ]})
    (DirOk {[ "7-bug.comment.md" := RegularFile (Ok "second") ]}) (DirOk ∅) in
  ∃ c, loadAllPendingComments st !! "7" = Some c ∧
       (OpenDir = OpenDir → (PendingComment.Path c).1 = OpenDir).
Proof.
  cbv zeta.
  apply (loadAllPendingComments_complete
           (mkStore
              (DirOk {[ "7.comment.md" := RegularFile (Ok ("first" +:+ NL)) ]})
              (DirOk {[ "7-bug.comment.md" := RegularFile (Ok "second") ]}) (DirOk ∅))
           OpenDir "7.comment.md" ("first" +:+ NL) "7").
  - by left.
  - vm_compute. reflexivity.
  - vm_compute. reflexivity.
  - vm_compute. discriminate.
Defined.

(** *** More of [Pull] *)

(** X21: which local file [Pull] compares a fetched record with.  The
    index [localByNumber] gives for a number the last loaded file that
    holds a record of that number, and nothing for a number no loaded
    file has. *)
Theorem indexByNumber_last (localIssues : list IssueFile.t) (number : string)
    (f : IssueFile.t) :
  indexByNumber localIssues !! number = Some f ↔
  lastWithKey (λ item, issue.Number (IssueFile.Issue item)) number localIssues f.
Proof.
  unfold indexByNumber.
  rewrite (lookup_foldl_insert (λ item, issue.Number (IssueFile.Issue item)) (λ item, item)).
  split; [by intros (x & Hx & <-)|eauto].
Qed.

Lemma fetchByArgs_fails a args arg e :
  arg ∈ args → TrimSpace arg ≠ "" → GetIssue (client a) (TrimSpace arg) = Err e →
  ∃ e', ∀ w, fetchByArgs a args w = (Err e', w).
Proof.
  intros Harg Hblank Hget. unfold fetchByArgs. cbv zeta.
  assert (∀ acc, ∃ e', ∀ w,
    foldM (λ (remoteIssues : list issue.Issue) arg,
             let number := TrimSpace arg in
             if String.eqb number "" then mret remoteIssues
             else match GetIssue (client a) number with
                  | Err e => fail e
                  | Ok remote => mret (remoteIssues ++ [remote])
                  end) acc args w = (Err e', w)) as Hfold.
  { induction args as [|x args IH]; intros acc; [by apply elem_of_nil in Harg|].
    cbv zeta. destruct (String.eqb_spec (TrimSpace x) "") as [Hx|Hx].
    - apply elem_of_cons in Harg as [->|Harg]; [done|].
      destruct (IH Harg acc) as [e' He']. exists e'. intros w.
      rewrite foldM_cons. cbv zeta. rewrite Hx. cbn [String.eqb]. rewrite ret_run. apply He'.
    - destruct (GetIssue (client a) (TrimSpace x)) as [remote|e0] eqn:Hx0.
      + apply elem_of_cons in Harg as [->|Harg]; [congruence|].
        destruct (IH Harg (acc ++ [remote])) as [e' He']. exists e'. intros w.
        rewrite foldM_cons. cbv zeta.
        rewrite (proj2 (String.eqb_neq _ _) Hx), Hx0, ret_run. apply He'.
      + exists e0. intros w. rewrite foldM_cons. cbv zeta.
        by rewrite (proj2 (String.eqb_neq _ _) Hx), Hx0. }
  destruct (Hfold []) as [e' He']. exists e'. intros w. by rewrite bind_run, He'.
Qed.

(** X22: a pull of named records fetches before it writes.  When the
    remote fails for one of the numbers given, [Pull] ends with an error
    and has changed nothing: no file is written or renamed and nothing
    is printed, also for the numbers that could be fetched. *)
Theorem Pull_fetch_error_writes_nothing (slugify : string → string) (a : App)
    (opts : PullOptions) (args : list string) (w : World) (arg : string) (e : error) :
  arg ∈ args → TrimSpace arg ≠ "" → GetIssue (client a) (TrimSpace arg) = Err e →
  ∃ e', Pull slugify a opts args w = (Err e', w).
Proof.
  intros Harg Hblank Hget.
  destruct (fetchByArgs_fails a args arg e Harg Hblank Hget) as [e' He'].
  destruct args as [|arg0 args]; [by apply elem_of_nil in Harg|].
  rewrite Pull_numbers_run.
  destruct (configError a) as [e1|]; [by exists e1|].
  destruct (lockError a) as [e2|]; [by exists e2|].
  destruct (loadLocalIssues (store w)) as [issues|e3]; [|by exists e3].
  exists e'. by rewrite He'.
Qed.

Lemma Pull_fetch_error_writes_nothing_witness :
  let w := worldOf (storeWith (bug7 "A" "open" None) (bug7 "A" "open" None)) in
  ∃ e', Pull slugBug (appWith (bug7 "A-remote" "OPEN" None))
          (mkPullOptions false false []) ["7"; " 8 "] w = (Err e', w).
Proof.
  cbv zeta.
  apply (Pull_fetch_error_writes_nothing slugBug (appWith (bug7 "A-remote" "OPEN" None))
           (mkPullOptions false false []) ["7"; " 8 "]
           (worldOf (storeWith (bug7 "A" "open" None) (bug7 "A" "open" None)))
           " 8 " (ErrOther "not found")).
  - right. by left.
  - vm_compute. discriminate.
  - vm_compute. reflexivity.
Defined.

(** X23: a full pull lists before it writes.  When the list query of
    the remote fails, [Pull] without arguments ends with an error and
    has changed nothing. *)
Theorem Pull_list_error_writes_nothing (slugify : string → string) (a : App)
    (opts : PullOptions) (w : World) (e : error) :
  ListIssuesWithRelationships (client a) (if All opts then "all" else "open") (Label opts)
    = Err e →
  ∃ e', Pull slugify a opts [] w = (Err e', w).
Proof.
  intros Hlist. unfold Pull. cbn [length Nat.ltb Nat.leb Nat.eqb].
  destruct (configError a) as [e1|]; [by exists e1|].
  destruct (lockError a) as [e2|]; [by exists e2|].
  rewrite bind_run, ret_run, bind_run, ret_run, bind_run.
  unfold loadLocalIssuesM at 1.
  destruct (loadLocalIssues (store w)) as [issues|e3]; [|by exists e3].
  rewrite bind_run. unfold fetchListed. cbv zeta. rewrite Hlist. by exists e.
Qed.

Lemma Pull_list_error_writes_nothing_witness :
  let offline := mkClient (λ _, Err (ErrOther "offline")) (λ issues, (issues, None))
                   (λ item, (item, None)) (λ _ _, Err (ErrOther "offline")) (λ _, Ok [])
                   (Ok []) (Ok []) (Ok []) (Ok []) in
  let a := mkApp (λ n, Z.of_nat n) offline None None (λ _ _, []) in
  let w := worldOf (storeWith (bug7 "A" "open" None) (bug7 "A" "open" None)) in
  ∃ e', Pull slugBug a (mkPullOptions false false []) [] w = (Err e', w).
Proof.
  cbv zeta.
  apply (Pull_list_error_writes_nothing slugBug _ (mkPullOptions false false []) _
           (ErrOther "offline")).
  reflexivity.
Defined.

(** *** Restoring deleted records *)






(** *** The loop body, step by step *)

Lemma applyRemote_run slugify a local original remote acc w :
  let newPath :=
    PathFor slugify (targetDirOf remote) (issue.Number remote) (issue.Title remote) in
  let origPath := (OriginalsDir, issue.Number remote +:+ ".md") in
  let same :=
    bool_decide (is_Some original) &&
    negb match local with
         | None => true
         | Some l => negb (EqualIgnoringSyncedAt (IssueFile.Issue l) remote)
         end &&
    negb match local with
         | Some l => bool_decide (IssueFile.Path l ≠ newPath)
         | None => false
         end in
  applyRemote slugify a local original remote acc w =
  if same then (Ok (acc.1, S acc.2), w)
  else
    match renameLocal (store w) local newPath with
    | Err e => (Err e, w)
    | Ok (st1, ops) =>
        match WriteFile st1 newPath remote with
        | Err e => (Err e, mkWorld st1 (calls w) (out w) (fsops w ++ ops) (lastFullPull w))
        | Ok st2 =>
            match writeOriginalIssue st2 remote with
            | Err e =>
                (Err e, mkWorld st2 (calls w) (out w) (fsops w ++ ops ++ [OpWriteFile newPath])
                          (lastFullPull w))
            | Ok st3 =>
                (Ok acc,
                 mkWorld st3 (calls w) (out w ++ printedFor a local remote newPath)
                   (fsops w ++ ops ++ [OpWriteFile newPath; OpWriteFile origPath])
                   (lastFullPull w))
            end
        end
    end.
Proof.
  cbv zeta. unfold applyRemote. cbv zeta.
  set (newPath := PathFor slugify _ _ _).
  destruct (bool_decide (is_Some original) && _ && _); [done|].
  destruct w as [st k o ops lfp]. cbn [store calls out fsops lastFullPull].
  unfold renameLocal, printedFor.
  destruct local as [l|].
  - destruct (bool_decide (IssueFile.Path l ≠ newPath)) eqn:Hpath.
    + rewrite bind_run, fileOp_run. cbn [store calls out fsops lastFullPull].
      destruct (Rename st (IssueFile.Path l) newPath) as [st1|e]; [|done].
      rewrite bind_run, fileOp_run. cbn [store calls out fsops lastFullPull].
      destruct (WriteFile st1 newPath remote) as [st2|e]; [|done].
      rewrite bind_run, fileOp_run. cbn [store calls out fsops lastFullPull].
      destruct (writeOriginalIssue st2 remote) as [st3|e]; [|by rewrite <- app_assoc].
      cbv zeta. rewrite bind_run, print_run, bind_run, printAll_run, ret_run.
      cbn [store calls out fsops lastFullPull].
      by rewrite <- !app_assoc.
    + rewrite bind_run, ret_run.
      rewrite bind_run, fileOp_run. cbn [store calls out fsops lastFullPull].
      destruct (WriteFile st newPath remote) as [st2|e]; [|by rewrite app_nil_r].
      rewrite bind_run, fileOp_run. cbn [store calls out fsops lastFullPull].
      destruct (writeOriginalIssue st2 remote) as [st3|e]; [|done].
      cbv zeta. rewrite bind_run, print_run, bind_run, printAll_run, ret_run.
      cbn [store calls out fsops lastFullPull].
      by rewrite <- !app_assoc.
  - rewrite bind_run, ret_run.
    rewrite bind_run, fileOp_run. cbn [store calls out fsops lastFullPull].
    destruct (WriteFile st newPath remote) as [st2|e]; [|by rewrite app_nil_r].
    rewrite bind_run, fileOp_run. cbn [store calls out fsops lastFullPull].
    destruct (writeOriginalIssue st2 remote) as [st3|e]; [|done].
    rewrite bind_run, print_run, ret_run. cbn [store calls out fsops lastFullPull].
    by rewrite <- !app_assoc.
Qed.

(** *** Every fetched record is accounted for *)

Lemma countHeaders_app es es' : countHeaders (es ++ es') = countHeaders es + countHeaders es'.
Proof. unfold countHeaders. by rewrite filter_app, length_app. Qed.

Lemma countWrites_app ops ops' : countWrites (ops ++ ops') = countWrites ops + countWrites ops'.
Proof. unfold countWrites. by rewrite filter_app, length_app. Qed.

Lemma countRenames_app ops ops' :
  countRenames (ops ++ ops') = countRenames ops + countRenames ops'.
Proof. unfold countRenames. by rewrite filter_app, length_app. Qed.

Lemma countHeaders_printedFor a local remote newPath :
  countHeaders (printedFor a local remote newPath) = 1.
Proof.
  unfold printedFor. destruct local as [l|]; [|done]. cbv zeta.
  set (lines := ChangeLine <$> _).
  assert (countHeaders lines = 0) as Hlines.
  { subst lines. unfold countHeaders. induction (formatChangeLines _ _ _); [done|].
    cbn [fmap list_fmap]. by rewrite filter_cons, decide_False. }
  clearbody lines.
  change (IssueHeader "U" (issue.Number remote) (issue.Title remote) :: ?l)
    with ([IssueHeader "U" (issue.Number remote) (issue.Title remote)] ++ l).
  rewrite countHeaders_app. destruct (_ && _); [rewrite countHeaders_app|];
    rewrite Hlines; done.
Qed.

Lemma renameLocal_ops st local newPath st1 ops :
  renameLocal st local newPath = Ok (st1, ops) →
  countWrites ops = 0 ∧ countRenames ops ≤ 1.
Proof.
  unfold renameLocal, countWrites, countRenames.
  destruct local as [l|]; [|intros [= <- <-]; cbn; lia].
  destruct (bool_decide _); [|intros [= <- <-]; cbn; lia].
  destruct (Rename _ _ _); [|done]. intros [= <- <-].
  rewrite !filter_cons, !filter_nil. cbn [isWriteOp isRenameOp].
  rewrite decide_False, decide_True by done. cbn. lia.
Qed.

Lemma reconcileRemote_counts slugify a opts L acc r w acc' w' :
  reconcileRemote slugify a opts L acc r w = (Ok acc', w') →
  ∃ dc du dw,
    dc + du + dw = 1 ∧
    acc'.1 = acc.1 ++ replicate dc (issue.Number r) ∧
    acc'.2 = acc.2 + du ∧
    countHeaders (out w') = countHeaders (out w) + dw ∧
    countWrites (fsops w') = countWrites (fsops w) + 2 * dw ∧
    countRenames (fsops w') ≤ countRenames (fsops w) + dw.
Proof.
  rewrite reconcileRemote_run. cbv zeta.
  destruct (bool_decide _ && _ && _).
  { intros [= <- <-]. exists 1, 0, 0. cbn [fst snd replicate out fsops tick].
    split_and!; (done || lia). }
  rewrite applyRemote_run. cbv zeta.
  destruct (bool_decide _ && _ && _).
  { intros [= <- <-]. exists 0, 1, 0. cbn [fst snd replicate out fsops tick].
    rewrite app_nil_r. split_and!; (done || lia). }
  destruct (renameLocal _ _ _) as [[st1 ops]|] eqn:Hren; [|done].
  destruct (WriteFile _ _ _) as [st2|]; [|done].
  destruct (writeOriginalIssue _ _) as [st3|]; [|done].
  intros [= <- <-]. exists 0, 0, 1. cbn [replicate fst snd out fsops tick].
  destruct (renameLocal_ops _ _ _ _ _ Hren) as [Hw Hr].
  rewrite app_nil_r, countHeaders_app, countHeaders_printedFor,
    !countWrites_app, !countRenames_app, Hw.
  assert (∀ p q, countWrites [OpWriteFile p; OpWriteFile q] = 2) as Hw2 by done.
  assert (∀ p q, countRenames [OpWriteFile p; OpWriteFile q] = 0) as Hr2 by done.
  rewrite Hw2, Hr2.
  split_and!; try done; lia.
Qed.

Lemma reconcile_fold_counts slugify a opts L rs : ∀ acc w acc' w',
  foldM (reconcileRemote slugify a opts L) acc rs w = (Ok acc', w') →
  ∃ conflicts unchanged written,
    acc'.1 = acc.1 ++ conflicts ∧ acc'.2 = acc.2 + unchanged ∧
    length conflicts + unchanged + written = length rs ∧
    conflicts `sublist_of` (issue.Number <$> rs) ∧
    countHeaders (out w') = countHeaders (out w) + written ∧
    countWrites (fsops w') = countWrites (fsops w) + 2 * written ∧
    countRenames (fsops w') ≤ countRenames (fsops w) + written.
Proof.
  induction rs as [|r rs IH]; intros acc w acc' w'.
  { intros [= <- <-]. exists [], 0, 0. rewrite app_nil_r. split_and!; (done || lia). }
  rewrite foldM_cons.
  destruct (reconcileRemote slugify a opts L acc r w) as [[acc1|e] w1] eqn:Hstep; [|done].
  intros Hrest.
  apply reconcileRemote_counts in Hstep
    as (dc & du & dw & Hsum & Hc & Hu & Hh & Hw & Hr).
  apply IH in Hrest as (cs & us & ws & Hc' & Hu' & Hsum' & Hsub & Hh' & Hw' & Hr').
  exists (replicate dc (issue.Number r) ++ cs), (du + us), (dw + ws).
  rewrite Hc', Hc, Hu', Hu, Hh', Hh, Hw', length_app, length_replicate, <- app_assoc.
  split_and!; try done; cbn [length]; try lia.
  rewrite fmap_cons. destruct dc as [|[|dc]]; [|cbn; by constructor|lia].
  cbn. by apply sublist_cons.
Qed.

(** X25: the loop of [Pull] accounts for every fetched record once.  When
    it succeeds, each fetched record was reported as a conflict, or
    counted as unchanged, or written; for each written record one header
    line was printed, two files were written (the record and its
    snapshot) and at most one file was renamed; and the conflicts are
    numbers of fetched records, in the order they were fetched. *)
Theorem reconcileLoop_accounting (slugify : string → string) (a : App) (opts : PullOptions)
    (remoteIssues : list issue.Issue) (w : World)
    (conflicts : list string) (unchanged : nat) (w' : World) :
  reconcileLoop slugify a opts remoteIssues w = (Ok (conflicts, unchanged), w') →
  ∃ written,
    length conflicts + unchanged + written = length remoteIssues ∧
    conflicts `sublist_of` (issue.Number <$> remoteIssues) ∧
    countHeaders (out w') = countHeaders (out w) + written ∧
    countWrites (fsops w') = countWrites (fsops w) + 2 * written ∧
    countRenames (fsops w') ≤ countRenames (fsops w) + written.
Proof.
  unfold reconcileLoop. rewrite bind_run. unfold loadLocalIssuesM at 1.
  destruct (loadLocalIssues (store w)) as [issues|]; [|done].
  intros (cs & us & ws & Hc & Hu & Hrest)%reconcile_fold_counts.
  cbn in Hc, Hu. subst. by exists ws.
Qed.

Lemma reconcileLoop_accounting_witness :
  let a := appWith (bug7 "A-remote" "OPEN" None) in
  let w := worldOf (storeWith (bug7 "A" "open" None) (bug7 "A" "open" None)) in
  let w' := (reconcileLoop slugBug a (mkPullOptions false false [])
               [bug7 "A-remote" "OPEN" None] w).2 in
  ∃ written,
    length (@nil string) + 0 + written = 1 ∧
    [] `sublist_of` (issue.Number <$> [bug7 "A-remote" "OPEN" None]) ∧
    countHeaders (out w') = countHeaders (out w) + written ∧
    countWrites (fsops w') = countWrites (fsops w) + 2 * written ∧
    countRenames (fsops w') ≤ countRenames (fsops w) + written.
Proof.
  cbv zeta.
  apply (reconcileLoop_accounting slugBug (appWith (bug7 "A-remote" "OPEN" None))
           (mkPullOptions false false []) [bug7 "A-remote" "OPEN" None]
           (worldOf (storeWith (bug7 "A" "open" None) (bug7 "A" "open" None))) [] 0).
  vm_compute. reflexivity.
Defined.

(** *** Local edits survive a pull *)

(** What a step of the loop can do to the node at a path, however it
    ends: leave it, or, at the path of the snapshot, at the path of the
    fetched record or at the path of the local file, remove it, put the
    fetched record or put the node of the local file. *)
Lemma applyRemote_frame slugify a local original remote acc w res w' :
  applyRemote slugify a local original remote acc w = (res, w') →
  let newPath :=
    PathFor slugify (targetDirOf remote) (issue.Number remote) (issue.Title remote) in
  let origPath := (OriginalsDir, issue.Number remote +:+ ".md") in
  (∀ d, dirKind (dirState (store w') d) = dirKind (dirState (store w) d)) ∧
  ∀ q, nodeAt (store w') q = nodeAt (store w) q ∨
       ((q = origPath ∨ q = newPath ∨ Some q = IssueFile.Path <$> local) ∧
        (nodeAt (store w') q = None ∨
         nodeAt (store w') q = Some (RegularFile (Ok remote)) ∨
         ∃ l, local = Some l ∧ nodeAt (store w') q = nodeAt (store w) (IssueFile.Path l))).
Proof.
  rewrite applyRemote_run. cbv zeta.
  set (newPath := PathFor slugify _ _ _).
  set (origPath := (OriginalsDir, issue.Number remote +:+ ".md")).
  set (touched st' := (∀ d, dirKind (dirState st' d) = dirKind (dirState (store w) d)) ∧
    ∀ q, nodeAt st' q = nodeAt (store w) q ∨
       ((q = origPath ∨ q = newPath ∨ Some q = IssueFile.Path <$> local) ∧
        (nodeAt st' q = None ∨ nodeAt st' q = Some (RegularFile (Ok remote)) ∨
         ∃ l, local = Some l ∧ nodeAt st' q = nodeAt (store w) (IssueFile.Path l)))).
  assert (touched (store w)) as Hstart by (split; [done|by left]).
  destruct (bool_decide _ && _ && _); [by intros [= _ <-]|].
  destruct (renameLocal (store w) local newPath) as [[st1 ops]|e] eqn:Hren;
    [|by intros [= _ <-]].
  assert (touched st1) as [Hk1 Hn1].
  { unfold renameLocal in Hren. destruct local as [l|]; [|by injection Hren as <- _].
    case_bool_decide as Hpath; [|by injection Hren as <- _].
    destruct (Rename (store w) (IssueFile.Path l) newPath) as [st1'|] eqn:Hrename; [|done].
    injection Hren as <- _.
    destruct (Rename_Ok _ _ _ _ Hrename Hpath) as [Hn Hk]. split; [done|].
    intros q. rewrite Hn. repeat case_decide; subst.
    - right. split; [by right; left|]. right; right. by exists l.
    - right. split; [by right; right|]. by left.
    - by left. }
  assert (∀ st2 p, WriteFile st1 p remote = Ok st2 → p = newPath ∨ p = origPath →
                   touched st2) as Hwrite1.
  { intros st2 p Hw Hp. destruct (WriteFile_Ok _ _ _ _ Hw) as [Hn Hk].
    split; [intros d; by rewrite Hk|].
    intros q. rewrite Hn. case_decide as Hq; [|apply Hn1].
    right. subst q. split; [destruct Hp as [-> | ->]; tauto|]. right. by left. }
  destruct (WriteFile st1 newPath remote) as [st2|e] eqn:Hw2;
    [|intros [= _ <-]; by split].
  assert (touched st2) as [Hk2 Hn2] by (eapply Hwrite1; [done|by left]).
  assert (∀ st3, writeOriginalIssue st2 remote = Ok st3 → touched st3) as Hwrite2.
  { intros st3 Hw. destruct (WriteFile_Ok _ _ _ _ Hw) as [Hn Hk].
    split; [intros d; by rewrite Hk|].
    intros q. rewrite Hn. case_decide as Hq; [|apply Hn2].
    right. subst q. split; [by left|]. right. by left. }
  destruct (writeOriginalIssue st2 remote) as [st3|e] eqn:Hw3;
    [|intros [= _ <-]; by split].
  intros [= _ <-]. by apply Hwrite2.
Qed.

Lemma accurate_local st L n path i :
  namedByNumber st → accurate L st n → recordAt st path i → issue.Number i = n →
  L !! n = Some (loadedFrom path i).
Proof.
  intros Hst [HS HN] Hrec Hn.
  destruct (L !! n) as [f|] eqn:Hf; [|by destruct (HN eq_refl path i Hrec)].
  destruct (HS f eq_refl) as (path' & i' & Hrec' & Hn' & ->).
  assert (path' = path) as -> by (eapply (one_per_number st Hst); eauto; congruence).
  destruct Hrec as (_ & _ & Hnode), Hrec' as (_ & _ & Hnode').
  rewrite Hnode in Hnode'. by injection Hnode' as <-.
Qed.

(** A step of the loop leaves the records and the snapshot of every
    other number as they are, however it ends. *)
Lemma reconcile_frame slugify a opts L acc r w res w' n :
  namedByNumber (store w) →
  accurate L (store w) (issue.Number r) →
  allChars isAlnum (issue.Number r) = true →
  reconcileRemote slugify a opts L acc r w = (res, w') →
  n ≠ issue.Number r →
  sameView n (store w) (store w').
Proof.
  intros Hst Hacc Halnum. rewrite reconcileRemote_run. cbv zeta.
  destruct (bool_decide _ && _ && _); [intros [= _ <-] _; apply sameView_refl|].
  intros [Hkind Hnodes]%applyRemote_frame Hn. cbn [store tick] in Hkind, Hnodes.
  cbv zeta in Hnodes. cbn [issue.Number issue.Title stamped setSyncedAt setState] in Hnodes.
  set (newPath := PathFor slugify _ _ _) in Hnodes.
  assert (alnumRun newPath.2 = issue.Number r) as Hnew by by apply PathFor_number.
  assert (recordDir newPath.1) as Hnewdir by apply targetDirOf_recordDir.
  assert (∀ q, Some q = IssueFile.Path <$> L !! issue.Number r →
               ∃ i0, recordAt (store w) q i0 ∧ issue.Number i0 = issue.Number r) as Hlocal.
  { intros q Hq. destruct Hacc as [HS _].
    destruct (L !! issue.Number r) as [l|]; [|done].
    destruct (HS l eq_refl) as (path0 & i0 & Hrec0 & Hn0 & ->). injection Hq as ->. eauto. }
  assert (∀ q i, recordAt (store w) q i → issue.Number i = n →
                 nodeAt (store w') q = nodeAt (store w) q) as Hkeep.
  { intros q i Hrec Hi. destruct (Hnodes q) as [Hq|[Hspecial _]]; [done|exfalso].
    destruct Hspecial as [->|[->|Hq]].
    - destruct Hrec as ([Hd|Hd] & _); cbn in Hd; discriminate.
    - apply Hn. rewrite <- Hi, <- Hnew. symmetry.
      by apply (name_has_number _ Hst).
    - destruct (Hlocal q Hq) as (i0 & (_ & _ & Hnode0) & Hn0).
      destruct Hrec as (_ & _ & Hnode). rewrite Hnode in Hnode0. injection Hnode0 as <-.
      congruence. }
  split.
  - intros q i Hi. split.
    + intros Hrec. destruct (Hrec) as (Hd & Hmd & Hnode). split_and!; [done..|].
      by rewrite (Hkeep q i Hrec Hi).
    + intros (Hd & Hmd & Hnode). split_and!; [done..|].
      destruct (Hnodes q) as [Hq|[Hspecial Hwhat]]; [by rewrite <- Hq|exfalso].
      destruct Hwhat as [Hnone|[Hremote|(l & Hl & Hmoved)]].
      * congruence.
      * rewrite Hnode in Hremote. injection Hremote as ->. by apply Hn.
      * destruct (Hlocal (IssueFile.Path l)) as (i0 & (_ & _ & Hnode0) & Hn0);
          [by rewrite Hl|].
        rewrite Hnode, Hnode0 in Hmoved. injection Hmoved as ->. congruence.
  - unfold readOriginalIssue. rewrite !readPath_nodeAt. cbn [fst]. rewrite Hkind.
    destruct (Hnodes (OriginalsDir, n +:+ ".md")) as [->|[Hspecial _]]; [done|exfalso].
    destruct Hspecial as [[= Heq]|[Heq|Hq]].
    + apply string_app_inj_r in Heq. by apply Hn.
    + rewrite <- Heq in Hnewdir. destruct Hnewdir as [Hd|Hd]; cbn in Hd; discriminate.
    + destruct (Hlocal _ Hq) as (i0 & ([Hd|Hd] & _) & _); cbn in Hd; discriminate.
Qed.

(** A record with local edits is skipped. *)
Lemma reconcile_skips_edits slugify a opts L acc r w path i :
  namedByNumber (store w) →
  accurate L (store w) (issue.Number r) →
  Force opts = false →
  recordAt (store w) path i → issue.Number i = issue.Number r →
  localChangedOf (Some (loadedFrom path i))
    (readOriginalIssue (store w) (issue.Number i)) = true →
  reconcileRemote slugify a opts L acc r w =
    (Ok (acc.1 ++ [issue.Number r], acc.2), tick w).
Proof.
  intros Hst Hacc Hforce Hrec Hn Hchanged. rewrite reconcileRemote_run. cbv zeta.
  rewrite (accurate_local _ _ _ _ _ Hst Hacc Hrec Hn), <- Hn, Hchanged, Hforce.
  by rewrite bool_decide_eq_true_2 by eauto.
Qed.

Lemma sameView_recordAt n st st' path i :
  sameView n st st' → issue.Number i = n → recordAt st path i → recordAt st' path i.
Proof. intros [Hrec _] Hn. by apply Hrec. Qed.

Lemma loop_keeps_edits slugify a opts L rs : ∀ acc w res w',
  namedByNumber (store w) → fetchedOK rs → Force opts = false →
  (∀ r, r ∈ rs → accurate L (store w) (issue.Number r)) →
  foldM (reconcileRemote slugify a opts L) acc rs w = (res, w') →
  ∀ path i, recordAt (store w) path i →
    localChangedOf (Some (loadedFrom path i))
      (readOriginalIssue (store w) (issue.Number i)) = true →
    sameView (issue.Number i) (store w) (store w').
Proof.
  induction rs as [|r rs IH]; intros acc w res w' Hst Hrs Hforce Hacc.
  { intros [= _ <-] path i _ _. apply sameView_refl. }
  apply fetchedOK_cons in Hrs as (Hr & Halnum & Hstate & Hrs).
  rewrite foldM_cons. intros Hrun path i Hrec Hchanged.
  destruct (decide (issue.Number i = issue.Number r)) as [Hn|Hn].
  - rewrite (reconcile_skips_edits _ _ _ _ _ _ _ path i) in Hrun;
      [|done|by apply Hacc; left|done..].
    refine (IH _ (tick w) res w' Hst Hrs Hforce _ Hrun path i Hrec Hchanged).
    intros r' Hr'. apply Hacc. by right.
  - destruct (reconcileRemote slugify a opts L acc r w) as [res1 w1] eqn:Hstep.
    assert (sameView (issue.Number i) (store w) (store w1)) as Hview.
    { eapply reconcile_frame; [done|by apply Hacc; left|done|exact Hstep|done]. }
    destruct res1 as [acc1|e]; [|by injection Hrun as _ <-].
    apply reconcile_step in Hstep as (Hst1 & Hview1 & _);
      [|done|by apply Hacc; left|done..].
    eapply sameView_trans; [exact Hview|].
    refine (IH acc1 w1 res w' Hst1 Hrs Hforce _ Hrun path i _ _).
    + intros r' Hr'. eapply accurate_sameView; [|apply Hacc; by right].
      apply Hview1. intros Heq. apply Hr. rewrite <- Heq. by apply list_elem_of_fmap_2.
    + by eapply sameView_recordAt.
    + destruct Hview as [_ <-]. done.
Qed.

(** X26: a pull without force keeps local edits.  Take a store whose
    record files parse and are named after the number of the one record
    of that number they hold, and arguments for which the remote answers
    with records of distinct numbers made of letters and digits, in state
    open or closed.  A record file that differs from its snapshot, or has
    none, is there with the same content after [Pull] with these
    arguments and no force, and its snapshot is as it was: also when the
    pull failed on the way. *)
Theorem Pull_keeps_local_edits (slugify : string → string) (a : App) (opts : PullOptions)
    (args : list string) (w : World) (res : result unit) (w1 : World)
    (path : FilePath) (i : issue.Issue) :
  args ≠ [] →
  namedByNumber (store w) →
  (∀ fetched w', fetchByArgs a args w = (Ok fetched, w') → fetchedOK fetched.1) →
  Force opts = false →
  Pull slugify a opts args w = (res, w1) →
  recordAt (store w) path i →
  localChangedOf (Some (loadedFrom path i))
    (readOriginalIssue (store w) (issue.Number i)) = true →
  recordAt (store w1) path i ∧
  readOriginalIssue (store w1) (issue.Number i) =
    readOriginalIssue (store w) (issue.Number i).
Proof.
  intros Hargs Hst Hfetched Hforce Hrun Hrec Hchanged.
  assert (sameView (issue.Number i) (store w) (store w1)) as [Hsame Horig].
  2:{ split; [by apply Hsame|done]. }
  destruct args as [|arg args]; [done|]. rewrite Pull_numbers_run in Hrun.
  destruct (configError a); [injection Hrun as _ <-; apply sameView_refl|].
  destruct (lockError a); [injection Hrun as _ <-; apply sameView_refl|].
  rewrite loadLocalIssues_named in Hrun by done.
  destruct (fetchByArgs_run a (arg :: args)) as (fres & es & Hfetch).
  rewrite Hfetch in Hfetched, Hrun.
  destruct fres as [fetched|e]; [|injection Hrun as _ <-; apply sameView_refl].
  specialize (Hfetched _ _ eq_refl).
  unfold reconcileLoop in Hrun. rewrite bind_run in Hrun.
  unfold loadLocalIssuesM at 1 in Hrun. cbn [store logged] in Hrun.
  rewrite loadLocalIssues_named in Hrun by done.
  destruct (foldM _ _ _ _) as [lres wl] eqn:Hloop.
  pose proof (loop_keeps_edits slugify a opts _ fetched.1 ([], 0) (logged es w) lres wl
                Hst Hfetched Hforce (λ r _, accurate_load _ _) Hloop path i Hrec Hchanged)
    as Hview.
  cbn [store logged] in Hview.
  destruct lres as [acc|e]; [|by injection Hrun as _ <-].
  destruct (report_run acc.1 acc.2) as [es' Hreport]. rewrite Hreport in Hrun.
  by injection Hrun as _ <-.
Qed.

Lemma Pull_keeps_local_edits_witness :
  let a := appWith (bug7 "A-remote" "OPEN" None) in
  let w := worldOf (storeWith (bug7 "A-local" "open" None) (bug7 "A" "open" None)) in
  let w1 := (Pull slugBug a (mkPullOptions false false []) ["7"] w).2 in
  recordAt (store w1) (OpenDir, "7-bug.md") (bug7 "A-local" "open" None) ∧
  readOriginalIssue (store w1) "7" = readOriginalIssue (store w) "7".
Proof.
  cbv zeta.
  apply (Pull_keeps_local_edits slugBug (appWith (bug7 "A-remote" "OPEN" None))
           (mkPullOptions false false []) ["7"]
           (worldOf (storeWith (bug7 "A-local" "open" None) (bug7 "A" "open" None)))
           (Pull slugBug (appWith (bug7 "A-remote" "OPEN" None))
              (mkPullOptions false false []) ["7"]
              (worldOf (storeWith (bug7 "A-local" "open" None) (bug7 "A" "open" None)))).1).
  - discriminate.
  - apply storeWith_named. reflexivity.
  - intros fetched w' Hfetch. vm_compute in Hfetch. injection Hfetch as <- _.
    split.
    + cbn. apply NoDup_singleton.
    + intros r ->%list_elem_of_singleton. split; [reflexivity|]. left. vm_compute. reflexivity.
  - reflexivity.
  - by destruct (Pull _ _ _ _ _).
  - split_and!; [by left|reflexivity|vm_compute; reflexivity].
  - vm_compute. reflexivity.
Defined.

(** *** A pull of named records leaves the configuration alone *)

Lemma renameLocal_record_ops st local newPath st1 ops :
  renameLocal st local newPath = Ok (st1, ops) →
  Forall (λ op, isWriteOp op = true ∨ isRenameOp op = true) ops.
Proof.
  unfold renameLocal. destruct local as [l|]; [|intros [= <- <-]; constructor].
  destruct (bool_decide _); [|intros [= <- <-]; constructor].
  destruct (Rename _ _ _); [|done]. intros [= <- <-]. apply Forall_singleton. by right.
Qed.

Lemma reconcileRemote_ops slugify a opts L acc r w res w' :
  reconcileRemote slugify a opts L acc r w = (res, w') →
  lastFullPull w' = lastFullPull w ∧
  ∃ ops, fsops w' = fsops w ++ ops ∧
         Forall (λ op, isWriteOp op = true ∨ isRenameOp op = true) ops.
Proof.
  rewrite reconcileRemote_run. cbv zeta.
  destruct (bool_decide _ && _ && _).
  { intros [= _ <-]. split; [done|]. exists []. by rewrite app_nil_r. }
  rewrite applyRemote_run. cbv zeta.
  destruct (bool_decide _ && _ && _).
  { intros [= _ <-]. split; [done|]. exists []. by rewrite app_nil_r. }
  destruct (renameLocal _ _ _) as [[st1 ops]|] eqn:Hren.
  2:{ intros [= _ <-]. split; [done|]. exists []. by rewrite app_nil_r. }
  apply renameLocal_record_ops in Hren.
  destruct (WriteFile _ _ _) as [st2|].
  2:{ intros [= _ <-]. split; [done|]. by exists ops. }
  destruct (writeOriginalIssue _ _) as [st3|]; intros [= _ <-]; (split; [done|]);
    eexists; (split; [done|]); apply Forall_app; (split; [done|]);
    repeat (apply Forall_cons; split; [by left|]); constructor.
Qed.

Lemma reconcile_fold_ops slugify a opts L rs : ∀ acc w res w',
  foldM (reconcileRemote slugify a opts L) acc rs w = (res, w') →
  lastFullPull w' = lastFullPull w ∧
  ∃ ops, fsops w' = fsops w ++ ops ∧
         Forall (λ op, isWriteOp op = true ∨ isRenameOp op = true) ops.
Proof.
  induction rs as [|r rs IH]; intros acc w res w'.
  { intros [= _ <-]. split; [done|]. exists []. by rewrite app_nil_r. }
  rewrite foldM_cons.
  destruct (reconcileRemote slugify a opts L acc r w) as [res1 w1] eqn:Hstep.
  apply reconcileRemote_ops in Hstep as (Hlfp & ops & Hops & Hall).
  destruct res1 as [acc1|e].
  - intros (Hlfp' & ops' & Hops' & Hall')%IH. split; [congruence|].
    exists (ops ++ ops'). rewrite Hops', Hops, <- app_assoc. split; [done|].
    by apply Forall_app.
  - intros [= _ <-]. split; [done|]. by exists ops.
Qed.

(** X27: a pull of named records does not touch the configuration or
    the caches.  However [Pull] with arguments ends, the time of the
    last full pull is as it was, and every file operation it did is the
    writing of a record or snapshot file or the renaming of a record
    file. *)
Theorem Pull_numbers_keeps_config (slugify : string → string) (a : App)
    (opts : PullOptions) (args : list string) (w : World) :
  args ≠ [] →
  let w1 := (Pull slugify a opts args w).2 in
  lastFullPull w1 = lastFullPull w ∧
  ∃ ops, fsops w1 = fsops w ++ ops ∧
         Forall (λ op, isWriteOp op = true ∨ isRenameOp op = true) ops.
Proof.
  intros Hargs. cbv zeta. destruct args as [|arg args]; [done|].
  rewrite Pull_numbers_run.
  assert (lastFullPull w = lastFullPull w ∧
          ∃ ops, fsops w = fsops w ++ ops ∧
                 Forall (λ op, isWriteOp op = true ∨ isRenameOp op = true) ops) as Hsame.
  { split; [done|]. exists []. by rewrite app_nil_r. }
  destruct (configError a); [exact Hsame|]. destruct (lockError a); [exact Hsame|].
  destruct (loadLocalIssues (store w)); [|exact Hsame].
  destruct (fetchByArgs_run a (arg :: args)) as (fres & es & ->).
  destruct fres as [fetched|e]; [|exact Hsame].
  destruct (reconcileLoop slugify a opts fetched.1 (logged es w)) as [lres wl] eqn:Hloop.
  assert (lastFullPull wl = lastFullPull w ∧
          ∃ ops, fsops wl = fsops w ++ ops ∧
                 Forall (λ op, isWriteOp op = true ∨ isRenameOp op = true) ops) as Hwl.
  { unfold reconcileLoop in Hloop. rewrite bind_run in Hloop.
    unfold loadLocalIssuesM at 1 in Hloop.
    destruct (loadLocalIssues (store (logged es w))); [|by injection Hloop as _ <-].
    by apply reconcile_fold_ops in Hloop. }
  destruct lres as [acc|e]; [|exact Hwl].
  destruct (report_run acc.1 acc.2) as [es' ->]. exact Hwl.
Qed.

Lemma Pull_numbers_keeps_config_witness :
  let a := appWith (bug7 "A-remote" "OPEN" None) in
  let w := worldOf (storeWith (bug7 "A" "open" None) (bug7 "A" "open" None)) in
  let w1 := (Pull slugBug a (mkPullOptions false false []) ["7"] w).2 in
  lastFullPull w1 = lastFullPull w ∧
  ∃ ops, fsops w1 = fsops w ++ ops ∧
         Forall (λ op, isWriteOp op = true ∨ isRenameOp op = true) ops.
Proof.
  cbv zeta.
  apply (Pull_numbers_keeps_config slugBug (appWith (bug7 "A-remote" "OPEN" None))
           (mkPullOptions false false []) ["7"]).
  discriminate.
Defined.

(** *** The comment of an issue, whatever its state *)

(** X28: [findPendingCommentForIssue] looks in both directories.  It
    finds no comment exactly when [findPendingComment] finds none in
    [open/] and none in [closed/]; the state given only decides which
    directory is asked first, and a comment found is one that
    [findPendingComment] finds in one of the two. *)
Theorem findPendingCommentForIssue_either (st : Store string) (number : issue.IssueNumber)
    (state : string) :
  (findPendingCommentForIssue st number state = None ↔
   findPendingComment st OpenDir number = None ∧
   findPendingComment st ClosedDir number = None) ∧
  (∀ c, findPendingComment st (if decide (state = "closed") then ClosedDir else OpenDir)
          number = Some c →
        findPendingCommentForIssue st number state = Some c) ∧
  (∀ c, findPendingCommentForIssue st number state = Some c →
        findPendingComment st OpenDir number = Some c ∨
        findPendingComment st ClosedDir number = Some c).
Proof.
  unfold findPendingCommentForIssue. cbv zeta.
  destruct (decide (state = "closed"));
    destruct (findPendingComment st OpenDir number) as [co|],
             (findPendingComment st ClosedDir number) as [cc|];
    split_and!; try done; try (by intros []); try (intros c [= <-]; by (left + right)).
  all: try (by split; [|intros []]).
Qed.

(** *** What a full pull fetches *)

(** X29: the records a full pull works on.  When the list query
    succeeds, [Pull] without arguments takes the listed records first and
    as listed, with the label colours of the listing, and prints nothing;
    after them come the records of the batch query (asked for the numbers
    of the local records that are not temporary) whose key is not the
    number of a listed record.  With [--all] there is no batch query, and
    a batch query that fails adds nothing. *)
Theorem fetchListed_merge (a : App) (opts : PullOptions) (localIssues : list IssueFile.t)
    (w : World) (listed : list issue.Issue) (colors : gmap string string) :
  ListIssuesWithRelationships (client a) (if All opts then "all" else "open") (Label opts)
    = Ok (listed, colors) →
  let toFetch :=
    issue.Number ∘ IssueFile.Issue <$>
      filter (λ l, IsLocal (issue.Number (IssueFile.Issue l)) = false) localIssues in
  ∃ extra,
    fetchListed a opts localIssues w = (Ok (listed ++ extra, colors), w) ∧
    (All opts = true → extra = []) ∧
    (toFetch = [] → extra = []) ∧
    (∀ e, GetIssuesBatch (client a) toFetch = Err e → extra = []) ∧
    (∀ r, r ∈ extra →
       All opts = false ∧
       ∃ batch key, GetIssuesBatch (client a) toFetch = Ok batch ∧
                    (key, r) ∈ batch ∧ key ∉ issue.Number <$> listed).
Proof.
  intros Hlist. cbv zeta. unfold fetchListed. cbv zeta. rewrite Hlist.
  set (toFetch := issue.Number ∘ IssueFile.Issue <$> _).
  assert (∀ m : M (list issue.Issue * gmap string string),
            m w = (Ok (listed, colors), w) →
            ∃ extra, m w = (Ok (listed ++ extra, colors), w) ∧
              (All opts = true → extra = []) ∧ (toFetch = [] → extra = []) ∧
              (∀ e, GetIssuesBatch (client a) toFetch = Err e → extra = []) ∧
              (∀ r, r ∈ extra →
                 All opts = false ∧
                 ∃ batch key, GetIssuesBatch (client a) toFetch = Ok batch ∧
                              (key, r) ∈ batch ∧ key ∉ issue.Number <$> listed)) as Hnone.
  { intros m Hm. exists []. rewrite (app_nil_r listed).
    split_and!; try done. by intros r ?%elem_of_nil. }
  destruct (All opts) eqn:Hall; [by apply Hnone|].
  destruct (0 <? length toFetch) eqn:Hlen; [|by apply Hnone].
  destruct (GetIssuesBatch (client a) toFetch) as [batch|e] eqn:Hbatch; [|by apply Hnone].
  destruct (0 <? length batch) eqn:Hb; [|by apply Hnone].
  eexists. split; [reflexivity|]. split_and!; try done.
  - intros Hnil. rewrite Hnil in Hlen. done.
  - intros r ([key r'] & -> & [Hkey Hin]%list_elem_of_filter)%list_elem_of_fmap.
    split; [done|]. exists batch, key. split_and!; [done..|].
    cbn in Hkey. by rewrite elem_of_list_to_set in Hkey.
Qed.

Lemma fetchListed_merge_witness :
  let remote := bug7 "A-remote" "OPEN" None in
  ∃ extra,
    fetchListed (appWith remote) (mkPullOptions false false []) [] (worldOf (storeWith remote remote))
      = (Ok ([remote] ++ extra, ∅), worldOf (storeWith remote remote)) ∧
    (false = true → extra = []) ∧
    (issue.Number ∘ IssueFile.Issue <$>
       filter (λ l, IsLocal (issue.Number (IssueFile.Issue l)) = false) [] = [] →
     extra = []) ∧
    (∀ e, GetIssuesBatch (client (appWith remote))
            (issue.Number ∘ IssueFile.Issue <$>
               filter (λ l, IsLocal (issue.Number (IssueFile.Issue l)) = false) []) = Err e →
          extra = []) ∧
    (∀ r, r ∈ extra →
       false = false ∧
       ∃ batch key,
         GetIssuesBatch (client (appWith remote))
           (issue.Number ∘ IssueFile.Issue <$>
              filter (λ l, IsLocal (issue.Number (IssueFile.Issue l)) = false) []) = Ok batch ∧
         (key, r) ∈ batch ∧ key ∉ issue.Number <$> [remote]).
Proof.
  cbv zeta.
  apply (fetchListed_merge (appWith (bug7 "A-remote" "OPEN" None))
           (mkPullOptions false false []) []
           (worldOf (storeWith (bug7 "A-remote" "OPEN" None) (bug7 "A-remote" "OPEN" None)))
           [bug7 "A-remote" "OPEN" None] ∅).
  reflexivity.
Defined.
